(** * simple::vector — a shallow embedding of include/simple/vector.h

    The container is a pointer triple [m_begin], [m_end], [m_realend] plus an
    allocator held by value.  Addresses are counted in elements (an address
    is a [Z], [nullptr] is [0]); the free store records which blocks are
    allocated, which slots hold a live object, and a log of the calls made
    through [std::allocator_traits].  Member functions are written in a small
    state-and-exception monad over (the object, the free store). *)

From Stdlib Require Import ZArith Lia List Bool.
From stdpp Require Import base option list gmap fin_maps.

Local Open Scope Z_scope.

(** ** Machine integers *)

(** [size_t] is 64 bits wide; a conversion from [ptrdiff_t] wraps. *)
Definition size_t_modulus : Z := 2 ^ 64.
Definition to_size_t (z : Z) : Z := z mod size_t_modulus.
Definition PTRDIFF_MAX : Z := 2 ^ 63 - 1.

Definition nullptr : Z := 0.

(** ** Exceptions and the allocator-traits call log *)

Inductive exn : Type :=
| LengthError      (* std::length_error *)
| BadAlloc         (* whatever the allocator's allocate throws *)
| OutOfRange       (* std::out_of_range *)
| ElemExn.         (* thrown by a constructor of ValueT *)

Inductive event : Type :=
| EvAllocate (alloc : nat) (n : Z)
| EvDeallocate (alloc : nat) (p n : Z)
| EvConstruct (p : Z)
| EvDestroy (p : Z)
| EvAssign (p : Z).

#[global] Instance exn_eq_dec : EqDecision exn.
Proof. solve_decision. Defined.
#[global] Instance event_eq_dec : EqDecision event.
Proof. solve_decision. Defined.

Definition is_allocate (e : event) : bool :=
  match e with EvAllocate _ _ => true | _ => false end.
Definition is_construct (e : event) : bool :=
  match e with EvConstruct _ => true | _ => false end.
Definition is_destroy (e : event) : bool :=
  match e with EvDestroy _ => true | _ => false end.
Definition is_assign (e : event) : bool :=
  match e with EvAssign _ => true | _ => false end.

(** ** Collaborators: the allocator and the element type *)

(** An allocator instance.  [a_max_size] is what
    [allocator_traits::max_size] reports; [a_limit] is the largest request
    its [allocate] satisfies (larger requests throw). *)
Record allocator : Type := Allocator {
  a_id : nat;
  a_max_size : Z;
  a_limit : Z
}.

(** The compile-time members of [std::allocator_traits<AllocT>]. *)
Class AllocTraits : Type := {
  propagate_on_container_copy_assignment : bool;
  propagate_on_container_move_assignment : bool;
  propagate_on_container_swap : bool;
  is_always_equal : bool
}.

(** [m_alloc != other.m_alloc] *)
Definition alloc_neq (a b : allocator) : bool := negb (Nat.eqb (a_id a) (a_id b)).

(** What the container needs to know of [ValueT]: its size, what value
    initialisation gives (or that it throws), which values make the copy or
    the move constructor throw, and whether the move constructor is
    [noexcept]. *)
Class Element (V : Type) : Type := {
  sizeof_elem : Z;
  default_init : option V;
  copy_throws : V -> bool;
  move_throws : V -> bool;
  nothrow_move : bool
}.

(** The arguments of a constructor call [ValueT(args...)]: none, one value
    to copy from, or one value to move from. *)
Inductive ctor_args (V : Type) : Type :=
| NoArgs
| FromValue (x : V)
| FromRvalue (x : V).
Arguments NoArgs {V}.
Arguments FromValue {V} x.
Arguments FromRvalue {V} x.

Inductive reloc_mode : Type := ByCopy | ByMove | ByMoveIfNoexcept.

Section Vector.
Context {V : Type} `{Element V} `{AllocTraits}.

(** Constructing an element from an existing one, by copy, by move, or by
    [std::move_if_noexcept]: the value built, or [None] when the constructor
    throws.  A moved-from object is left with its value, as it is for
    [int]; what it holds for another element type is that type's
    business, and nothing is stated below of an object of an arbitrary
    element type after it was moved from. *)
Definition relocate_value (mode : reloc_mode) (x : V) : option V :=
  match mode with
  | ByCopy => if copy_throws x then None else Some x
  | ByMove => if nothrow_move then Some x else if move_throws x then None else Some x
  | ByMoveIfNoexcept =>
      if nothrow_move then Some x else if copy_throws x then None else Some x
  end.

(** Running [ValueT(args...)]: the value built, or [None] when it throws. *)
Definition run_ctor (args : ctor_args V) : option V :=
  match args with
  | NoArgs => default_init
  | FromValue x => relocate_value ByCopy x
  | FromRvalue x => relocate_value ByMove x
  end.

(** ** The free store *)

Record heap : Type := Heap {
  h_blocks : gmap Z Z;       (* base address -> number of slots *)
  h_objs : gmap Z V;         (* address -> the live object there *)
  h_next : Z;                (* every address handed out so far is below *)
  h_log : list event;        (* newest first *)
  h_ub : bool                (* a call went outside what the language defines *)
}.

Definition log_event (e : event) (h : heap) : heap :=
  Heap (h_blocks h) (h_objs h) (h_next h) (e :: h_log h) (h_ub h).
Definition flag_ub (h : heap) : heap :=
  Heap (h_blocks h) (h_objs h) (h_next h) (h_log h) true.

(** Addresses are bounded like [ptrdiff_t]. *)
Definition addr_max : Z := PTRDIFF_MAX.

Definition in_live_block (h : heap) (p : Z) : bool :=
  bool_decide (map_Exists (fun b n => b <= p < b + n) (h_blocks h)).

(** [AllocTraitsT::allocate(alloc, n)]: a fresh block, or [None] when the
    allocator throws, which it does beyond its [a_limit] or when the
    address space is used up.  A request for zero slots yields a fresh
    non-null address of an empty block, as [::operator new(0)] does.  The
    call is logged either way. *)
Definition traits_allocate (a : allocator) (n : Z) (h : heap) : option Z * heap :=
  let h1 := log_event (EvAllocate (a_id a) n) h in
  if (n <=? a_limit a) && (h_next h + Z.max n 1 <=? addr_max) then
    (Some (h_next h),
     Heap (<[h_next h := n]> (h_blocks h1)) (h_objs h1)
          (h_next h + Z.max n 1) (h_log h1) (h_ub h1))
  else (None, h1).

(** [AllocTraitsT::deallocate(alloc, p, n)].  The storage goes away; objects
    still alive in it are not destroyed, they stay recorded in [h_objs]
    outside every block.  Releasing a null pointer does nothing.  The
    free store does not record which allocator a block came from: the
    allocator a release goes through is visible in the call log only. *)
Definition traits_deallocate (a : allocator) (p n : Z) (h : heap) : heap :=
  let h1 := log_event (EvDeallocate (a_id a) p n) h in
  match h_blocks h !! p with
  | Some n' =>
      Heap (delete p (h_blocks h1)) (h_objs h1) (h_next h1) (h_log h1)
           (h_ub h1 || negb (n =? n'))
  | None => if p =? nullptr then h1 else flag_ub h1
  end.

(** [AllocTraitsT::construct(alloc, p, args...)] *)
Definition traits_construct (p : Z) (x : option V) (h : heap) : option heap :=
  match x with
  | None => None
  | Some x =>
      Some (Heap (h_blocks h) (<[p := x]> (h_objs h)) (h_next h)
                 (EvConstruct p :: h_log h)
                 (h_ub h || negb (in_live_block h p)))
  end.

(** [AllocTraitsT::destroy(alloc, p)] *)
Definition traits_destroy (p : Z) (h : heap) : heap :=
  Heap (h_blocks h) (delete p (h_objs h)) (h_next h) (EvDestroy p :: h_log h)
       (h_ub h || negb (bool_decide (is_Some (h_objs h !! p)))).

(** [*p = x] on a live element: the assignment once it goes through.
    Whether an assignment throws is decided where it is called; only copy
    assignment models one that does. *)
Definition assign_at (p : Z) (x : V) (h : heap) : heap :=
  Heap (h_blocks h) (<[p := x]> (h_objs h)) (h_next h) (EvAssign p :: h_log h)
       (h_ub h || negb (bool_decide (is_Some (h_objs h !! p)))).

Fixpoint destroy_range (k : nat) (p : Z) (h : heap) : heap :=
  match k with
  | O => h
  | S k' => destroy_range k' (p + 1) (traits_destroy p h)
  end.

(** ** The container *)

Record vector : Type := Vector {
  m_begin : Z;
  m_end : Z;
  m_realend : Z;
  m_alloc : allocator
}.

Definition set_begin (p : Z) (v : vector) : vector :=
  Vector p (m_end v) (m_realend v) (m_alloc v).
Definition set_end (p : Z) (v : vector) : vector :=
  Vector (m_begin v) p (m_realend v) (m_alloc v).
Definition set_realend (p : Z) (v : vector) : vector :=
  Vector (m_begin v) (m_end v) p (m_alloc v).
Definition set_alloc (a : allocator) (v : vector) : vector :=
  Vector (m_begin v) (m_end v) (m_realend v) a.

(** [size_t size() const noexcept { return m_end - m_begin; }] *)
Definition size (v : vector) : Z := to_size_t (m_end v - m_begin v).
(** [size_t capacity() const noexcept { return m_realend - m_begin; }] *)
Definition capacity (v : vector) : Z := to_size_t (m_realend v - m_begin v).
Definition empty (v : vector) : bool := size v =? 0.

(** [max_size()] *)
Definition max_size (v : vector) : Z :=
  let diffmax := PTRDIFF_MAX / sizeof_elem in
  let allocmax := a_max_size (m_alloc v) in
  Z.min diffmax allocmax.

(** The elements as a reader sees them: slot [i] is [m_begin + i]. *)
Definition elems (h : heap) (v : vector) : list (option V) :=
  (fun i => h_objs h !! (m_begin v + i)) <$> seqZ 0 (size v).

(** ** The monad of member functions *)

Inductive outcome (A : Type) : Type :=
| Ok (a : A) (v : vector) (h : heap)
| Throw (e : exn) (v : vector) (h : heap).
Arguments Ok {A} a v h.
Arguments Throw {A} e v h.

Definition M (A : Type) : Type := vector -> heap -> outcome A.

#[global] Instance M_ret : MRet M := fun A a v h => Ok a v h.
#[global] Instance M_bind : MBind M := fun A B f m v h =>
  match m v h with
  | Ok a v' h' => f a v' h'
  | Throw e v' h' => Throw e v' h'
  end.

Definition throw {A : Type} (e : exn) : M A := fun v h => Throw e v h.
Definition try_catch {A : Type} (m : M A) (handler : exn -> M A) : M A :=
  fun v h =>
    match m v h with
    | Ok a v' h' => Ok a v' h'
    | Throw e v' h' => handler e v' h'
    end.
Definition this {A : Type} (f : vector -> A) : M A := fun v h => Ok (f v) v h.
Definition update (f : vector -> vector) : M unit := fun v h => Ok tt (f v) h.
Definition on_heap (f : heap -> heap) : M unit := fun v h => Ok tt v (f h).

(** [while (cond) body], unrolled at most [fuel] times. *)
Fixpoint while_ (fuel : nat) (cond : vector -> bool) (body : M unit) : M unit :=
  match fuel with
  | O => mret tt
  | S fuel' => fun v h =>
      if cond v then (body ;; while_ fuel' cond body) v h else Ok tt v h
  end.

Definition construct (p : Z) (args : ctor_args V) : M unit := fun v h =>
  match traits_construct p (run_ctor args) h with
  | Some h' => Ok tt v h'
  | None => Throw ElemExn v h
  end.

(** ** Helpers of simple/container_algorithm.h *)

(** Modelled from the spec: simple/container_algorithm.h, which defines
    [uninitialized_copy], [uninitialized_move],
    [uninitialized_move_launder] and
    [uninitialized_move_if_noexcept_launder], is not among the sources.  The
    spec (4.3, step 2) has them construct the elements of [first, last) one
    by one into raw storage at [dest] ("move-construct if the element's move
    constructor cannot throw, otherwise copy-construct") and return the end
    of the constructed run; as the standard algorithms of the same names do,
    a throwing construction destroys what the call itself had constructed
    and propagates.  [uninit_loop] answers [inl] with the end of the run, or
    [inr] with the slot whose construction threw. *)
Fixpoint uninit_loop (mode : reloc_mode) (k : nat) (src dst : Z) (h : heap)
  : (heap * Z) + (heap * Z) :=
  match k with
  | O => inl (h, dst)
  | S k' =>
      match h_objs h !! src with
      | None => uninit_loop mode k' (src + 1) (dst + 1) (flag_ub h)
      | Some x =>
          match traits_construct dst (relocate_value mode x) h with
          | Some h' => uninit_loop mode k' (src + 1) (dst + 1) h'
          | None => inr (h, dst)
          end
      end
  end.

(** Modelled from the spec: the shared body of the four algorithms of
    simple/container_algorithm.h named above; on a throw it destroys the
    run [dest, cur) it had constructed, front to back, and rethrows. *)
Definition uninitialized_relocate (mode : reloc_mode) (first last dest : Z) : M Z :=
  fun v h =>
    match uninit_loop mode (Z.to_nat (last - first)) first dest h with
    | inl (h', e) => Ok e v h'
    | inr (h', cur) => Throw ElemExn v (destroy_range (Z.to_nat (cur - dest)) dest h')
    end.

(** Modelled from the spec: [uninitialized_copy] copy-constructs. *)
Definition uninitialized_copy := uninitialized_relocate ByCopy.
(** Modelled from the spec: [uninitialized_move] move-constructs. *)
Definition uninitialized_move := uninitialized_relocate ByMove.
(** Modelled from the spec: [uninitialized_move_launder] move-constructs. *)
Definition uninitialized_move_launder := uninitialized_relocate ByMove.
(** Modelled from the spec: [uninitialized_move_if_noexcept_launder]
    move-constructs when the move constructor cannot throw and
    copy-constructs otherwise. *)
Definition uninitialized_move_if_noexcept_launder :=
  uninitialized_relocate ByMoveIfNoexcept.

(** ** Allocation and deallocation utilities *)

(** [allocate_tmp(capacity, alloc)]: the allocator is asked first; only
    when it throws is the request compared with [max_size()]. *)
Definition allocate_tmp (capacity_ : Z) (alloc : allocator) : M Z := fun v h =>
  match traits_allocate alloc capacity_ h with
  | (Some p, h') => Ok p v h'
  | (None, h') =>
      if capacity_ >? max_size v then Throw LengthError v h' else Throw BadAlloc v h'
  end.

(** [allocate(capacity, alloc)] *)
Definition allocate (capacity_ : Z) (alloc : allocator) : M unit := fun v h =>
  match traits_allocate alloc capacity_ h with
  | (Some p, h') => Ok tt (set_realend (p + capacity_) (set_begin p v)) h'
  | (None, h') =>
      if capacity_ >? max_size v then Throw LengthError v h' else Throw BadAlloc v h'
  end.

(** [pop_back()] *)
Definition pop_back : M unit := fun v h =>
  Ok tt (set_end (m_end v - 1) v) (traits_destroy (m_end v - 1) h).

(** [clear()]: [while (!empty()) pop_back();] — every round lowers
    [size()] by one, so [size()] rounds are enough. *)
Definition clear : M unit := fun v h =>
  while_ (Z.to_nat (size v)) (fun v => negb (empty v)) pop_back v h.

(** [deallocate()] *)
Definition deallocate : M unit :=
  clear ;;
  b ← this m_begin;
  if negb (b =? nullptr) then
    a ← this m_alloc; c ← this capacity;
    on_heap (traits_deallocate a b c)
  else mret tt.

(** ** Constructors *)

(** [vector()]: all three pointers null. *)
Definition vector_default (alloc : allocator) : vector :=
  Vector nullptr nullptr nullptr alloc.

(** [for (auto& elem : make_range(m_begin, m_realend)) construct(&elem, args)];
    [make_range], of simple/container_algorithm.h, is taken as the range of
    the slots from its first argument up to its second. *)
Fixpoint construct_each (k : nat) (p : Z) (args : ctor_args V) : M unit :=
  match k with
  | O => mret tt
  | S k' => construct p args ;; construct_each k' (p + 1) args
  end.

(** [explicit vector(size_t count, const AllocT& alloc)], run on an object
    whose pointer members are still indeterminate.  (The sibling fill and
    initializer-list constructors call [allocate(count)] with one argument;
    this one passes the allocator.) *)
Definition vector_sized (count : Z) : M unit :=
  a ← this m_alloc;
  allocate count a ;;
  b ← this m_begin; r ← this m_realend;
  construct_each (Z.to_nat (r - b)) b NoArgs ;;
  update (set_end r).

(** ** Element access *)

(** [check_range(n)] *)
Definition check_range (n : Z) : M unit :=
  s ← this size;
  if n >=? s then throw OutOfRange else mret tt.

(** [operator[](i)]: the address of slot [i]; a reference is its address. *)
Definition index (i : Z) : M Z := this (fun v => m_begin v + i).

(** The expressions a member function can build from [this] with a
    subscript and a unary [*], and the types the language gives them:
    [this] is a pointer to the container; the built-in subscript and the
    built-in [*] on that pointer yield a container object; a subscript on
    a container object is the member [operator[]] above and yields a
    reference to an element.  The container declares no unary
    [operator*], so [*] applied to a container object has no type; nor,
    for all that the container knows of [ValueT], has a subscript or a
    [*] applied to an element. *)
Inductive cxx_type : Type := TyVectorPtr | TyVector | TyElemRef.

Inductive cxx_expr : Type :=
| EThis
| ESubscript (e : cxx_expr) (i : Z)
| EDeref (e : cxx_expr).

Fixpoint type_of (e : cxx_expr) : option cxx_type :=
  match e with
  | EThis => Some TyVectorPtr
  | ESubscript e' _ =>
      match type_of e' with
      | Some TyVectorPtr => Some TyVector
      | Some TyVector => Some TyElemRef
      | _ => None
      end
  | EDeref e' =>
      match type_of e' with
      | Some TyVectorPtr => Some TyVector
      | _ => None
      end
  end.

(** The slot an element reference designates: [operator[]] applied to the
    object the member function runs on, written [*this] or [this[0]].
    [this[k]] for another [k] is not that object, and reaching into it is
    outside what the language defines for a call on one object. *)
Definition eval_elem (e : cxx_expr) : option (M Z) :=
  match e with
  | ESubscript (EDeref EThis) i => Some (index i)
  | ESubscript (ESubscript EThis k) i =>
      Some (if k =? 0 then index i
            else fun v h => Ok (m_begin v + i) v (flag_ub h))
  | _ => None
  end.

(** A member function of the shape [check_range(n); return e;] with the
    return type [ValueT&]: it has an instantiation only when [e] has the
    type of an element reference. *)
Definition checked_access (n : Z) (e : cxx_expr) : option (M Z) :=
  match type_of e, eval_elem e with
  | Some TyElemRef, Some slot => Some (check_range n ;; slot)
  | _, _ => None
  end.

(** [at(i)]: [check_range(i); return *this[i];].  The subscript is a
    postfix operator and binds before the unary [*]: the operand of [*]
    is [this[i]]. *)
Definition at_return (i : Z) : cxx_expr := EDeref (ESubscript EThis i).
Definition at_ (i : Z) : option (M Z) := checked_access i (at_return i).

Definition front (v : vector) : Z := m_begin v.
Definition back (v : vector) : Z := m_end v - 1.
Definition begin_ (v : vector) : Z := m_begin v.
Definition end_ (v : vector) : Z := m_end v.

(** [std::reverse_iterator<ValueT*>]: it wraps a pointer and designates the
    element before it. *)
Record rev_ptr : Type := RevPtr { base : Z }.
Definition rev_deref (r : rev_ptr) : Z := base r - 1.
Definition rev_advance (r : rev_ptr) (n : Z) : rev_ptr := RevPtr (base r - n).

(** [RevPtrT rbegin() noexcept { return m_begin; }] *)
Definition rbegin (v : vector) : rev_ptr := RevPtr (m_begin v).
(** [RevPtrT rend() noexcept { return m_end; }] *)
Definition rend (v : vector) : rev_ptr := RevPtr (m_end v).

(** ** Size modifiers *)

(** [reserve(new_cap)].  The handler's [AllocTraitsT::deallocate(tmp)] is
    taken with the allocator and the block length it leaves out. *)
Definition reserve (new_cap : Z) : M unit :=
  cap ← this capacity;
  if new_cap >? cap then
    a ← this m_alloc;
    tmp ← allocate_tmp new_cap a;
    try_catch
      (b ← this m_begin; e ← this m_end;
       end' ← uninitialized_move_if_noexcept_launder b e tmp;
       deallocate ;;
       update (set_begin tmp) ;;
       update (set_end end') ;;
       update (set_realend (tmp + new_cap)))
      (fun ex => on_heap (traits_deallocate a tmp new_cap) ;; throw ex)
  else mret tt.

(** [for (; end < tmp + count; ++end) construct(m_alloc, end);] *)
Fixpoint construct_until (fuel : nat) (cur limit : Z) (args : ctor_args V) : M Z :=
  match fuel with
  | O => mret cur
  | S fuel' =>
      if cur <? limit then
        construct cur args ;; construct_until fuel' (cur + 1) limit args
      else mret cur
  end.

(** [push_back] and [emplace_back] come first in this file because [resize]
    calls them. *)

(** [emplace_back(args...)].  The in-place branch has no [return]: control
    goes on into the reallocation below it. *)
Definition emplace_back (args : ctor_args V) : M unit :=
  e ← this m_end; r ← this m_realend;
  (if e <? r then construct e args ;; update (set_end (e + 1)) else mret tt) ;;
  a ← this m_alloc;
  oldsize ← this size;
  s ← this size;
  let newcap := to_size_t (s * 2) in
  tmp ← allocate_tmp newcap a;
  try_catch
    (construct (tmp + oldsize) args ;;
     b ← this m_begin; e ← this m_end;
     uninitialized_move_if_noexcept_launder b e tmp ;;
     mret tt)
    (fun ex => on_heap (traits_deallocate a tmp newcap) ;; throw ex) ;;
  b ← this m_begin; c ← this capacity;
  on_heap (traits_deallocate a b c) ;;
  update (set_begin tmp) ;;
  update (set_end (tmp + oldsize + 1)) ;;
  update (set_realend (tmp + newcap)).

(** [push_back(v)] *)
Definition push_back (x : ctor_args V) : M unit := emplace_back x.

(** Modelled from the spec: [move_if_noexcept_launder(first, last, d_first)]
    of simple/container_algorithm.h, which the spec (4.5) has "move-assign
    the remaining run" of a shift towards the tail.  The elements of
    [first, last) are assigned onto the run starting at [d_first], last one
    first, so that each is read before it is overwritten; the assignments
    are taken not to throw. *)
Fixpoint shift_loop (k : nat) (src dst : Z) (h : heap) : heap :=
  match k with
  | O => h
  | S k' =>
      match h_objs h !! src with
      | Some x => shift_loop k' (src - 1) (dst - 1) (assign_at dst x h)
      | None => shift_loop k' (src - 1) (dst - 1) (flag_ub h)
      end
  end.

(** Modelled from the spec: see [shift_loop]. *)
Definition move_if_noexcept_launder (first last d_first : Z) : M unit :=
  on_heap (shift_loop (Z.to_nat (last - first)) (last - 1)
             (d_first + (last - first) - 1)).

(** Arguments named in a function body are lvalues: passed on without
    [std::forward], a value to move from is copied from. *)
Definition as_lvalue (args : ctor_args V) : ctor_args V :=
  match args with
  | FromRvalue x => FromValue x
  | _ => args
  end.

(** [emplace(pos, args...)]: at the end it hands over to [emplace_back];
    without spare room it reallocates around the new element; otherwise it
    builds the value aside, shifts the tail by one and assigns the value
    into place ([m_end] is left where it was).  In that last branch the
    source assigns through [pos] and returns it although [pos] points to
    a const element, which the language does not allow; the two
    statements are read as a plain assignment and return, and nothing is
    proved of that branch. *)
Definition emplace (pos : Z) (args : ctor_args V) : M Z :=
  e ← this m_end;
  if pos =? e then
    emplace_back (as_lvalue args) ;;
    e' ← this m_end; mret (e' - 1)
  else
    r ← this m_realend;
    if e =? r then
      b ← this m_begin;
      let index := pos - b in
      a ← this m_alloc;
      oldsize ← this size;
      s ← this size;
      let newcap := to_size_t (s * 2) in
      tmp ← allocate_tmp newcap a;
      try_catch
        (construct (tmp + index) args ;;
         uninitialized_move_if_noexcept_launder b pos tmp ;;
         uninitialized_move_if_noexcept_launder pos e (tmp + index + 1) ;;
         mret tt)
        (fun ex => on_heap (traits_deallocate a tmp newcap) ;; throw ex) ;;
      c ← this capacity;
      on_heap (traits_deallocate a b c) ;;
      update (set_begin tmp) ;;
      update (set_end (tmp + oldsize + 1)) ;;
      update (set_realend (tmp + newcap)) ;;
      b' ← this m_begin; mret (b' + index)
    else
      match run_ctor args with
      | None => throw ElemExn
      | Some x =>
          uninitialized_move_if_noexcept_launder (e - 1) e e ;;
          move_if_noexcept_launder pos (e - 1) (pos + 1) ;;
          on_heap (assign_at pos x) ;;
          mret pos
      end.

(** [resize(count)].  The middle branch repeats the loop condition of the
    shrinking branch; its loop is given as many rounds as elements are
    missing, the shrinking loop as many as elements are in excess. *)
Definition resize (count : Z) : M unit :=
  cap ← this capacity; sz ← this size;
  if count >? cap then
    a ← this m_alloc;
    tmp ← allocate_tmp count a;
    try_catch
      (b ← this m_begin; e ← this m_end;
       end' ← uninitialized_move_if_noexcept_launder b e tmp;
       end'' ← construct_until (Z.to_nat (tmp + count - end')) end' (tmp + count) NoArgs;
       deallocate ;;
       update (set_begin tmp) ;;
       update (set_end end'') ;;
       update (set_realend (tmp + count)))
      (fun ex => on_heap (traits_deallocate a tmp count) ;; throw ex)
  else if count >? sz then
    while_ (Z.to_nat (count - sz)) (fun v => size v >? count) (emplace_back NoArgs)
  else
    while_ (Z.to_nat (sz - count)) (fun v => size v >? count) pop_back.

(** ** Move assignment, over a store of container objects

    [operator=(vector&&)] works on two objects that may be one and the same,
    so it runs over a store of objects addressed by name. *)

Definition store : Type := nat -> vector.
Definition store_set (i : nat) (v : vector) (s : store) : store :=
  fun j => if Nat.eqb j i then v else s j.

Inductive outcome2 (A : Type) : Type :=
| Ok2 (a : A) (s : store) (h : heap)
| Throw2 (e : exn) (s : store) (h : heap).
Arguments Ok2 {A} a s h.
Arguments Throw2 {A} e s h.

Definition M2 (A : Type) : Type := store -> heap -> outcome2 A.

#[global] Instance M2_ret : MRet M2 := fun A a s h => Ok2 a s h.
#[global] Instance M2_bind : MBind M2 := fun A B f m s h =>
  match m s h with
  | Ok2 a s' h' => f a s' h'
  | Throw2 e s' h' => Throw2 e s' h'
  end.

Definition throw2 {A : Type} (e : exn) : M2 A := fun s h => Throw2 e s h.
Definition try_catch2 {A : Type} (m : M2 A) (handler : exn -> M2 A) : M2 A :=
  fun s h =>
    match m s h with
    | Ok2 a s' h' => Ok2 a s' h'
    | Throw2 e s' h' => handler e s' h'
    end.

(** Calling a member function on the object named [obj]. *)
Definition call {A : Type} (obj : nat) (m : M A) : M2 A := fun s h =>
  match m (s obj) h with
  | Ok a v' h' => Ok2 a (store_set obj v' s) h'
  | Throw e v' h' => Throw2 e (store_set obj v' s) h'
  end.

(** [m_begin = other.m_begin; m_end = other.m_end; m_realend = other.m_realend;
     other.m_begin = other.m_end = other.m_realend = nullptr;] *)
Definition adopt (self other : nat) : M2 unit :=
  ob ← call other (this m_begin); call self (update (set_begin ob)) ;;
  oe ← call other (this m_end); call self (update (set_end oe)) ;;
  or ← call other (this m_realend); call self (update (set_realend or)) ;;
  call other (update (set_realend nullptr)) ;;
  call other (update (set_end nullptr)) ;;
  call other (update (set_begin nullptr)).

(** [while (other.size() < size()) pop_back();] *)
Fixpoint destroy_excess (fuel : nat) (self other : nat) : M2 unit :=
  match fuel with
  | O => mret tt
  | S fuel' =>
      osz ← call other (this size); sz ← call self (this size);
      if osz <? sz then call self pop_back ;; destroy_excess fuel' self other
      else mret tt
  end.

(** The range-for over the object's own elements that move-assigns the
    element under the cursor [tmp] onto each and steps [tmp]; the cursor is
    returned. *)
Fixpoint move_assign_each (k : nat) (p tmp : Z) : M Z :=
  match k with
  | O => mret tmp
  | S k' => fun v h =>
      match h_objs h !! tmp with
      | Some x => move_assign_each k' (p + 1) (tmp + 1) v (assign_at p x h)
      | None => move_assign_each k' (p + 1) (tmp + 1) v (flag_ub h)
      end
  end.

(** [while (tmp != other.m_end)]: [push_back] of the element under [tmp],
    moved, then [++tmp]. *)
Fixpoint move_construct_rest (k : nat) (tmp : Z) : M unit :=
  match k with
  | O => mret tt
  | S k' => fun v h =>
      match h_objs h !! tmp with
      | Some x => (push_back (FromRvalue x) ;; move_construct_rest k' (tmp + 1)) v h
      | None => move_construct_rest k' (tmp + 1) v (flag_ub h)
      end
  end.

(** [vector& operator=(vector&& other)] *)
Definition move_assign (self other : nat) : M2 unit :=
  if propagate_on_container_move_assignment then
    a ← call self (this m_alloc); oa ← call other (this m_alloc);
    (if negb is_always_equal && alloc_neq a oa
     then call self (update (set_alloc oa)) else mret tt) ;;
    call self deallocate ;;
    adopt self other
  else
    a ← call self (this m_alloc); oa ← call other (this m_alloc);
    if negb is_always_equal && alloc_neq a oa then
      osz ← call other (this size); cap ← call self (this capacity);
      if osz >? cap then
        tmp ← call self (allocate_tmp osz a);
        try_catch2
          (ob ← call other (this m_begin); oe ← call other (this m_end);
           call self (uninitialized_move ob oe tmp) ;;
           call self deallocate ;;
           call self (update (set_begin tmp)) ;;
           osz' ← call other (this size);
           call self (update (set_end (tmp + osz'))) ;;
           call self (update (set_realend (tmp + osz'))))
          (fun ex =>
             a' ← call self (this m_alloc); osz' ← call other (this size);
             call self (on_heap (traits_deallocate a' tmp osz')) ;; throw2 ex)
      else
        sz ← call self (this size);
        destroy_excess (Z.to_nat (sz - osz)) self other ;;
        ob ← call other (this m_begin);
        b ← call self (this m_begin); e ← call self (this m_end);
        tmp ← call self (move_assign_each (Z.to_nat (e - b)) b ob);
        oe ← call other (this m_end);
        call self (move_construct_rest (Z.to_nat (oe - tmp)) tmp)
    else
      call self deallocate ;;
      adopt self other.

(** ** What the loops and the release of storage amount to *)

(** [k] rounds of [pop_back] from [e] downwards. *)
Fixpoint destroy_down (k : nat) (e : Z) (h : heap) : heap :=
  match k with
  | O => h
  | S k' => destroy_down k' (e - 1) (traits_destroy (e - 1) h)
  end.

(** [deallocate()] on the free store: every element destroyed from the
    back, then the block released unless [m_begin] is null. *)
Definition release (v : vector) (h : heap) : heap :=
  let h1 := destroy_down (Z.to_nat (m_end v - m_begin v)) (m_end v) h in
  if negb (m_begin v =? nullptr)
  then traits_deallocate (m_alloc v) (m_begin v) (capacity v) h1
  else h1.

(** The reallocation half of [emplace_back], from [auto oldsize = size();] on. *)
Definition grow (args : ctor_args V) (v : vector) (h : heap) : outcome unit :=
  let oldsize := size v in
  let newcap := to_size_t (size v * 2) in
  match traits_allocate (m_alloc v) newcap h with
  | (Some tmp, h1) =>
      match traits_construct (tmp + oldsize) (run_ctor args) h1 with
      | Some h2 =>
          match uninit_loop ByMoveIfNoexcept (Z.to_nat (m_end v - m_begin v))
                  (m_begin v) tmp h2 with
          | inl (h3, _) =>
              Ok tt (Vector tmp (tmp + oldsize + 1) (tmp + newcap) (m_alloc v))
                 (traits_deallocate (m_alloc v) (m_begin v) (capacity v) h3)
          | inr (h3, cur) =>
              Throw ElemExn v
                (traits_deallocate (m_alloc v) tmp newcap
                   (destroy_range (Z.to_nat (cur - tmp)) tmp h3))
          end
      | None => Throw ElemExn v (traits_deallocate (m_alloc v) tmp newcap h1)
      end
  | (None, h1) =>
      if newcap >? max_size v then Throw LengthError v h1 else Throw BadAlloc v h1
  end.

(** The calls [deallocate()] makes: no construction, no assignment, no
    allocation, and destruction only inside the container's own elements. *)
Definition release_event (v : vector) (ev : event) : Prop :=
  is_construct ev = false /\ is_assign ev = false /\ is_allocate ev = false /\
  forall p, ev = EvDestroy p -> m_begin v <= p < m_end v.

(** The branch test of [operator=(vector&&)] that leads to adopting the
    source's pointers. *)
Definition adopts_pointers (a oa : allocator) : bool :=
  propagate_on_container_move_assignment ||
  negb (negb is_always_equal && alloc_neq a oa).


(** The [EvDestroy] calls of [destroy_down], oldest last. *)
Fixpoint down_events (k : nat) (e : Z) : list event :=
  match k with
  | O => []
  | S k' => down_events k' (e - 1) ++ [EvDestroy (e - 1)]
  end.

(** A call that is not an allocation. *)
Definition quiet (ev : event) : Prop := is_allocate ev = false.

(** ** Reading outcomes *)

Definition out_vec {A : Type} (o : outcome A) : vector :=
  match o with Ok _ v _ => v | Throw _ v _ => v end.
Definition out_heap {A : Type} (o : outcome A) : heap :=
  match o with Ok _ _ h => h | Throw _ _ h => h end.
Definition out_exn {A : Type} (o : outcome A) : option exn :=
  match o with Ok _ _ _ => None | Throw e _ _ => Some e end.

Definition out_store {A : Type} (o : outcome2 A) : store :=
  match o with Ok2 _ s _ => s | Throw2 _ s _ => s end.
Definition out_heap2 {A : Type} (o : outcome2 A) : heap :=
  match o with Ok2 _ _ h => h | Throw2 _ _ h => h end.
Definition out_exn2 {A : Type} (o : outcome2 A) : option exn :=
  match o with Ok2 _ _ _ => None | Throw2 e _ _ => Some e end.

(** A computation over the store that leaves the object named [obj] as it
    found it, whatever the outcome. *)
Definition keeps {A : Type} (obj : nat) (m : M2 A) : Prop :=
  forall s h, out_store (m s h) obj = s obj.

(** The calls logged between [h] and a later [h']. *)
Definition new_events (h h' : heap) : list event :=
  take (length (h_log h') - length (h_log h))%nat (h_log h').

Definition alloc_calls (h : heap) : nat := length (filter (fun e => is_allocate e = true) (h_log h)).

(** ** Well-formed states *)

(** Everything the free store has handed out or holds lies below [h_next],
    and [h_next] is a valid address. *)
Definition heap_ok (h : heap) : Prop :=
  0 < h_next h <= addr_max /\
  (forall b n, h_blocks h !! b = Some n -> 0 < b < h_next h) /\
  (forall p, is_Some (h_objs h !! p) -> p < h_next h).

(** The pointer window of a container: ordered, inside handed-out
    addresses, with a live object in every slot of [m_begin, m_end). *)
Definition vec_ok (h : heap) (v : vector) : Prop :=
  0 <= m_begin v <= m_end v /\ m_end v <= m_realend v <= h_next h /\
  (forall p, m_begin v <= p < m_end v -> is_Some (h_objs h !! p)).

(** The container owns its block: null, or the base of a live block that
    spans exactly [m_begin, m_realend), with raw storage after [m_end]. *)
Definition owns_block (h : heap) (v : vector) : Prop :=
  (m_begin v = nullptr /\ m_end v = nullptr /\ m_realend v = nullptr) \/
  (h_blocks h !! m_begin v = Some (m_realend v - m_begin v) /\
   forall p, m_end v <= p < m_realend v -> h_objs h !! p = None).

(** The data-model invariant of the container (spec, section 3). *)
Definition invariant (v : vector) : Prop :=
  m_begin v <= m_end v <= m_realend v /\
  size v = m_end v - m_begin v /\
  capacity v = m_realend v - m_begin v /\
  (m_begin v = nullptr <-> capacity v = 0).

(** ** The statements under test, as the specification words them *)

(** A throwing growth: the container is as before and the free store holds
    no block and no object it did not hold before. *)
Definition rollback_leaves_nothing (args : ctor_args V) (v : vector) (h : heap) : Prop :=
  forall e v' h',
    emplace_back args v h = Throw e v' h' ->
    v' = v /\ elems h' v' = elems h v /\
    h_blocks h' = h_blocks h /\ h_objs h' = h_objs h.

(** A request beyond [max_size()] fails with [LengthError], the container
    is unchanged, and [allocate] has not been called. *)
Definition length_error_before_allocate {A : Type} (op : M A) (v : vector) (h : heap) : Prop :=
  exists h', op v h = Throw LengthError v h' /\ alloc_calls h' = alloc_calls h.

(** Move assignment: the source ends up empty with no capacity and the
    target holds the source's former elements; with propagation or
    always-equal allocators no element is constructed, destroyed or
    assigned. *)
Definition move_assign_as_specified (self other : nat) (s : store) (h : heap) : Prop :=
  forall s' h',
    move_assign self other s h = Ok2 tt s' h' ->
    size (s' other) = 0 /\ capacity (s' other) = 0 /\
    elems h' (s' self) = elems h (s other) /\
    (propagate_on_container_move_assignment || is_always_equal = true ->
     Forall (fun e => is_construct e = false /\ is_destroy e = false /\
                      is_assign e = false) (new_events h h')).

End Vector.

Arguments Ok {V A} a v h.
Arguments Throw {V A} e v h.
Arguments Ok2 {V A} a s h.
Arguments Throw2 {V A} e s h.

(** ** Concrete collaborators for the worked cases *)

(** [int]: nothing throws. *)
Definition int_elem : Element Z :=
  {| sizeof_elem := 4; default_init := Some 0;
     copy_throws := fun _ => false; move_throws := fun _ => false;
     nothrow_move := true |}.

(** An exception-injecting element: copying a negative value throws, the
    move constructor never throws but is not declared [noexcept]. *)
Definition probe_elem : Element Z :=
  {| sizeof_elem := 8; default_init := Some 0;
     copy_throws := fun x => x <? 0; move_throws := fun _ => false;
     nothrow_move := false |}.

(** [std::allocator]-like traits, and a stateful allocator's with and
    without propagation on move. *)
Definition std_traits : AllocTraits :=
  {| propagate_on_container_copy_assignment := false;
     propagate_on_container_move_assignment := true;
     propagate_on_container_swap := false;
     is_always_equal := true |}.
Definition stateful_traits : AllocTraits :=
  {| propagate_on_container_copy_assignment := false;
     propagate_on_container_move_assignment := false;
     propagate_on_container_swap := false;
     is_always_equal := false |}.

Definition alloc0 : allocator := Allocator 0 (PTRDIFF_MAX / 4) 1024.
Definition alloc1 : allocator := Allocator 1 (PTRDIFF_MAX / 4) 1024.

Definition empty_heap : @heap Z := Heap ∅ ∅ 1 [] false.

(** A full container of probes, [0] then [-5]: sized to one element, then
    a moved-in [-5] that makes it grow to two. *)
Definition probe_full : @outcome Z unit :=
  (vector_sized (H := probe_elem) 1 ;;
   push_back (H := probe_elem) (FromRvalue (-5)))
    (vector_default alloc0) empty_heap.

(** Two [int] containers on one free store: the first with two elements on
    allocator [a], the second with one element on allocator [b]. *)
Definition store2 (a b : vector) : store :=
  fun i => match i with O => a | _ => b end.
Definition first_of_two (a : allocator) : @outcome Z unit :=
  vector_sized (H := int_elem) 2 (vector_default a) empty_heap.
Definition second_of_two (a b : allocator) : @outcome Z unit :=
  vector_sized (H := int_elem) 1 (vector_default b) (out_heap (first_of_two a)).
Definition two_vectors (a b : allocator) : store :=
  store2 (out_vec (first_of_two a)) (out_vec (second_of_two a b)).

(** Three [int]s 10, 20, 30 in a block of three at address 1. *)
Definition three_ints : vector := Vector 1 4 4 alloc0.
Definition three_ints_heap : @heap Z :=
  Heap (<[1 := 3]> ∅) (<[1 := 10]> (<[2 := 20]> (<[3 := 30]> ∅))) 4 [] false.

(** An [int] container with two elements and room for four. *)
Definition spare_capacity : @outcome Z unit :=
  (vector_sized (H := int_elem) 2 ;; reserve (H := int_elem) 4)
    (vector_default alloc0) empty_heap.

(** An [int] container with one element and room for four. *)
Definition shrunk : @outcome Z unit :=
  (vector_sized (H := int_elem) 4 ;; resize (H := int_elem) 1)
    (vector_default alloc0) empty_heap.

(** Two containers side by side on one free store: 10, 20 in a block of
    two at address 1, and 30 in a block of one at address 3. *)
Definition pair_heap : @heap Z :=
  Heap (<[1 := 2]> (<[3 := 1]> ∅)) (<[1 := 10]> (<[2 := 20]> (<[3 := 30]> ∅)))
       4 [] false.
Definition pair_store : store :=
  store2 (Vector 1 3 3 alloc0) (Vector 3 4 4 alloc0).

(** * Further operations of the container *)

(** The three outcomes of a comparison, and [unordered] for element types
    whose [<=>] yields a partial ordering. *)
Inductive ordering : Type := less | equivalent | greater | unordered.

(** What the comparison operators need of [ValueT]: [==], [<], whether it
    is [std::three_way_comparable], and its [<=>] when it is. *)
Class Comparable (V : Type) : Type := {
  elem_eqb : V -> V -> bool;
  elem_ltb : V -> V -> bool;
  three_way_comparable : bool;
  elem_cmp : V -> V -> ordering
}.

(** What copy assignment needs of [ValueT] besides its constructors:
    whether [elem = x], the copy assignment from an object of value [x],
    throws. *)
Class Assignable (V : Type) : Type := {
  copy_assign_throws : V -> bool
}.

Section MoreOperations.
Context {V : Type} `{Element V} `{AllocTraits}.

Local Abbreviation M := (@M V).
Local Abbreviation M2 := (@M2 V).
Local Abbreviation heap := (@heap V).

(** [data()], [get_allocator()] *)
Definition data (v : vector) : Z := m_begin v.
Definition get_allocator (v : vector) : allocator := m_alloc v.

(** [~vector()]: its body is [deallocate();]. *)
Definition destructor : M unit := deallocate.

(** [shrink_to_fit()].  As in [reserve], the handler's
    [AllocTraitsT::deallocate(tmp)] is taken with the allocator and the
    block length it leaves out. *)
Definition shrink_to_fit : M unit :=
  oldsize ← this size; cap ← this capacity;
  if oldsize <? cap then
    a ← this m_alloc;
    tmp ← allocate_tmp oldsize a;
    try_catch
      (b ← this m_begin; e ← this m_end;
       end' ← uninitialized_move_launder b e tmp;
       deallocate ;;
       update (set_begin tmp) ;;
       update (set_end end') ;;
       update (set_realend (tmp + oldsize)))
      (fun ex => on_heap (traits_deallocate a tmp oldsize) ;; throw ex)
  else mret tt.

(** [resize(count, value)].  In the reallocating branch the fill values are
    built first, from [tmp + size()] on; [end] is then overwritten with what
    the relocation returns, and that is what [m_end] becomes. *)
Definition resize_fill (count : Z) (value : V) : M unit :=
  cap ← this capacity; sz ← this size;
  if count >? cap then
    a ← this m_alloc;
    tmp ← allocate_tmp count a;
    try_catch
      (s ← this size;
       construct_until (Z.to_nat (tmp + count - (tmp + s))) (tmp + s) (tmp + count)
         (FromValue value) ;;
       b ← this m_begin; e ← this m_end;
       end' ← uninitialized_move_if_noexcept_launder b e tmp;
       deallocate ;;
       update (set_begin tmp) ;;
       update (set_end end') ;;
       update (set_realend (tmp + count)))
      (fun ex => on_heap (traits_deallocate a tmp count) ;; throw ex)
  else if count >? sz then
    while_ (Z.to_nat (count - sz)) (fun v => size v >? count)
      (emplace_back (FromValue value))
  else
    while_ (Z.to_nat (sz - count)) (fun v => size v >? count) pop_back.

(** [vector(const vector& other)] and [vector(const vector& other, const
    AllocT& alloc)]: one body, run on a new object whose allocator member is
    already initialised and whose pointer members are indeterminate.  The
    source object is another object and is only read. *)
Definition vector_copy (other : vector) : M unit :=
  a ← this m_alloc;
  allocate (size other) a ;;
  b ← this m_begin;
  uninitialized_copy (m_begin other) (m_end other) b ;;
  r ← this m_realend;
  update (set_end r).

(** [vector(vector&& other) noexcept]: the new object and what is left of
    the source.  (The allocator-extended move constructor and the fill
    constructor call [allocate] with one argument, which no overload
    takes; they have no instantiation and are not modelled.) *)
Definition vector_move (other : vector) : vector * vector :=
  (Vector (m_begin other) (m_end other) (m_realend other) (m_alloc other),
   set_begin nullptr (set_end nullptr (set_realend nullptr other))).

(** [std::swap(x, y)] on one pointer member of two objects that may be the
    same object. *)
Definition swap_member (get : vector -> Z) (set : Z -> vector -> vector)
    (self other : nat) : M2 unit :=
  x ← call self (this get); y ← call other (this get);
  call self (update (set y)) ;;
  call other (update (set x)).

(** [swap(vector& other)] *)
Definition swap (self other : nat) : M2 unit :=
  (if propagate_on_container_swap then
     a ← call self (this m_alloc); oa ← call other (this m_alloc);
     call self (update (set_alloc oa)) ;;
     call other (update (set_alloc a))
   else mret tt) ;;
  swap_member m_begin set_begin self other ;;
  swap_member m_end set_end self other ;;
  swap_member m_realend set_realend self other.

Section CopyAssignment.
Context `{HA : Assignable V}.

(** The range-for of copy assignment: each of the object's own elements is
    copy-assigned the element under the cursor [tmp], which steps along and
    is returned.  An assignment that throws ends the loop: the exception
    leaves the function, the call is in the log, and what the element
    under assignment then holds is the element type's business (it is
    left as it was here, and nothing is stated of it). *)
Fixpoint copy_assign_each (k : nat) (p tmp : Z) : M Z :=
  match k with
  | O => mret tmp
  | S k' => fun v h =>
      match h_objs h !! tmp with
      | Some x =>
          if copy_assign_throws x
          then Throw ElemExn v (log_event (EvAssign p) h)
          else copy_assign_each k' (p + 1) (tmp + 1) v (assign_at p x h)
      | None => copy_assign_each k' (p + 1) (tmp + 1) v (flag_ub h)
      end
  end.

(** [while (tmp != other.m_end)]: [push_back] of a copy of the element
    under [tmp], then [++tmp]. *)
Fixpoint copy_construct_rest (k : nat) (tmp : Z) : M unit :=
  match k with
  | O => mret tt
  | S k' => fun v h =>
      match h_objs h !! tmp with
      | Some x => (push_back (FromValue x) ;; copy_construct_rest k' (tmp + 1)) v h
      | None => copy_construct_rest k' (tmp + 1) v (flag_ub h)
      end
  end.

(** [allocate_empty], which the propagating branch of copy assignment
    calls, is declared nowhere in the sources: it is a parameter here. *)
Variable allocate_empty : Z -> M unit.

(** [vector& operator=(const vector& other)] *)
Definition copy_assign (self other : nat) : M2 unit :=
  if Nat.eqb self other then mret tt
  else
    (if propagate_on_container_copy_assignment then
       a ← call self (this m_alloc); oa ← call other (this m_alloc);
       (if negb is_always_equal && alloc_neq a oa
        then call self deallocate else mret tt) ;;
       osz ← call other (this size);
       call self (allocate_empty osz) ;;
       oa' ← call other (this m_alloc);
       call self (update (set_alloc oa'))
     else mret tt) ;;
    osz ← call other (this size); cap ← call self (this capacity);
    if osz >? cap then
      a ← call self (this m_alloc);
      tmp ← call self (allocate_tmp osz a);
      try_catch2
        (ob ← call other (this m_begin); oe ← call other (this m_end);
         call self (uninitialized_copy ob oe tmp) ;;
         mret tt)
        (fun ex =>
           a' ← call self (this m_alloc); osz' ← call other (this size);
           call self (on_heap (traits_deallocate a' tmp osz')) ;; throw2 ex) ;;
      a' ← call self (this m_alloc);
      b ← call self (this m_begin); c ← call self (this capacity);
      call self (on_heap (traits_deallocate a' b c)) ;;
      call self (update (set_begin tmp)) ;;
      osz' ← call other (this size);
      call self (update (set_realend (tmp + osz'))) ;;
      call self (update (set_end (tmp + osz')))
    else
      sz ← call self (this size);
      destroy_excess (Z.to_nat (sz - osz)) self other ;;
      ob ← call other (this m_begin);
      b ← call self (this m_begin); e ← call self (this m_end);
      tmp ← call self (copy_assign_each (Z.to_nat (e - b)) b ob);
      oe ← call other (this m_end);
      call self (copy_construct_rest (Z.to_nat (oe - tmp)) tmp).

End CopyAssignment.

(** ** Comparison operators *)

Section Comparison.
Context `{Comparable V}.

(** The loop of [std::equal] over two ranges of one length. *)
Fixpoint equal_loop (k : nat) (p q : Z) (h : heap) : bool :=
  match k with
  | O => true
  | S k' =>
      match h_objs h !! p, h_objs h !! q with
      | Some x, Some y =>
          if elem_eqb x y then equal_loop k' (p + 1) (q + 1) h else false
      | _, _ => false
      end
  end.

(** [std::equal(first1, last1, first2, last2)] on pointers: ranges of
    different lengths are unequal without a single comparison. *)
Definition std_equal (first1 last1 first2 last2 : Z) (h : heap) : bool :=
  if (last1 - first1) =? (last2 - first2)
  then equal_loop (Z.to_nat (last1 - first1)) first1 first2 h
  else false.

(** [operator==(const vector& other)] *)
Definition operator_eq (v other : vector) (h : heap) : bool :=
  std_equal (begin_ v) (end_ v) (begin_ other) (end_ other) h.

(** [std::lexicographical_compare_three_way(b1, e1, b2, e2, comp)]: the
    first pair that [comp] does not find equivalent decides; otherwise the
    range that ends first is the lesser. *)
Fixpoint lexicographical_compare_three_way (fuel : nat)
    (comp : V -> V -> ordering) (b1 e1 b2 e2 : Z) (h : heap) : ordering :=
  if (b1 =? e1) || (b2 =? e2) then
    if negb (b1 =? e1) then greater
    else if negb (b2 =? e2) then less else equivalent
  else
    match fuel with
    | O => equivalent
    | S fuel' =>
        match h_objs h !! b1, h_objs h !! b2 with
        | Some x, Some y =>
            match comp x y with
            | equivalent =>
                lexicographical_compare_three_way fuel' comp
                  (b1 + 1) e1 (b2 + 1) e2 h
            | c => c
            end
        | _, _ => unordered
        end
    end.

(** The ordering synthesised from [<] alone. *)
Definition synth_three_way (a b : V) : ordering :=
  if elem_ltb a b then less
  else if elem_ltb b a then greater
  else equivalent.

(** [operator<=>(const vector& other)] *)
Definition operator_cmp (v other : vector) (h : heap) : ordering :=
  lexicographical_compare_three_way (Z.to_nat (m_end v - m_begin v))
    (if three_way_comparable then elem_cmp else synth_three_way)
    (m_begin v) (m_end v) (m_begin other) (m_end other) h.

End Comparison.

End MoreOperations.

(** [int] comparisons. *)
Definition int_cmp : Comparable Z :=
  {| elem_eqb := Z.eqb; elem_ltb := Z.ltb; three_way_comparable := true;
     elem_cmp := fun a b =>
       match Z.compare a b with Lt => less | Eq => equivalent | Gt => greater end |}.

(** An [int]-like element type whose default constructor throws. *)
Definition no_default_elem : Element Z :=
  {| sizeof_elem := 4; default_init := None;
     copy_throws := fun _ => false; move_throws := fun _ => false;
     nothrow_move := true |}.

(** Two [int]s 10, 20 in a block of three at address 1: one spare slot. *)
Definition roomy : vector := Vector 1 3 4 alloc0.
Definition roomy_heap : @heap Z :=
  Heap (<[1 := 3]> ∅) (<[1 := 10]> (<[2 := 20]> ∅)) 4 [] false.

(** A stand-in for [allocate_empty] where copy assignment does not reach
    it. *)
Definition allocate_empty_unused : Z -> @M Z unit := fun _ v h => Ok tt v h.

(** [int]: assignment never throws. *)
Definition int_assign : Assignable Z := {| copy_assign_throws := fun _ => false |}.

(** An element type whose copy assignment throws on negative values. *)
Definition picky_assign : Assignable Z := {| copy_assign_throws := fun x => x <? 0 |}.

(** Two containers side by side, the second holding a negative value: 10,
    20 in a block of two at address 1, and -5 in a block of one at
    address 3. *)
Definition negative_heap : @heap Z :=
  Heap (<[1 := 2]> (<[3 := 1]> ∅)) (<[1 := 10]> (<[2 := 20]> (<[3 := -5]> ∅)))
       4 [] false.

(** Two [int] containers on unequal allocators: 5 with room for three on
    allocator 0 (a block of three at address 1), and 10, 20, 30 on
    allocator 1 (a block of three at address 4). *)
Definition uneven_heap : @heap Z :=
  Heap (<[1 := 3]> (<[4 := 3]> ∅))
       (<[1 := 5]> (<[4 := 10]> (<[5 := 20]> (<[6 := 30]> ∅)))) 7 [] false.
Definition uneven_store : store :=
  store2 (Vector 1 2 4 alloc0) (Vector 4 7 7 alloc1).

(** A stateful allocator's traits with propagation on move. *)
Definition propagating_traits : AllocTraits :=
  {| propagate_on_container_copy_assignment := false;
     propagate_on_container_move_assignment := true;
     propagate_on_container_swap := false;
     is_always_equal := false |}.

(** * Proofs *)

Section Proofs.
Context {V : Type} `{Element V} `{AllocTraits}.


Lemma to_size_t_small z : 0 <= z < size_t_modulus -> to_size_t z = z.
Proof. intros. unfold to_size_t. apply Z.mod_small. lia. Qed.

Lemma to_size_t_range z : 0 <= to_size_t z < size_t_modulus.
Proof. unfold to_size_t. apply Z.mod_pos_bound. reflexivity. Qed.

Lemma addr_max_lt : addr_max < size_t_modulus.
Proof. reflexivity. Qed.

Lemma size_ok (h : @heap V) v : heap_ok h -> vec_ok h v -> size v = m_end v - m_begin v.
Proof.
  intros (Hn & _) (Hb & He & _). unfold size. apply to_size_t_small.
  pose proof addr_max_lt. lia.
Qed.

Lemma capacity_ok (h : @heap V) v : heap_ok h -> vec_ok h v -> capacity v = m_realend v - m_begin v.
Proof.
  intros (Hn & _) (Hb & He & _). unfold capacity. apply to_size_t_small.
  pose proof addr_max_lt. lia.
Qed.

(** [check_range(n)] throws [OutOfRange] exactly when [n >= size()], and
    leaves the container and the free store as they were either way. *)
Lemma check_range_spec (v : vector) (h : @heap V) (n : Z) :
  (check_range n v h = Throw OutOfRange v h <-> n >= size v) /\
  (check_range n v h = Ok tt v h <-> n < size v).
Proof.
  unfold check_range, this, throw, mbind, M_bind, mret, M_ret.
  destruct (Z.geb_spec n (size v)) as [Hge | Hlt];
    (split; split; first [done | lia | discriminate]).
Qed.

(** What [at] would be with parentheses around [*this]: the expression
    then has the type of an element reference, and the function throws
    [OutOfRange] exactly when [i >= size()] and otherwise returns the
    address of slot [i], whose content is the [i]-th element, leaving
    everything as it was. *)
Lemma parenthesised_access_checks_range (v : vector) (h : @heap V) (i : Z) :
  0 <= i < size_t_modulus ->
  exists m,
    checked_access i (ESubscript (EDeref EThis) i) = Some m /\
    (m v h = Throw OutOfRange v h <-> i >= size v) /\
    (i < size v ->
     m v h = Ok (m_begin v + i) v h /\
     elems h v !! Z.to_nat i = Some (h_objs h !! (m_begin v + i))).
Proof.
  intros Hi. eexists. split; [reflexivity|].
  unfold check_range, index, this, throw, mbind, M_bind, mret, M_ret.
  destruct (Z.geb_spec i (size v)) as [Hge | Hlt].
  - split; [split; [lia | reflexivity] | lia].
  - split; [split; [discriminate | lia] |].
    intros _. split; [reflexivity |].
    unfold elems. rewrite list_lookup_fmap.
    rewrite lookup_seqZ_lt by lia. simpl. do 3 f_equal. lia.
Qed.


Ltac munfold :=
  unfold mbind, M_bind, mret, M_ret, this, update, on_heap, throw, try_catch in *.

Lemma reserve_eq n v (h : @heap V) :
  reserve n v h =
  if n >? capacity v then
    match traits_allocate (m_alloc v) n h with
    | (Some tmp, h1) =>
        match uninit_loop ByMoveIfNoexcept (Z.to_nat (m_end v - m_begin v)) (m_begin v) tmp h1 with
        | inl (h2, e) =>
            match deallocate v h2 with
            | Ok _ v3 h3 => Ok tt (set_realend (tmp + n) (set_end e (set_begin tmp v3))) h3
            | Throw ex v3 h3 => Throw ex v3 (traits_deallocate (m_alloc v) tmp n h3)
            end
        | inr (h2, cur) =>
            Throw ElemExn v
              (traits_deallocate (m_alloc v) tmp n
                 (destroy_range (Z.to_nat (cur - tmp)) tmp h2))
        end
    | (None, h1) => if n >? max_size v then Throw LengthError v h1 else Throw BadAlloc v h1
    end
  else Ok tt v h.
Proof.
  unfold reserve, allocate_tmp, uninitialized_move_if_noexcept_launder,
    uninitialized_relocate. munfold.
  destruct (n >? capacity v); [|reflexivity].
  destruct (traits_allocate (m_alloc v) n h) as [[tmp|] h1].
  - destruct (uninit_loop _ _ _ _ _) as [[h2 e]|[h2 cur]]; [|reflexivity].
    destruct (deallocate v h2); reflexivity.
  - destruct (n >? max_size v); reflexivity.
Qed.


Lemma destroy_down_frame k e (h : @heap V) :
  h_blocks (destroy_down k e h) = h_blocks h /\
  h_next (destroy_down k e h) = h_next h.
Proof.
  revert e h. induction k as [|k IH]; intros e h; simpl; [done|].
  destruct (IH (e - 1) (traits_destroy (e - 1) h)) as [-> ->]. done.
Qed.

Lemma destroy_down_objs k e (h : @heap V) p :
  h_objs (destroy_down k e h) !! p =
  if decide (e - Z.of_nat k <= p < e) then None else h_objs h !! p.
Proof.
  revert e h. induction k as [|k IH]; intros e h; simpl destroy_down.
  - case_decide; [lia | done].
  - rewrite IH. simpl. rewrite lookup_delete.
    repeat case_decide; try done; lia.
Qed.

Lemma destroy_range_frame k p0 (h : @heap V) :
  h_blocks (destroy_range k p0 h) = h_blocks h /\
  h_next (destroy_range k p0 h) = h_next h.
Proof.
  revert p0 h. induction k as [|k IH]; intros p0 h; simpl; [done|].
  destruct (IH (p0 + 1) (traits_destroy p0 h)) as [-> ->]. done.
Qed.

Lemma destroy_range_objs k p0 (h : @heap V) p :
  h_objs (destroy_range k p0 h) !! p =
  if decide (p0 <= p < p0 + Z.of_nat k) then None else h_objs h !! p.
Proof.
  revert p0 h. induction k as [|k IH]; intros p0 h; simpl destroy_range.
  - case_decide; [lia | done].
  - rewrite IH. simpl. rewrite lookup_delete.
    repeat case_decide; try done; lia.
Qed.

Lemma vector_eta v : Vector (m_begin v) (m_end v) (m_realend v) (m_alloc v) = v.
Proof. by destruct v. Qed.

Lemma pop_loop k : forall v (h : @heap V),
  0 <= m_end v - m_begin v < size_t_modulus ->
  Z.to_nat (m_end v - m_begin v) = k ->
  while_ k (fun v => negb (empty v)) pop_back v h =
  Ok tt (set_end (m_begin v) v) (destroy_down k (m_end v) h).
Proof.
  induction k as [|k IH]; intros v h Hr Hk; simpl.
  - unfold mret, M_ret. destruct v as [b e r a]; unfold set_end; simpl in *.
    replace b with e by lia. done.
  - unfold empty, size. rewrite to_size_t_small by done.
    destruct (Z.eqb_spec (m_end v - m_begin v) 0) as [?|Hne]; [lia|]. simpl.
    unfold mbind, M_bind, pop_back at 1.
    rewrite IH; simpl; [done | lia | lia].
Qed.

Lemma clear_spec v (h : @heap V) :
  0 <= m_end v - m_begin v < size_t_modulus ->
  clear v h =
  Ok tt (set_end (m_begin v) v)
     (destroy_down (Z.to_nat (m_end v - m_begin v)) (m_end v) h).
Proof.
  intros Hr. unfold clear, size. rewrite to_size_t_small by done.
  by apply pop_loop.
Qed.

Lemma deallocate_spec v (h : @heap V) :
  0 <= m_end v - m_begin v < size_t_modulus ->
  deallocate v h = Ok tt (set_end (m_begin v) v) (release v h).
Proof.
  intros Hr. unfold deallocate, release.
  unfold mbind at 1. unfold M_bind at 1. rewrite clear_spec by done.
  munfold. simpl. destruct (negb (m_begin v =? nullptr)); reflexivity.
Qed.

Lemma traits_deallocate_frame a p n (h : @heap V) :
  h_objs (traits_deallocate a p n h) = h_objs h /\
  h_next (traits_deallocate a p n h) = h_next h.
Proof.
  unfold traits_deallocate. destruct (h_blocks h !! p); simpl; [done|].
  destruct (p =? nullptr); done.
Qed.

Lemma release_objs v (h : @heap V) p :
  h_objs (release v h) !! p =
  if decide (m_begin v <= p < m_end v) then None else h_objs h !! p.
Proof.
  unfold release.
  assert (Hd : forall h1 : @heap V, h_objs (if negb (m_begin v =? nullptr)
            then traits_deallocate (m_alloc v) (m_begin v) (capacity v) h1 else h1)
            = h_objs h1).
  { intros h1. destruct (negb _); [apply traits_deallocate_frame | done]. }
  rewrite Hd, destroy_down_objs.
  repeat case_decide; try done; lia.
Qed.

Lemma release_next v (h : @heap V) : h_next (release v h) = h_next h.
Proof.
  unfold release. destruct (negb _).
  - destruct (traits_deallocate_frame (m_alloc v) (m_begin v) (capacity v)
      (destroy_down (Z.to_nat (m_end v - m_begin v)) (m_end v) h)) as [_ ->].
    apply destroy_down_frame.
  - apply destroy_down_frame.
Qed.

Lemma traits_allocate_Some a n (h : @heap V) p h1 :
  traits_allocate a n h = (Some p, h1) ->
  p = h_next h /\ h_objs h1 = h_objs h /\ h_next h1 = h_next h + Z.max n 1 /\
  h_blocks h1 = <[h_next h := n]> (h_blocks h) /\
  h_log h1 = EvAllocate (a_id a) n :: h_log h /\ h_ub h1 = h_ub h /\
  n <= a_limit a /\ h_next h + Z.max n 1 <= addr_max.
Proof.
  unfold traits_allocate.
  destruct (Z.leb_spec n (a_limit a)); simpl; [|discriminate].
  destruct (Z.leb_spec (h_next h + Z.max n 1) addr_max); [|discriminate].
  intros [= <- <-]. simpl. repeat split; done.
Qed.

Lemma traits_allocate_None a n (h : @heap V) h1 :
  traits_allocate a n h = (None, h1) ->
  h1 = log_event (EvAllocate (a_id a) n) h.
Proof.
  unfold traits_allocate. destruct (_ && _); [discriminate|]. by intros [= <-].
Qed.


Lemma relocate_value_Some mode (x y : V) : relocate_value mode x = Some y -> y = x.
Proof.
  unfold relocate_value.
  destruct mode, nothrow_move, (copy_throws x), (move_throws x); congruence.
Qed.

Lemma uninit_loop_spec mode k : forall src dst (h : @heap V),
  (forall i, 0 <= i < Z.of_nat k -> is_Some (h_objs h !! (src + i))) ->
  (src + Z.of_nat k <= dst \/ dst + Z.of_nat k <= src) ->
  match uninit_loop mode k src dst h with
  | inl (h', e) =>
      e = dst + Z.of_nat k /\ h_blocks h' = h_blocks h /\ h_next h' = h_next h /\
      forall p, h_objs h' !! p =
        if decide (dst <= p < dst + Z.of_nat k)
        then h_objs h !! (src + (p - dst)) else h_objs h !! p
  | inr (h', cur) =>
      dst <= cur < dst + Z.of_nat k /\
      h_blocks h' = h_blocks h /\ h_next h' = h_next h /\
      (exists x, h_objs h !! (src + (cur - dst)) = Some x /\
                 relocate_value mode x = None) /\
      forall p, h_objs h' !! p =
        if decide (dst <= p < cur)
        then h_objs h !! (src + (p - dst)) else h_objs h !! p
  end.
Proof.
  induction k as [|k IH]; intros src dst h Hlive Hdis.
  - simpl. split_and!; try done; [lia|]. intros p. case_decide; [lia | done].
  - cbn [uninit_loop].
    destruct (Hlive 0 ltac:(lia)) as [x Hx]. rewrite Z.add_0_r in Hx. rewrite Hx.
    destruct (relocate_value mode x) as [y|] eqn:Hy; cbn [traits_construct].
    + apply relocate_value_Some in Hy as ->.
      set (h1 := Heap _ _ _ _ _).
      assert (Hh1 : forall q, h_objs h1 !! q =
                if decide (dst = q) then Some x else h_objs h !! q).
      { intros q. subst h1. simpl. apply lookup_insert. }
      specialize (IH (src + 1) (dst + 1) h1).
      destruct (uninit_loop mode k (src + 1) (dst + 1) h1) as [[h' e]|[h' cur]].
      * destruct IH as (-> & Hb & Hn & Ho).
        { intros i Hi. rewrite Hh1. case_decide; [lia|].
          replace (src + 1 + i) with (src + (1 + i)) by lia. apply Hlive. lia. }
        { lia. }
        split_and!; [lia | done | done |].
        intros p. rewrite Ho, !Hh1.
        repeat case_decide; try lia; try done.
        -- f_equal. lia.
        -- subst p. by rewrite Z.sub_diag, Z.add_0_r.
      * destruct IH as (Hc & Hb & Hn & (x' & Hx' & Hr) & Ho).
        { intros i Hi. rewrite Hh1. case_decide; [lia|].
          replace (src + 1 + i) with (src + (1 + i)) by lia. apply Hlive. lia. }
        { lia. }
        split_and!; [lia | lia | done | done | |].
        -- exists x'. split; [|done]. rewrite Hh1 in Hx'.
           case_decide; [lia|]. rewrite <- Hx'. f_equal. lia.
        -- intros p. rewrite Ho, !Hh1.
           repeat case_decide; try lia; try done.
           ++ f_equal. lia.
           ++ subst p. by rewrite Z.sub_diag, Z.add_0_r.
    + split_and!; [lia | lia | done | done | |].
      * exists x. by rewrite Z.sub_diag, Z.add_0_r.
      * intros p. case_decide; [lia | done].
Qed.

Lemma elems_eq (h h' : @heap V) v v' :
  size v' = size v ->
  (forall i, 0 <= i < size v ->
     h_objs h' !! (m_begin v' + i) = h_objs h !! (m_begin v + i)) ->
  elems h' v' = elems h v.
Proof.
  intros Hs Hp. unfold elems. rewrite Hs. apply list_fmap_ext.
  intros i x [-> ?]%lookup_seqZ. apply Hp. lia.
Qed.

Lemma elem_of_elems (h : @heap V) v p x :
  0 <= m_end v - m_begin v < size_t_modulus ->
  m_begin v <= p < m_end v -> h_objs h !! p = Some x -> Some x ∈ elems h v.
Proof.
  intros Hr Hp Hx. unfold elems, size. rewrite to_size_t_small by done.
  apply list_elem_of_fmap. exists (p - m_begin v). split.
  - rewrite <- Hx. f_equal. lia.
  - apply elem_of_seqZ. lia.
Qed.



Lemma emplace_back_eq args v (h : @heap V) :
  emplace_back args v h =
  if m_end v <? m_realend v then
    match traits_construct (m_end v) (run_ctor args) h with
    | Some h0 => grow args (set_end (m_end v + 1) v) h0
    | None => Throw ElemExn v h
    end
  else grow args v h.
Proof.
  assert (Hg : forall v0 (h0 : @heap V),
    (a ← this m_alloc;
     oldsize ← this size;
     s ← this size;
     let newcap := to_size_t (s * 2) in
     tmp ← allocate_tmp newcap a;
     try_catch
       (construct (tmp + oldsize) args ;;
        b ← this m_begin; e ← this m_end;
        uninitialized_move_if_noexcept_launder b e tmp ;;
        mret tt)
       (fun ex => on_heap (traits_deallocate a tmp newcap) ;; throw ex) ;;
     b ← this m_begin; c ← this capacity;
     on_heap (traits_deallocate a b c) ;;
     update (set_begin tmp) ;;
     update (set_end (tmp + oldsize + 1)) ;;
     update (set_realend (tmp + newcap))) v0 h0 = grow args v0 h0).
  { intros v0 h0. unfold grow, allocate_tmp, construct,
      uninitialized_move_if_noexcept_launder, uninitialized_relocate. munfold.
    destruct (traits_allocate _ _ _) as [[tmp|] h1]; [|by destruct (_ >? _)].
    destruct (traits_construct _ _ _) as [h2|]; [|done].
    destruct (uninit_loop _ _ _ _ _) as [[h3 e]|[h3 cur]]; done. }
  unfold emplace_back.
  unfold mbind at 1 2 3. unfold M_bind at 1 2 3. unfold this at 1 2. cbv beta iota.
  unfold mbind at 1. unfold M_bind at 1.
  destruct (m_end v <? m_realend v).
  - unfold mbind at 1. unfold M_bind at 1. unfold construct at 1.
    destruct (traits_construct _ _ _) as [h0|]; [|done].
    unfold update at 1. apply Hg.
  - unfold mret at 1. unfold M_ret at 1. apply Hg.
Qed.


Lemma traits_deallocate_fresh a n (h h1 : @heap V) :
  h_blocks h1 = <[h_next h := n]> (h_blocks h) ->
  (forall b m, h_blocks h !! b = Some m -> 0 < b < h_next h) ->
  h_blocks (traits_deallocate a (h_next h) n h1) = h_blocks h.
Proof.
  intros Hb Hlt. unfold traits_deallocate. rewrite Hb, lookup_insert_eq. simpl.
  rewrite Hb. apply delete_insert_id.
  destruct (h_blocks h !! h_next h) as [m|] eqn:E; [|done].
  apply Hlt in E. lia.
Qed.

Lemma full_no_spare (h : @heap V) v :
  heap_ok h -> vec_ok h v -> size v = capacity v -> (m_end v <? m_realend v) = false.
Proof.
  intros Hh Hv Hfull. rewrite (size_ok _ _ Hh Hv), (capacity_ok _ _ Hh Hv) in Hfull.
  apply Z.ltb_ge. lia.
Qed.

(** X23: when [emplace_back] on a full well-formed container (size equal
    to capacity) throws, the exception reaches the caller with the
    container's pointers, size, capacity and element values as before and
    the new block deallocated, every element the relocation had put there
    destroyed.  The free store holds the objects it held before, except
    possibly the new element itself.  When it is the new element's own
    constructor that throws, the call throws and nothing at all is left
    behind. *)
Lemma growth_rollback (args : ctor_args V) (v : vector) (h : @heap V) :
  heap_ok h -> vec_ok h v -> size v = capacity v ->
  (forall e v' h', emplace_back args v h = Throw e v' h' ->
     v' = v /\ elems h' v' = elems h v /\ h_blocks h' = h_blocks h /\
     (h_objs h' = h_objs h \/
      exists x, run_ctor args = Some x /\
                h_objs h' = <[h_next h + size v := x]> (h_objs h))) /\
  (run_ctor args = None ->
   exists e h', emplace_back args v h = Throw e v h' /\
                h_objs h' = h_objs h /\ h_blocks h' = h_blocks h).
Proof.
  intros Hh Hv Hfull. rewrite emplace_back_eq, (full_no_spare _ _ Hh Hv Hfull).
  pose proof (size_ok _ _ Hh Hv) as Hsz.
  destruct Hh as ((Hn0 & Hn1) & Hblk & Hobj).
  destruct Hv as ((Hb0 & Hbe) & (Her & Hrn) & Hlive).
  pose proof addr_max_lt as Hmax.
  unfold grow.
  destruct (traits_allocate (m_alloc v) (to_size_t (size v * 2)) h)
    as [[tmp|] h1] eqn:Ha.
  2:{ apply traits_allocate_None in Ha as ->. split.
      - intros e v' h' Hthrow.
        assert (v' = v /\ h' = log_event (EvAllocate (a_id (m_alloc v))
                                 (to_size_t (size v * 2))) h) as [-> ->].
        { destruct (_ >? _); by injection Hthrow as _ <- <-. }
        split_and!; try done. by left.
      - intros _. destruct (_ >? _); eauto. }
  apply traits_allocate_Some in Ha as (-> & Ho1 & Hn1' & Hb1 & _ & _ & Hlim & Hroom).
  destruct (run_ctor args) as [x|] eqn:Hctor; cbn [traits_construct].
  2:{ assert (Hfr := traits_deallocate_fresh (m_alloc v) (to_size_t (size v * 2))
                       h h1 Hb1 Hblk).
      destruct (traits_deallocate_frame (m_alloc v) (h_next h)
                  (to_size_t (size v * 2)) h1) as [Hfo _].
      split.
      - intros e v' h' [= _ <- <-]. split_and!; try done.
        + apply elems_eq; [done|]. intros i _. by rewrite Hfo, Ho1.
        + left. by rewrite Hfo.
      - intros _. eexists _, _. split; [done|]. split; [by rewrite Hfo | done]. }
  split; [|discriminate].
  set (h2 := Heap _ _ _ _ _).
  assert (Ho2 : forall q, h_objs h2 !! q =
            if decide (h_next h + size v = q) then Some x else h_objs h !! q).
  { intros q. subst h2. simpl. rewrite Ho1. apply lookup_insert. }
  pose proof (uninit_loop_spec ByMoveIfNoexcept (Z.to_nat (m_end v - m_begin v))
                (m_begin v) (h_next h) h2) as Hloop.
  rewrite Z2Nat.id in Hloop by lia.
  destruct (uninit_loop _ _ _ _ _) as [[h3 e3]|[h3 cur]]; [discriminate|].
  destruct Hloop as (Hc & Hb3 & Hn3 & _ & Ho3).
  { intros i Hi. rewrite Ho2. case_decide; [lia|]. apply Hlive. lia. }
  { lia. }
  intros e v' h' [= _ <- <-].
  set (h4 := destroy_range _ _ h3).
  destruct (traits_deallocate_frame (m_alloc v) (h_next h)
              (to_size_t (size v * 2)) h4) as [Hfo _].
  assert (Ho4 : h_objs h4 = <[h_next h + size v := x]> (h_objs h)).
  { apply map_eq. intros p. subst h4. rewrite destroy_range_objs, Ho3.
    rewrite Z2Nat.id by lia. rewrite lookup_insert.
    replace (h_next h + (cur - h_next h)) with cur by lia.
    repeat case_decide; try lia.
    - symmetry. destruct (h_objs h !! p) eqn:E; [|done].
      assert (p < h_next h) by (apply Hobj; eauto). lia.
    - rewrite Ho2. case_decide; [done | lia].
    - rewrite Ho2. case_decide; [lia | done]. }
  split_and!; try done.
  - apply elems_eq; [done|]. intros i Hi. rewrite Hfo, Ho4.
    rewrite lookup_insert_ne; [done | lia].
  - assert (Hb4 : h_blocks h4 = <[h_next h := to_size_t (size v * 2)]> (h_blocks h)).
    { subst h4. destruct (destroy_range_frame (Z.to_nat (cur - h_next h))
        (h_next h) h3) as [-> _]. rewrite Hb3. subst h2. simpl. done. }
    apply (traits_deallocate_fresh _ _ h h4 Hb4 Hblk).
  - right. exists x. split; [done|]. by rewrite Hfo.
Qed.


Ltac munfold2 :=
  unfold mbind, M2_bind, mret, M2_ret, call, throw2, try_catch2, this, update,
         on_heap in *.

Lemma store_set_same i v (s : store) : store_set i v s i = v.
Proof. unfold store_set. by rewrite Nat.eqb_refl. Qed.

Lemma store_set_other i j v (s : store) : i <> j -> store_set i v s j = s j.
Proof.
  intros Hne. unfold store_set.
  destruct (Nat.eqb_spec j i); [congruence | done].
Qed.

Ltac store_simpl :=
  repeat first [rewrite store_set_same | rewrite store_set_other by congruence].

Lemma adopt_spec (self other : nat) (s : store) (h : @heap V) :
  self <> other ->
  exists s', adopt self other s h = Ok2 tt s' h /\
    s' self = Vector (m_begin (s other)) (m_end (s other)) (m_realend (s other))
                     (m_alloc (s self)) /\
    s' other = Vector nullptr nullptr nullptr (m_alloc (s other)).
Proof.
  intros Hne. unfold adopt. munfold2. eexists. split; [reflexivity|].
  rewrite !store_set_same.
  repeat first [rewrite store_set_same | rewrite store_set_other by congruence].
  simpl. split.
  - repeat first [rewrite store_set_same | rewrite store_set_other by congruence]. done.
  - repeat first [rewrite store_set_same | rewrite store_set_other by congruence]. done.
Qed.


Lemma destroy_down_log k e (h : @heap V) :
  exists l, h_log (destroy_down k e h) = l ++ h_log h /\
    Forall (fun ev => exists p, ev = EvDestroy p /\ e - Z.of_nat k <= p < e) l.
Proof.
  revert e h. induction k as [|k IH]; intros e h; simpl destroy_down.
  - exists []. split; [done | constructor].
  - destruct (IH (e - 1) (traits_destroy (e - 1) h)) as (l & Hl & Hf).
    exists (l ++ [EvDestroy (e - 1)]). split.
    + rewrite Hl. simpl. by rewrite <- app_assoc.
    + apply Forall_app. split.
      * eapply Forall_impl; [exact Hf|]. intros ev (p & -> & Hp).
        exists p. split; [done | lia].
      * constructor; [|constructor]. exists (e - 1). split; [done | lia].
Qed.

Lemma release_log v (h : @heap V) :
  0 <= m_end v - m_begin v ->
  exists l, h_log (release v h) = l ++ h_log h /\ Forall (release_event v) l.
Proof.
  intros Hr. unfold release.
  destruct (destroy_down_log (Z.to_nat (m_end v - m_begin v)) (m_end v) h)
    as (l & Hl & Hf).
  assert (Hf' : Forall (release_event v) l).
  { eapply Forall_impl; [exact Hf|]. intros ev (p & -> & Hp).
    split_and!; try done. intros q [= <-]. lia. }
  destruct (negb (m_begin v =? nullptr)); [|eauto].
  exists (EvDeallocate (a_id (m_alloc v)) (m_begin v) (capacity v) :: l). split.
  - unfold traits_deallocate.
    destruct (h_blocks _ !! _); simpl; [by rewrite Hl|].
    destruct (m_begin v =? nullptr); simpl; by rewrite Hl.
  - constructor; [|done]. split_and!; try done.
Qed.

Lemma new_events_app (h h' : @heap V) l :
  h_log h' = l ++ h_log h -> new_events h h' = l.
Proof.
  intros Hl. unfold new_events. rewrite Hl, length_app.
  replace (length l + length (h_log h) - length (h_log h))%nat with (length l) by lia.
  apply take_app_length.
Qed.


Lemma alloc_calls_log a n (h : @heap V) :
  alloc_calls (log_event (EvAllocate a n) h) = S (alloc_calls h).
Proof.
  unfold alloc_calls, log_event. cbn [h_log]. by rewrite filter_cons_True.
Qed.

Lemma while_pop_returns k c : forall v (h : @heap V),
  exists v' h', while_ k c pop_back v h = Ok tt v' h'.
Proof.
  induction k as [|k IH]; intros v h; simpl; [by eexists _, _|].
  destruct (c v); [|by eexists _, _].
  unfold mbind, M_bind, pop_back at 1. apply IH.
Qed.

Lemma deallocate_returns v (h : @heap V) :
  exists v' h', deallocate v h = Ok tt v' h'.
Proof.
  unfold deallocate, clear. unfold mbind at 1. unfold M_bind at 1.
  destruct (while_pop_returns (Z.to_nat (size v)) (fun v => negb (empty v)) v h)
    as (v' & h' & ->).
  munfold. destruct (negb _); by eexists _, _.
Qed.

(** C8, amended: the allocator is asked first.  When the requested capacity
    exceeds [max_size()] and the allocator's [allocate] throws, [reserve],
    [resize], a growing [emplace_back] on a container without spare room and
    the sized constructor fail with [LengthError], the container unchanged
    and the free store changed only by the logged [allocate] call.  And
    whenever [reserve] fails with [LengthError], the request exceeded
    [max_size()] and [allocate] has been called once more than before. *)
Theorem length_error_follows_allocator_throw
    (args : ctor_args V) (v : vector) (h : @heap V) (n : Z) :
  (n > max_size v ->
   fst (traits_allocate (m_alloc v) n h) = None ->
   let h' := log_event (EvAllocate (a_id (m_alloc v)) n) h in
   alloc_calls h' = S (alloc_calls h) /\
   (n > capacity v -> reserve n v h = Throw LengthError v h') /\
   (n > capacity v -> resize n v h = Throw LengthError v h') /\
   (m_realend v <= m_end v -> to_size_t (size v * 2) = n ->
    emplace_back args v h = Throw LengthError v h') /\
   vector_sized n v h = Throw LengthError v h') /\
  (forall v' h', reserve n v h = Throw LengthError v' h' ->
     n > max_size v /\ alloc_calls h' = S (alloc_calls h)).
Proof.
  assert (Hgtb : forall m, (n >? m) = true <-> n > m).
  { intros m. rewrite Z.gtb_lt. lia. }
  split.
  - intros Hbig Hfail h'.
    destruct (traits_allocate (m_alloc v) n h) as [[tmp|] h1] eqn:Ha;
      [discriminate|]. clear Hfail.
    apply traits_allocate_None in Ha as Hh1. subst h1. fold h' in Ha.
    apply Hgtb in Hbig as Hgt.
    split_and!.
    + apply alloc_calls_log.
    + intros Hcap%Hgtb. by rewrite reserve_eq, Ha, Hgt, Hcap.
    + intros Hcap%Hgtb. unfold resize, allocate_tmp. munfold.
      rewrite Hcap. cbv beta iota. by rewrite Ha, Hgt.
    + intros Hfull Hn. rewrite emplace_back_eq.
      destruct (Z.ltb_spec (m_end v) (m_realend v)); [lia|].
      unfold grow. cbv zeta. by rewrite Hn, Ha, Hgt.
    + unfold vector_sized, allocate. munfold. by rewrite Ha, Hgt.
  - intros v' h'. rewrite reserve_eq.
    destruct (n >? capacity v); [|discriminate].
    destruct (traits_allocate (m_alloc v) n h) as [[tmp|] h1] eqn:Ha.
    + destruct (uninit_loop _ _ _ _ _) as [[h2 e]|[h2 cur]]; [|discriminate].
      destruct (deallocate_returns v h2) as (v3 & h3 & ->). discriminate.
    + apply traits_allocate_None in Ha as ->.
      destruct (n >? max_size v) eqn:Hgt; [|discriminate].
      intros [= _ <-]. split; [by apply Hgtb | apply alloc_calls_log].
Qed.

Lemma size_range v : 0 <= size v < size_t_modulus.
Proof. apply to_size_t_range. Qed.

Lemma elems_lookup (h : @heap V) v (i : nat) :
  elems h v !! i =
  if decide (Z.of_nat i < size v) then Some (h_objs h !! (m_begin v + Z.of_nat i))
  else None.
Proof.
  unfold elems. rewrite list_lookup_fmap. case_decide.
  - rewrite lookup_seqZ_lt by done. simpl. do 3 f_equal.
  - rewrite lookup_seqZ_ge by lia. done.
Qed.

Lemma elems_length (h : @heap V) v : length (elems h v) = Z.to_nat (size v).
Proof. unfold elems. by rewrite length_fmap, length_seqZ. Qed.

Lemma alloc_calls_app (h h' : @heap V) l :
  h_log h' = l ++ h_log h -> Forall quiet l -> alloc_calls h' = alloc_calls h.
Proof.
  intros Hl Hq. unfold alloc_calls. rewrite Hl, filter_app, length_app.
  assert (Hnil : filter (fun e => is_allocate e = true) l = []).
  { clear Hl. induction Hq as [|ev l Hev _ IH]; [done|].
    rewrite filter_cons_False by (unfold quiet in Hev; congruence). exact IH. }
  by rewrite Hnil.
Qed.

Lemma uninit_loop_log mode k : forall src dst (h : @heap V),
  exists l, Forall quiet l /\
    match uninit_loop mode k src dst h with
    | inl (h', _) => h_log h' = l ++ h_log h
    | inr (h', _) => h_log h' = l ++ h_log h
    end.
Proof.
  induction k as [|k IH]; intros src dst h; cbn [uninit_loop].
  - exists []. split; [constructor | done].
  - destruct (h_objs h !! src) as [x|].
    + destruct (relocate_value mode x) as [y|]; cbn [traits_construct].
      * set (h1 := Heap _ _ _ _ _).
        destruct (IH (src + 1) (dst + 1) h1) as (l & Hq & Hl).
        exists (l ++ [EvConstruct dst]). split.
        { apply Forall_app. split; [done|]. by repeat constructor. }
        destruct (uninit_loop mode k (src + 1) (dst + 1) h1) as [[h' e]|[h' c]];
          rewrite Hl; subst h1; simpl; by rewrite <- app_assoc.
      * exists []. split; [constructor | done].
    + destruct (IH (src + 1) (dst + 1) (flag_ub h)) as (l & Hq & Hl).
      exists l. split; [done|].
      destruct (uninit_loop mode k (src + 1) (dst + 1) (flag_ub h)) as [[h' e]|[h' c]];
        exact Hl.
Qed.

Lemma traits_deallocate_log a p n (h : @heap V) :
  h_log (traits_deallocate a p n h) = EvDeallocate (a_id a) p n :: h_log h.
Proof.
  unfold traits_deallocate. destruct (h_blocks h !! p); [done|].
  by destruct (p =? nullptr).
Qed.

(** What the reallocation half of [emplace_back] does when it returns. *)
Lemma grow_returns (args : ctor_args V) (v v' : vector) (h h' : @heap V) :
  0 < h_next h <= addr_max ->
  0 <= m_begin v <= m_end v -> m_end v <= h_next h ->
  (forall p, m_begin v <= p < m_end v -> is_Some (h_objs h !! p)) ->
  grow args v h = Ok tt v' h' ->
  size v' = size v + 1 /\ capacity v' = 2 * size v /\
  m_begin v' = h_next h /\
  elems h' v' = elems h v ++ [run_ctor args] /\
  alloc_calls h' = S (alloc_calls h).
Proof.
  intros (Hn0 & Hn1) (Hb0 & Hbe) Hen Hlive. pose proof addr_max_lt as Hmax.
  assert (Hsz : size v = m_end v - m_begin v).
  { unfold size. apply to_size_t_small. lia. }
  assert (Hcap2 : to_size_t (size v * 2) = 2 * size v).
  { rewrite to_size_t_small; [lia|].
    unfold size_t_modulus, addr_max, PTRDIFF_MAX in *. lia. }
  unfold grow. cbv zeta. rewrite Hcap2.
  destruct (traits_allocate (m_alloc v) (2 * size v) h) as [[tmp|] h1] eqn:Ha.
  2:{ destruct (_ >? _); discriminate. }
  apply traits_allocate_Some in Ha as (-> & Ho1 & Hn1' & Hb1 & Hl1 & _ & Hlim & Hroom).
  destruct (run_ctor args) as [x|] eqn:Hctor; cbn [traits_construct]; [|discriminate].
  set (h2 := Heap _ _ _ _ _).
  assert (Ho2 : forall q, h_objs h2 !! q =
            if decide (h_next h + size v = q) then Some x else h_objs h !! q).
  { intros q. subst h2. simpl. rewrite Ho1. apply lookup_insert. }
  pose proof (uninit_loop_spec ByMoveIfNoexcept (Z.to_nat (m_end v - m_begin v))
                (m_begin v) (h_next h) h2) as Hloop.
  destruct (uninit_loop_log ByMoveIfNoexcept (Z.to_nat (m_end v - m_begin v))
                (m_begin v) (h_next h) h2) as (l & Hq & Hlog).
  rewrite Z2Nat.id in Hloop by lia.
  destruct (uninit_loop _ _ _ _ _) as [[h3 e3]|[h3 cur]]; [|discriminate].
  destruct Hloop as (-> & Hb3 & Hn3 & Ho3).
  { intros i Hi. rewrite Ho2. case_decide; [lia|]. apply Hlive. lia. }
  { lia. }
  intros [= <- <-].
  destruct (traits_deallocate_frame (m_alloc v) (m_begin v) (capacity v) h3)
    as [Hfo _].
  assert (Hsz' : size (Vector (h_next h) (h_next h + size v + 1)
                         (h_next h + 2 * size v) (m_alloc v)) = size v + 1).
  { unfold size at 1. simpl. rewrite <- (to_size_t_small (size v + 1)) by lia.
    f_equal. lia. }
  split_and!.
  - exact Hsz'.
  - unfold capacity. simpl.
    rewrite <- (to_size_t_small (2 * size v)) at 2
      by (unfold size_t_modulus, addr_max, PTRDIFF_MAX in *; lia).
    f_equal. lia.
  - done.
  - apply list_eq. intros i. rewrite elems_lookup, Hsz', lookup_app, elems_lookup.
    rewrite elems_length. simpl. rewrite Hfo, Ho3, Ho2, Ho2.
    pose proof (size_range v).
    repeat case_decide; try lia.
    + do 2 f_equal. lia.
    + replace (i - Z.to_nat (size v))%nat with 0%nat by lia. done.
    + rewrite lookup_ge_None_2; [done | simpl; lia].
  - rewrite <- (alloc_calls_log (a_id (m_alloc v)) (2 * size v) h).
    apply (alloc_calls_app _ _
             (EvDeallocate (a_id (m_alloc v)) (m_begin v) (capacity v) ::
              l ++ [EvConstruct (h_next h + size v)])).
    + rewrite traits_deallocate_log, Hlog. subst h2. simpl. rewrite Hl1.
      by rewrite <- app_assoc.
    + constructor; [done|]. apply Forall_app. split; [done|]. by repeat constructor.
Qed.


(** X24: [emplace_back] on a full well-formed container, when it returns,
    has doubled the capacity, raised the size by one and appended the new
    element after the former ones. *)
Lemma growth_doubles (args : ctor_args V) (v v' : vector) (h h' : @heap V) :
  heap_ok h -> vec_ok h v -> size v = capacity v ->
  emplace_back args v h = Ok tt v' h' ->
  capacity v' = 2 * capacity v /\ size v' = size v + 1 /\
  elems h' v' = elems h v ++ [run_ctor args].
Proof.
  intros Hh Hv Hfull. rewrite emplace_back_eq, (full_no_spare _ _ Hh Hv Hfull).
  destruct Hh as (Hn & _ & _). destruct Hv as (Hb & (Her & Hrn) & Hlive).
  intros Hg. apply grow_returns in Hg as (Hs & Hc & _ & He & _); try done; [|lia].
  rewrite <- Hfull. done.
Qed.

(** X25: [emplace_back] of no argument or of an lvalue on a well-formed
    container with spare capacity, when it returns, has built the element
    in place and then run on into the reallocation: the size has grown by
    two with the new element twice at the end, the capacity is twice the
    size reached after the in-place construction, the storage is a new
    block and one more allocator call was made.  (With an rvalue the same
    argument is forwarded to both constructions, the second time after it
    was moved from; nothing is stated of that case.) *)
Lemma spare_capacity_falls_through (args : ctor_args V) (v v' : vector) (h h' : @heap V) :
  (forall x, args <> FromRvalue x) ->
  heap_ok h -> vec_ok h v -> size v < capacity v ->
  emplace_back args v h = Ok tt v' h' ->
  size v' = size v + 2 /\ capacity v' = 2 * (size v + 1) /\
  m_begin v' = h_next h /\
  elems h' v' = elems h v ++ [run_ctor args; run_ctor args] /\
  alloc_calls h' = S (alloc_calls h).
Proof.
  intros _ Hh Hv Hspare. rewrite emplace_back_eq.
  rewrite (size_ok _ _ Hh Hv), (capacity_ok _ _ Hh Hv) in Hspare.
  pose proof (size_ok _ _ Hh Hv) as Hsz.
  destruct Hh as ((Hn0 & Hn1) & _ & _). destruct Hv as ((Hb0 & Hbe) & (Her & Hrn) & Hlive).
  pose proof addr_max_lt as Hmax.
  destruct (Z.ltb_spec (m_end v) (m_realend v)); [|lia].
  destruct (run_ctor args) as [x|] eqn:Hctor; cbn [traits_construct]; [|discriminate].
  set (h0 := Heap _ _ _ _ _). set (v0 := set_end (m_end v + 1) v).
  assert (Ho0 : forall q, h_objs h0 !! q =
            if decide (m_end v = q) then Some x else h_objs h !! q).
  { intros q. subst h0. simpl. apply lookup_insert. }
  assert (Hsz0 : size v0 = size v + 1).
  { rewrite Hsz. unfold size, v0. simpl. rewrite to_size_t_small by lia. lia. }
  assert (Hel0 : elems h0 v0 = elems h v ++ [Some x]).
  { apply list_eq. intros i. rewrite elems_lookup, Hsz0, lookup_app, elems_lookup.
    rewrite elems_length. unfold v0. simpl. rewrite Ho0.
    pose proof (size_range v).
    repeat case_decide; try lia; try done.
    - replace (i - Z.to_nat (size v))%nat with 0%nat by lia. done.
    - rewrite lookup_ge_None_2; [done | simpl; lia]. }
  intros Hg. apply grow_returns in Hg as (Hs & Hc & Hb & He & Ha).
  - rewrite Hs, Hc, Hsz0, He, Hel0, Ha. split_and!; try done; try lia.
    by rewrite Hctor, <- app_assoc.
  - done.
  - unfold v0. simpl. lia.
  - unfold v0. simpl. subst h0. simpl. lia.
  - intros p Hp. unfold v0 in Hp. simpl in Hp. rewrite Ho0.
    case_decide; [done|]. apply Hlive. lia.
Qed.


(** The middle branch of [resize] on every container: nothing happens. *)
Lemma resize_between_size_and_capacity (v : vector) (h : @heap V) (count : Z) :
  size v < count <= capacity v -> resize count v h = Ok tt v h.
Proof.
  intros [Hlo Hhi]. unfold resize. munfold.
  destruct (Z.gtb_spec count (capacity v)); [lia|].
  destruct (Z.gtb_spec count (size v)); [|lia].
  destruct (Z.to_nat (count - size v)); simpl; [done|].
  destruct (Z.gtb_spec (size v) count); [lia | done].
Qed.

Lemma pop_until count k : forall v (h : @heap V),
  0 <= count -> m_begin v + count <= m_end v ->
  m_end v - m_begin v < size_t_modulus ->
  Z.to_nat (m_end v - (m_begin v + count)) = k ->
  while_ k (fun v => size v >? count) pop_back v h =
  Ok tt (set_end (m_begin v + count) v) (destroy_down k (m_end v) h).
Proof.
  induction k as [|k IH]; intros v h Hc Hle Hr Hk; simpl.
  - unfold mret, M_ret. destruct v as [b e r a]; unfold set_end; simpl in *.
    replace (b + count) with e by lia. done.
  - unfold size. rewrite to_size_t_small by lia.
    destruct (Z.gtb_spec (m_end v - m_begin v) count); [|lia].
    unfold mbind, M_bind, pop_back at 1.
    rewrite IH; simpl; [done | lia | lia | lia | lia].
Qed.

Lemma destroy_down_events k e (h : @heap V) :
  h_log (destroy_down k e h) = down_events k e ++ h_log h.
Proof.
  revert e h. induction k as [|k IH]; intros e h; simpl; [done|].
  rewrite IH. simpl. by rewrite <- app_assoc.
Qed.

Lemma down_events_length k e : length (down_events k e) = k.
Proof.
  revert e. induction k as [|k IH]; intros e; simpl; [done|].
  rewrite length_app, IH. simpl. lia.
Qed.

Lemma down_events_destroy k e :
  Forall (fun ev => exists p, ev = EvDestroy p /\ e - Z.of_nat k <= p < e)
         (down_events k e).
Proof.
  revert e. induction k as [|k IH]; intros e; simpl; [constructor|].
  apply Forall_app. split.
  - eapply Forall_impl; [apply IH|]. intros ev (p & -> & Hp).
    exists p. split; [done | lia].
  - repeat constructor. exists (e - 1). split; [done | lia].
Qed.

(** X26: [resize(count)] with [count <= size()] always returns: exactly
    [size() - count] elements are destroyed, all from the back, the first
    [count] stay as they are, and capacity and [m_begin] are unchanged. *)
Lemma resize_shrinks (v : vector) (h : @heap V) (count : Z) :
  heap_ok h -> vec_ok h v -> 0 <= count <= size v ->
  exists v' h',
    resize count v h = Ok tt v' h' /\
    size v' = count /\ capacity v' = capacity v /\ m_begin v' = m_begin v /\
    elems h' v' = take (Z.to_nat count) (elems h v) /\
    length (new_events h h') = Z.to_nat (size v - count) /\
    Forall (fun ev => exists p, ev = EvDestroy p /\
                                m_begin v + count <= p < m_end v)
           (new_events h h').
Proof.
  intros Hh Hv Hc. pose proof (size_ok _ _ Hh Hv) as Hsz.
  pose proof (capacity_ok _ _ Hh Hv) as Hcap.
  destruct Hh as ((Hn0 & Hn1) & _ & _).
  destruct Hv as ((Hb0 & Hbe) & (Her & Hrn) & Hlive).
  pose proof addr_max_lt as Hmax.
  exists (set_end (m_begin v + count) v),
         (destroy_down (Z.to_nat (size v - count)) (m_end v) h).
  assert (Hs' : size (set_end (m_begin v + count) v) = count).
  { unfold size. simpl. rewrite to_size_t_small by lia. lia. }
  split_and!.
  - unfold resize. munfold.
    destruct (Z.gtb_spec count (capacity v)); [lia|].
    destruct (Z.gtb_spec count (size v)); [lia|].
    apply pop_until; lia.
  - exact Hs'.
  - done.
  - done.
  - apply list_eq. intros i.
    rewrite lookup_take, !elems_lookup, Hs'. simpl.
    rewrite destroy_down_objs.
    repeat case_decide; try lia; done.
  - rewrite (new_events_app _ _ _ (destroy_down_events _ _ _)).
    apply down_events_length.
  - rewrite (new_events_app _ _ _ (destroy_down_events _ _ _)).
    eapply Forall_impl; [apply down_events_destroy|].
    intros ev (p & -> & Hp). exists p. split; [done | lia].
Qed.


Lemma construct_until_spec fuel : forall cur limit v (h : @heap V),
  Z.to_nat (limit - cur) = fuel ->
  match construct_until fuel cur limit NoArgs v h with
  | Ok e v' h' =>
      e = Z.max cur limit /\ v' = v /\
      (cur < limit -> exists d, default_init = Some d) /\
      (forall p, h_objs h' !! p =
         if decide (cur <= p < limit) then default_init else h_objs h !! p) /\
      exists l, h_log h' = l ++ h_log h /\ Forall quiet l
  | Throw _ _ _ => cur < limit /\ default_init = None
  end.
Proof.
  induction fuel as [|fuel IH]; intros cur limit v h Hf; simpl.
  - unfold mret, M_ret. split_and!; [lia | done | lia | |].
    + intros p. case_decide; [lia | done].
    + exists []. split; [done | constructor].
  - destruct (Z.ltb_spec cur limit); [|lia].
    unfold mbind, M_bind, construct at 1. cbn [run_ctor].
    destruct default_init as [d|] eqn:Hd; cbn [traits_construct]; [|done].
    set (h1 := Heap _ _ _ _ _).
    specialize (IH (cur + 1) limit v h1 ltac:(lia)).
    destruct (construct_until fuel (cur + 1) limit NoArgs v h1) as [e v' h'|? ? ?].
    + destruct IH as (-> & -> & _ & Ho & (l & Hl & Hq)).
      split_and!; [lia | done | eauto | |].
      * intros p. rewrite Ho. subst h1. simpl. rewrite lookup_insert.
        repeat case_decide; try lia; done.
      * exists (l ++ [EvConstruct cur]). split.
        -- rewrite Hl. subst h1. simpl. by rewrite <- app_assoc.
        -- apply Forall_app. split; [done|]. by repeat constructor.
    + destruct IH as (_ & IH). congruence.
Qed.

Lemma resize_eq count v (h : @heap V) :
  count > capacity v ->
  resize count v h =
  match traits_allocate (m_alloc v) count h with
  | (Some tmp, h1) =>
      match uninit_loop ByMoveIfNoexcept (Z.to_nat (m_end v - m_begin v))
              (m_begin v) tmp h1 with
      | inl (h2, e) =>
          match construct_until (Z.to_nat (tmp + count - e)) e (tmp + count)
                  NoArgs v h2 with
          | Ok e' v2 h3 =>
              match deallocate v2 h3 with
              | Ok _ v3 h4 =>
                  Ok tt (set_realend (tmp + count) (set_end e' (set_begin tmp v3))) h4
              | Throw ex v3 h4 =>
                  Throw ex v3 (traits_deallocate (m_alloc v) tmp count h4)
              end
          | Throw ex v2 h3 =>
              Throw ex v2 (traits_deallocate (m_alloc v) tmp count h3)
          end
      | inr (h2, cur) =>
          Throw ElemExn v
            (traits_deallocate (m_alloc v) tmp count
               (destroy_range (Z.to_nat (cur - tmp)) tmp h2))
      end
  | (None, h1) =>
      if count >? max_size v then Throw LengthError v h1 else Throw BadAlloc v h1
  end.
Proof.
  intros Hgt. unfold resize, allocate_tmp, uninitialized_move_if_noexcept_launder,
    uninitialized_relocate. munfold.
  destruct (Z.gtb_spec count (capacity v)); [|lia].
  destruct (traits_allocate (m_alloc v) count h) as [[tmp|] h1];
    [|by destruct (_ >? _)].
  destruct (uninit_loop _ _ _ _ _) as [[h2 e]|[h2 cur]]; [|done].
  destruct (construct_until _ _ _ _ _ _) as [e' v2 h3|ex v2 h3]; [|done].
  destruct (deallocate v2 h3); done.
Qed.

(** X27: the reallocating branch of [resize(count)], taken when
    [count > capacity()]: when it returns, capacity and size are [count],
    the old elements keep their values, the new trailing ones are
    value-initialised, and exactly one more allocator call was made. *)
Lemma resize_reallocates (v v' : vector) (h h' : @heap V) (count : Z) :
  heap_ok h -> vec_ok h v -> count > capacity v ->
  resize count v h = Ok tt v' h' ->
  capacity v' = count /\ size v' = count /\
  elems h' v' =
    elems h v ++ replicate (Z.to_nat (count - size v)) default_init /\
  alloc_calls h' = S (alloc_calls h).
Proof.
  intros Hh Hv Hgt. pose proof (size_ok _ _ Hh Hv) as Hsz.
  pose proof (capacity_ok _ _ Hh Hv) as Hcap.
  destruct Hh as ((Hn0 & Hn1) & Hblk & Hobj).
  destruct Hv as ((Hb0 & Hbe) & (Her & Hrn) & Hlive).
  pose proof addr_max_lt as Hmax.
  rewrite resize_eq by done.
  destruct (traits_allocate (m_alloc v) count h) as [[tmp|] h1] eqn:Ha.
  2:{ destruct (_ >? _); discriminate. }
  apply traits_allocate_Some in Ha as (-> & Ho1 & Hn1' & Hb1 & Hl1 & _ & Hlim & Hroom).
  pose proof (uninit_loop_spec ByMoveIfNoexcept (Z.to_nat (m_end v - m_begin v))
                (m_begin v) (h_next h) h1) as Hloop.
  destruct (uninit_loop_log ByMoveIfNoexcept (Z.to_nat (m_end v - m_begin v))
                (m_begin v) (h_next h) h1) as (l2 & Hq2 & Hlog2).
  rewrite Z2Nat.id in Hloop by lia.
  destruct (uninit_loop _ _ _ _ _) as [[h2 e]|[h2 cur]]; [|discriminate].
  destruct Hloop as (-> & Hb2 & Hn2 & Ho2).
  { intros i Hi. rewrite Ho1. apply Hlive. lia. }
  { lia. }
  pose proof (construct_until_spec
                (Z.to_nat (h_next h + count - (h_next h + (m_end v - m_begin v))))
                (h_next h + (m_end v - m_begin v)) (h_next h + count) v h2 eq_refl)
    as Hfill.
  destruct (construct_until _ _ _ _ _ _) as [e' v2 h3|ex v2 h3]; [|discriminate].
  destruct Hfill as (-> & -> & Hdef & Ho3 & (l3 & Hlog3 & Hq3)).
  rewrite deallocate_spec by lia.
  intros [= <- <-].
  rewrite Z.max_r by lia.
  assert (Hs' : size (set_realend (h_next h + count)
                  (set_end (h_next h + count)
                     (set_begin (h_next h) (set_end (m_begin v) v)))) = count).
  { unfold size. simpl. rewrite <- (to_size_t_small count) at 2 by lia.
    f_equal. lia. }
  split_and!.
  - unfold capacity. simpl. rewrite <- (to_size_t_small count) at 2 by lia.
    f_equal. lia.
  - exact Hs'.
  - apply list_eq. intros i.
    rewrite elems_lookup, Hs', lookup_app, elems_lookup, elems_length. simpl.
    rewrite release_objs, Ho3, Ho2, Ho1.
    repeat case_decide; try lia;
      first [ do 2 f_equal; lia
            | rewrite lookup_replicate_2 by lia; done
            | symmetry; apply lookup_replicate_None; lia ].
  - rewrite <- (alloc_calls_log (a_id (m_alloc v)) count h).
    destruct (release_log v h3) as (l4 & Hlog4 & Hq4); [lia|].
    apply (alloc_calls_app _ _ (l4 ++ l3 ++ l2)).
    + rewrite Hlog4, Hlog3, Hlog2, Hl1. by rewrite <- !app_assoc.
    + rewrite !Forall_app. split_and!; try done.
      eapply Forall_impl; [exact Hq4|]. by intros ev (_ & _ & ? & _).
Qed.


Lemma in_live_block_true (h : @heap V) b n p :
  h_blocks h !! b = Some n -> b <= p < b + n -> in_live_block h p = true.
Proof.
  intros Hb Hp. unfold in_live_block. apply bool_decide_eq_true.
  apply map_Exists_lookup. eauto.
Qed.

Lemma uninit_loop_ub mode k b n : forall src dst (h : @heap V),
  h_blocks h !! b = Some n -> b <= dst -> dst + Z.of_nat k <= b + n ->
  (forall i, 0 <= i < Z.of_nat k -> is_Some (h_objs h !! (src + i))) ->
  (src + Z.of_nat k <= dst \/ dst + Z.of_nat k <= src) ->
  match uninit_loop mode k src dst h with
  | inl (h', _) => h_ub h' = h_ub h
  | inr (h', _) => h_ub h' = h_ub h
  end.
Proof.
  induction k as [|k IH]; intros src dst h Hb Hlo Hhi Hlive Hdis; cbn [uninit_loop].
  - done.
  - destruct (Hlive 0 ltac:(lia)) as [x Hx]. rewrite Z.add_0_r in Hx. rewrite Hx.
    destruct (relocate_value mode x) as [y|]; cbn [traits_construct]; [|done].
    set (h1 := Heap _ _ _ _ _).
    assert (Hub1 : h_ub h1 = h_ub h).
    { subst h1. simpl. rewrite (in_live_block_true h b n dst Hb) by lia.
      apply orb_false_r. }
    specialize (IH (src + 1) (dst + 1) h1).
    destruct (uninit_loop mode k (src + 1) (dst + 1) h1) as [[h' e]|[h' c]];
      rewrite <- Hub1; apply IH; try done; try lia;
      intros i Hi; subst h1; simpl; rewrite lookup_insert;
      (case_decide; [lia|]);
      replace (src + 1 + i) with (src + (1 + i)) by lia; apply Hlive; lia.
Qed.

Lemma destroy_down_ub k e (h : @heap V) :
  (forall p, e - Z.of_nat k <= p < e -> is_Some (h_objs h !! p)) ->
  h_ub (destroy_down k e h) = h_ub h.
Proof.
  revert e h. induction k as [|k IH]; intros e h Hlive; simpl destroy_down; [done|].
  rewrite IH.
  - simpl. rewrite bool_decide_eq_true_2 by (apply Hlive; lia). apply orb_false_r.
  - intros p Hp. simpl. rewrite lookup_delete_ne by lia. apply Hlive. lia.
Qed.

Lemma release_ub v (h : @heap V) :
  0 <= m_end v - m_begin v ->
  (forall p, m_begin v <= p < m_end v -> is_Some (h_objs h !! p)) ->
  m_begin v = nullptr \/ h_blocks h !! m_begin v = Some (capacity v) ->
  h_ub (release v h) = h_ub h.
Proof.
  intros Hr Hlive Hown. unfold release.
  assert (Hd : h_ub (destroy_down (Z.to_nat (m_end v - m_begin v)) (m_end v) h)
               = h_ub h).
  { apply destroy_down_ub. intros p Hp. apply Hlive. lia. }
  destruct (Z.eqb_spec (m_begin v) nullptr) as [Hnull|Hnn]; simpl; [done|].
  destruct Hown as [?|Hown]; [done|].
  unfold traits_deallocate.
  destruct (destroy_down_frame (Z.to_nat (m_end v - m_begin v)) (m_end v) h)
    as [-> _].
  rewrite Hown. simpl. rewrite Hd, Z.eqb_refl. apply orb_false_r.
Qed.

(** X28: [reserve] on a well-formed container that owns its block stays
    within defined behaviour and hands back a well-formed state that owns
    its block. *)
Lemma reserve_stays_defined (v v' : vector) (h h' : @heap V) (n : Z) :
  heap_ok h -> vec_ok h v -> owns_block h v ->
  reserve n v h = Ok tt v' h' ->
  h_ub h' = h_ub h /\ heap_ok h' /\ vec_ok h' v' /\ owns_block h' v'.
Proof.
  intros Hh Hv Hown. pose proof (size_ok _ _ Hh Hv) as Hsz.
  pose proof (capacity_ok _ _ Hh Hv) as Hcap.
  assert (Hh0 := Hh). assert (Hv0 := Hv).
  destruct Hh as ((Hn0 & Hn1) & Hblk & Hobj).
  destruct Hv as ((Hb0 & Hbe) & (Her & Hrn) & Hlive).
  pose proof addr_max_lt as Hmax.
  rewrite reserve_eq.
  destruct (Z.gtb_spec n (capacity v)) as [Hgt|Hle].
  2:{ intros [= <- <-]. done. }
  destruct (traits_allocate (m_alloc v) n h) as [[tmp|] h1] eqn:Ha.
  2:{ destruct (_ >? _); discriminate. }
  apply traits_allocate_Some in Ha as (-> & Ho1 & Hn1' & Hb1 & Hl1 & Hub1 & Hlim & Hroom).
  assert (Hsrc : forall i, 0 <= i < Z.of_nat (Z.to_nat (m_end v - m_begin v)) ->
                           is_Some (h_objs h1 !! (m_begin v + i))).
  { intros i Hi. rewrite Ho1. apply Hlive. lia. }
  pose proof (uninit_loop_spec ByMoveIfNoexcept (Z.to_nat (m_end v - m_begin v))
                (m_begin v) (h_next h) h1 Hsrc ltac:(lia)) as Hloop.
  pose proof (uninit_loop_ub ByMoveIfNoexcept (Z.to_nat (m_end v - m_begin v))
                (h_next h) n (m_begin v) (h_next h) h1) as Hub2.
  rewrite Hb1, lookup_insert_eq in Hub2.
  specialize (Hub2 eq_refl ltac:(lia) ltac:(lia) Hsrc ltac:(lia)).
  rewrite Z2Nat.id in Hloop by lia.
  destruct (uninit_loop _ _ _ _ _) as [[h2 e]|[h2 cur]]; [|discriminate].
  destruct Hloop as (-> & Hb2 & Hn2 & Ho2).
  rewrite deallocate_spec by lia.
  intros [= <- <-].
  assert (Hlive2 : forall p, m_begin v <= p < m_end v -> is_Some (h_objs h2 !! p)).
  { intros p Hp. rewrite Ho2, Ho1. case_decide; [lia|]. by apply Hlive. }
  assert (Hown2 : m_begin v = nullptr \/ h_blocks h2 !! m_begin v = Some (capacity v)).
  { destruct Hown as [(? & _)|(Hown & _)]; [by left|]. right.
    rewrite Hb2, Hb1, lookup_insert_ne, Hcap; [done|].
    apply Hblk in Hown. lia. }
  assert (Hblk3 : forall b m, h_blocks (release v h2) !! b = Some m ->
                    b = h_next h /\ m = n \/ h_blocks h !! b = Some m).
  { intros b m. unfold release.
    destruct (destroy_down_frame (Z.to_nat (m_end v - m_begin v)) (m_end v) h2)
      as [Hdb _].
    assert (Hin : h_blocks h2 !! b = Some m ->
                  b = h_next h /\ m = n \/ h_blocks h !! b = Some m).
    { rewrite Hb2, Hb1, lookup_insert. case_decide; [|by right].
      intros [= <-]. by left. }
    destruct (negb (m_begin v =? nullptr)).
    - unfold traits_deallocate. rewrite Hdb.
      destruct (h_blocks h2 !! m_begin v) eqn:E; simpl.
      + rewrite Hdb. intros [_ Hl]%lookup_delete_Some. by apply Hin.
      + destruct (m_begin v =? nullptr); simpl; rewrite Hdb; apply Hin.
    - rewrite Hdb. apply Hin. }
  split_and!.
  - rewrite release_ub by (done || lia). by rewrite Hub2.
  - split_and!; simpl; rewrite release_next, Hn2, Hn1'; try lia.
    + intros b m [(-> & ->)|Hold]%Hblk3; [lia|]. apply Hblk in Hold. lia.
    + intros p [x Hx]. rewrite release_objs, Ho2, Ho1 in Hx.
      repeat case_decide; try done; try lia.
      assert (p < h_next h) by (apply Hobj; eauto). lia.
  - split_and!; simpl; try lia.
    + rewrite release_next, Hn2, Hn1'. lia.
    + intros p Hp. rewrite release_objs, Ho2, Ho1.
      repeat case_decide; try lia. apply Hlive. lia.
  - right. simpl. split.
    + unfold release.
      destruct (destroy_down_frame (Z.to_nat (m_end v - m_begin v)) (m_end v) h2)
        as [Hdb _].
      assert (Hnew : h_blocks h2 !! h_next h = Some (h_next h + n - h_next h)).
      { rewrite Hb2, Hb1, lookup_insert_eq. f_equal. lia. }
      assert (Hne : m_begin v <> h_next h).
      { destruct Hown as [(-> & _)|(Hown & _)]; [unfold nullptr; lia|].
        apply Hblk in Hown. lia. }
      destruct (negb (m_begin v =? nullptr)).
      * unfold traits_deallocate. rewrite Hdb.
        destruct (h_blocks h2 !! m_begin v) eqn:E; simpl.
        -- by rewrite Hdb, lookup_delete_ne.
        -- destruct (m_begin v =? nullptr); simpl; by rewrite Hdb.
      * by rewrite Hdb.
    + intros p Hp. rewrite release_objs, Ho2, Ho1.
      repeat case_decide; try lia.
      destruct (h_objs h !! p) eqn:E; [|done].
      assert (p < h_next h) by (apply Hobj; eauto). lia.
Qed.

Lemma keeps_ret {A : Type} obj (a : A) : keeps (V := V) obj (mret a).
Proof. by intros s h. Qed.

Lemma keeps_throw2 {A : Type} obj e : keeps (V := V) obj (throw2 (A := A) e).
Proof. by intros s h. Qed.

Lemma keeps_bind {A B : Type} obj (m : @M2 V A) (k : A -> @M2 V B) :
  keeps obj m -> (forall a, keeps obj (k a)) -> keeps obj (m ≫= k).
Proof.
  intros Hm Hk s h. unfold mbind, M2_bind. specialize (Hm s h).
  destruct (m s h) as [a s' h'|e s' h']; simpl in *; [|done].
  by rewrite Hk.
Qed.

Lemma keeps_try_catch2 {A : Type} obj (m : @M2 V A) handler :
  keeps obj m -> (forall e, keeps obj (handler e)) -> keeps obj (try_catch2 m handler).
Proof.
  intros Hm Hk s h. unfold try_catch2. specialize (Hm s h).
  destruct (m s h) as [a s' h'|e s' h']; simpl in *; [done|].
  by rewrite Hk.
Qed.

Lemma keeps_call_other {A : Type} obj self (m : @M V A) :
  self <> obj -> keeps obj (call self m).
Proof.
  intros Hne s h. unfold call.
  destruct (m (s self) h); simpl; by store_simpl.
Qed.

Lemma keeps_call_this {A : Type} obj (f : vector -> A) :
  keeps (V := V) obj (call obj (this f)).
Proof. intros s h. unfold call, this. simpl. by store_simpl. Qed.

Lemma keeps_destroy_excess fuel self other :
  self <> other -> keeps (V := V) other (destroy_excess fuel self other).
Proof.
  intros Hne. induction fuel as [|fuel IH]; simpl; [apply keeps_ret|].
  apply keeps_bind; [apply keeps_call_this|]. intros osz.
  apply keeps_bind; [by apply keeps_call_other|]. intros sz.
  destruct (osz <? sz); [|apply keeps_ret].
  apply keeps_bind; [by apply keeps_call_other | done].
Qed.

(** X29: move assignment without propagation and with unequal allocators
    moves the elements one by one: whatever the outcome, the source object
    keeps its pointers, hence its size and capacity. *)
Lemma move_assign_elementwise_keeps_source (self other : nat) (s : store) (h : @heap V) :
  propagate_on_container_move_assignment = false ->
  negb is_always_equal && alloc_neq (m_alloc (s self)) (m_alloc (s other)) = true ->
  out_store (move_assign self other s h) other = s other.
Proof.
  intros Hp Hc.
  assert (Hne : self <> other).
  { intros ->. apply andb_true_iff in Hc as [_ Hc]. unfold alloc_neq in Hc.
    by rewrite Nat.eqb_refl in Hc. }
  unfold move_assign. rewrite Hp.
  unfold mbind at 1 2. unfold M2_bind at 1 2. unfold call at 1 2. unfold this at 1 2.
  cbv beta iota. store_simpl. rewrite Hc.
  set (s1 := store_set other _ _).
  assert (Hs1 : s1 other = s other) by (subst s1; by store_simpl).
  rewrite <- Hs1. generalize s1 h. clear s1 Hs1.
  match goal with
  | |- forall s0 h0, out_store (?m s0 h0) _ = _ => change (keeps other m)
  end.
  apply keeps_bind; [apply keeps_call_this|]. intros osz.
  apply keeps_bind; [by apply keeps_call_other|]. intros cap.
  destruct (osz >? cap).
  - apply keeps_bind; [by apply keeps_call_other|]. intros tmp.
    apply keeps_try_catch2.
    + repeat first [ apply keeps_call_this | apply keeps_call_other; done
                   | apply keeps_bind; [|intros ?] ].
    + intros ex.
      repeat first [ apply keeps_call_this | apply keeps_call_other; done
                   | apply keeps_throw2 | apply keeps_bind; [|intros ?] ].
  - repeat first [ apply keeps_call_this | apply keeps_call_other; done
                 | apply keeps_destroy_excess; done
                 | apply keeps_bind; [|intros ?] ].
Qed.


(** * Further operations: what the code guarantees *)

(** ** clear, pop_back *)

(** X1: [clear()] on a well-formed container always returns: the size is 0
    while capacity and [m_begin] are as before, no block is allocated or
    released, the objects of [m_begin, m_end) are gone and every other
    object is untouched, and exactly [size()] calls are made, each the
    destruction of one of the container's own elements. *)
Theorem clear_empties (v : vector) (h : @heap V) :
  heap_ok h -> vec_ok h v ->
  exists v' h',
    clear v h = Ok tt v' h' /\
    (size v' = 0 /\ capacity v' = capacity v /\ m_begin v' = m_begin v) /\
    (h_blocks h' = h_blocks h /\ h_next h' = h_next h /\ h_ub h' = h_ub h) /\
    (forall p, h_objs h' !! p =
       if decide (m_begin v <= p < m_end v) then None else h_objs h !! p) /\
    length (new_events h h') = Z.to_nat (size v) /\
    Forall (fun ev => exists p, ev = EvDestroy p /\ m_begin v <= p < m_end v)
           (new_events h h').
Proof.
  intros Hh Hv. pose proof (size_ok _ _ Hh Hv) as Hsz.
  destruct Hh as ((Hn0 & Hn1) & _ & _).
  destruct Hv as ((Hb0 & Hbe) & (Her & Hrn) & Hlive).
  pose proof addr_max_lt as Hmax.
  eexists _, _. split; [apply clear_spec; lia|].
  set (k := Z.to_nat (m_end v - m_begin v)).
  destruct (destroy_down_frame k (m_end v) h) as [Hb Hn].
  split_and!; try done.
  - unfold size. simpl. rewrite Z.sub_diag. reflexivity.
  - apply destroy_down_ub. intros p Hp. apply Hlive. lia.
  - intros p. rewrite destroy_down_objs. subst k.
    repeat case_decide; try lia; done.
  - rewrite (new_events_app _ _ _ (destroy_down_events _ _ _)).
    rewrite down_events_length, Hsz. done.
  - rewrite (new_events_app _ _ _ (destroy_down_events _ _ _)).
    eapply Forall_impl; [apply down_events_destroy|].
    intros ev (p & -> & Hp). exists p. split; [done | lia].
Qed.

(** ** pop_back *)

(** X2: [pop_back()] on a well-formed, non-empty container lowers the size
    by one and keeps the capacity and [m_begin]; the remaining elements are
    the former ones without the last, the only call made is the
    destruction of [back()], and the state stays well formed. *)
Theorem pop_back_removes_last (v : vector) (h : @heap V) :
  heap_ok h -> vec_ok h v -> 0 < size v ->
  exists v' h',
    pop_back v h = Ok tt v' h' /\
    (size v' = size v - 1 /\ capacity v' = capacity v /\ m_begin v' = m_begin v) /\
    elems h' v' = take (Z.to_nat (size v - 1)) (elems h v) /\
    new_events h h' = [EvDestroy (back v)] /\
    h_ub h' = h_ub h /\ heap_ok h' /\ vec_ok h' v'.
Proof.
  intros Hh Hv Hpos. pose proof (size_ok _ _ Hh Hv) as Hsz.
  destruct Hh as ((Hn0 & Hn1) & Hblk & Hobj).
  destruct Hv as ((Hb0 & Hbe) & (Her & Hrn) & Hlive).
  pose proof addr_max_lt as Hmax.
  eexists _, _. split; [reflexivity|].
  assert (Hs' : size (set_end (m_end v - 1) v) = size v - 1).
  { unfold size. simpl. rewrite !to_size_t_small; lia. }
  split_and!; try done.
  - apply list_eq. intros i. rewrite lookup_take, !elems_lookup, Hs'. simpl.
    rewrite lookup_delete.
    repeat case_decide; try lia; done.
  - unfold new_events. simpl.
    replace (S (length (h_log h)) - length (h_log h))%nat with 1%nat by lia.
    done.
  - simpl. rewrite bool_decide_eq_true_2; [apply orb_false_r|]. apply Hlive. lia.
  - split_and!; simpl; try done.
    intros p [x Hx]. apply lookup_delete_Some in Hx as [_ Hx]. apply Hobj. eauto.
  - split_and!; simpl; try lia.
    intros p Hp. rewrite lookup_delete_ne by lia. apply Hlive. lia.
Qed.

Lemma grow_returns_vec (args : ctor_args V) (v v' : vector) (h h' : @heap V) :
  grow args v h = Ok tt v' h' ->
  v' = Vector (h_next h) (h_next h + size v + 1)
         (h_next h + to_size_t (size v * 2)) (m_alloc v).
Proof.
  unfold grow. cbv zeta.
  destruct (traits_allocate _ _ _) as [[tmp|] h1] eqn:Ha.
  2:{ destruct (_ >? _); discriminate. }
  apply traits_allocate_Some in Ha as (-> & _).
  destruct (traits_construct _ _ _) as [h2|]; [|discriminate].
  destruct (uninit_loop _ _ _ _ _) as [[h3 e]|[h3 cur]]; [|discriminate].
  by intros [= <- _].
Qed.

(** X3: on a full well-formed container (size equal to capacity),
    [emplace_back] followed by [pop_back] gives back the former elements
    in order and the former size, on twice the capacity. *)
Theorem push_then_pop_restores (args : ctor_args V) (v v' : vector) (h h' : @heap V) :
  heap_ok h -> vec_ok h v -> size v = capacity v ->
  (emplace_back args ;; pop_back) v h = Ok tt v' h' ->
  size v' = size v /\ capacity v' = 2 * capacity v /\
  elems h' v' = elems h v.
Proof.
  intros Hh Hv Hfull. unfold mbind, M_bind.
  rewrite emplace_back_eq, (full_no_spare _ _ Hh Hv Hfull).
  pose proof (size_ok _ _ Hh Hv) as Hsz.
  destruct Hh as ((Hn0 & Hn1) & Hblk & Hobj).
  destruct Hv as ((Hb0 & Hbe) & (Her & Hrn) & Hlive).
  pose proof addr_max_lt as Hmax.
  destruct (grow args v h) as [[] v1 h1|e v1 h1] eqn:Hg; [|discriminate].
  pose proof (grow_returns_vec _ _ _ _ _ Hg) as Hv1.
  apply grow_returns in Hg as (Hs1 & Hc1 & Hb1 & He1 & _); try done; try lia.
  unfold pop_back. intros [= <- <-].
  assert (Hs' : size (set_end (m_end v1 - 1) v1) = size v).
  { rewrite Hv1. unfold size at 1. simpl. rewrite to_size_t_small; lia. }
  split_and!.
  - exact Hs'.
  - rewrite <- Hfull. exact Hc1.
  - apply list_eq. intros i. rewrite elems_lookup, Hs'. simpl.
    rewrite lookup_delete.
    assert (Hl := elems_lookup h1 v1 i). rewrite He1, Hs1 in Hl.
    rewrite lookup_app, elems_lookup in Hl.
    rewrite elems_lookup.
    repeat case_decide; try lia; try done.
    rewrite Hv1 in *. simpl in *. lia.
Qed.

(** ** shrink_to_fit *)

Lemma shrink_to_fit_eq v (h : @heap V) :
  shrink_to_fit v h =
  if size v <? capacity v then
    match traits_allocate (m_alloc v) (size v) h with
    | (Some tmp, h1) =>
        match uninit_loop ByMove (Z.to_nat (m_end v - m_begin v)) (m_begin v) tmp h1 with
        | inl (h2, e) =>
            match deallocate v h2 with
            | Ok _ v3 h3 =>
                Ok tt (set_realend (tmp + size v) (set_end e (set_begin tmp v3))) h3
            | Throw ex v3 h3 =>
                Throw ex v3 (traits_deallocate (m_alloc v) tmp (size v) h3)
            end
        | inr (h2, cur) =>
            Throw ElemExn v
              (traits_deallocate (m_alloc v) tmp (size v)
                 (destroy_range (Z.to_nat (cur - tmp)) tmp h2))
        end
    | (None, h1) =>
        if size v >? max_size v then Throw LengthError v h1 else Throw BadAlloc v h1
    end
  else Ok tt v h.
Proof.
  unfold shrink_to_fit, allocate_tmp, uninitialized_move_launder,
    uninitialized_relocate. munfold.
  destruct (size v <? capacity v); [|reflexivity].
  destruct (traits_allocate (m_alloc v) (size v) h) as [[tmp|] h1].
  - destruct (uninit_loop _ _ _ _ _) as [[h2 e]|[h2 cur]]; [|reflexivity].
    destruct (deallocate v h2); reflexivity.
  - destruct (_ >? _); reflexivity.
Qed.

(** X4: [shrink_to_fit()] on a well-formed container.  With size equal to
    capacity nothing changes.  With spare capacity, a normal return leaves
    capacity equal to the (unchanged) size, the elements have the values
    they had, and exactly one more allocator call was made; and it does
    return normally when the allocator can serve the request and no
    element's move constructor throws.  (Nothing is stated of a throw.) *)
Theorem shrink_to_fit_spec (v : vector) (h : @heap V) :
  heap_ok h -> vec_ok h v ->
  (size v = capacity v -> shrink_to_fit v h = Ok tt v h) /\
  (size v < capacity v ->
   (forall v' h', shrink_to_fit v h = Ok tt v' h' ->
      capacity v' = size v /\ size v' = size v /\ elems h' v' = elems h v /\
      alloc_calls h' = S (alloc_calls h)) /\
   (size v <= a_limit (m_alloc v) -> h_next h + Z.max (size v) 1 <= addr_max ->
    (forall x, Some x ∈ elems h v -> relocate_value ByMove x <> None) ->
    exists v' h', shrink_to_fit v h = Ok tt v' h')).
Proof.
  intros Hh Hv. pose proof (size_ok _ _ Hh Hv) as Hsz.
  pose proof (capacity_ok _ _ Hh Hv) as Hcap.
  destruct Hh as ((Hn0 & Hn1) & Hblk & Hobj).
  destruct Hv as ((Hb0 & Hbe) & (Her & Hrn) & Hlive).
  pose proof addr_max_lt as Hmax.
  assert (Hrange : 0 <= m_end v - m_begin v < size_t_modulus) by lia.
  rewrite shrink_to_fit_eq. split.
  { intros Heq. destruct (Z.ltb_spec (size v) (capacity v)); [lia | done]. }
  intros Hlt. destruct (Z.ltb_spec (size v) (capacity v)) as [_|?]; [|lia].
  destruct (traits_allocate (m_alloc v) (size v) h) as [[tmp|] h1] eqn:Ha.
  2:{ split.
      - intros v' h'. destruct (_ >? _); discriminate.
      - intros Hlim Hroom _. exfalso. unfold traits_allocate in Ha.
        destruct (Z.leb_spec (size v) (a_limit (m_alloc v))); [|lia].
        destruct (Z.leb_spec (h_next h + Z.max (size v) 1) addr_max); [|lia].
        discriminate. }
  apply traits_allocate_Some in Ha as (-> & Ho1 & Hn1' & Hb1 & Hl1 & _ & Hlim & Hroom).
  pose proof (uninit_loop_spec ByMove (Z.to_nat (m_end v - m_begin v))
                (m_begin v) (h_next h) h1) as Hloop.
  destruct (uninit_loop_log ByMove (Z.to_nat (m_end v - m_begin v))
                (m_begin v) (h_next h) h1) as (l2 & Hq2 & Hlog2).
  rewrite Z2Nat.id in Hloop by lia.
  destruct (uninit_loop _ _ _ _ _) as [[h2 e]|[h2 cur]].
  - destruct Hloop as (-> & Hb2 & Hn2 & Ho2).
    { intros i Hi. rewrite Ho1. apply Hlive. lia. }
    { lia. }
    rewrite deallocate_spec by done.
    split.
    + intros v' h' [= <- <-]. split_and!.
      * unfold capacity; simpl. rewrite <- (to_size_t_small (size v)) at 2 by lia.
        f_equal. lia.
      * rewrite Hsz. unfold size; simpl.
        rewrite <- (to_size_t_small (m_end v - m_begin v)) at 2 by lia.
        f_equal. lia.
      * apply elems_eq.
        -- rewrite Hsz. unfold size; simpl.
           rewrite <- (to_size_t_small (m_end v - m_begin v)) at 2 by lia.
           f_equal. lia.
        -- intros i Hi. simpl. rewrite release_objs, Ho2, Ho1.
           repeat case_decide; try lia. f_equal. lia.
      * rewrite <- (alloc_calls_log (a_id (m_alloc v)) (size v) h).
        destruct (release_log v h2) as (l4 & Hlog4 & Hq4); [lia|].
        apply (alloc_calls_app _ _ (l4 ++ l2)).
        -- rewrite Hlog4, Hlog2, Hl1. by rewrite <- !app_assoc.
        -- rewrite !Forall_app. split_and!; try done.
           eapply Forall_impl; [exact Hq4|]. by intros ev (_ & _ & ? & _).
    + intros _ _ _. eauto.
  - destruct Hloop as (Hc & Hb2 & Hn2 & (x & Hx & Hr) & Ho2).
    { intros i Hi. rewrite Ho1. apply Hlive. lia. }
    { lia. }
    split.
    + intros v' h'. discriminate.
    + intros _ _ Hreloc. exfalso. rewrite Ho1 in Hx.
      apply (Hreloc x); [|done].
      eapply elem_of_elems; [done | | exact Hx]. lia.
Qed.


(** ** constructors *)

Lemma construct_each_spec k : forall p (args : ctor_args V) v (h : @heap V),
  match construct_each k p args v h with
  | Ok _ v' h' =>
      v' = v /\ (0 < Z.of_nat k -> exists x, run_ctor args = Some x) /\
      h_blocks h' = h_blocks h /\ h_next h' = h_next h /\
      (forall q, h_objs h' !! q =
         if decide (p <= q < p + Z.of_nat k) then run_ctor args else h_objs h !! q) /\
      exists l, h_log h' = l ++ h_log h /\ Forall quiet l
  | Throw e v' h' =>
      e = ElemExn /\ v' = v /\ h' = h /\ run_ctor args = None /\ 0 < Z.of_nat k
  end.
Proof.
  induction k as [|k IH]; intros p args v h; simpl.
  - unfold mret, M_ret. split_and!; try done; try (intros; lia).
    + intros q. case_decide; [lia | done].
    + exists []. split; [done | constructor].
  - unfold mbind, M_bind, construct at 1.
    destruct (run_ctor args) as [x|] eqn:Hx; cbn [traits_construct].
    2:{ split_and!; try done; lia. }
    set (h1 := Heap _ _ _ _ _).
    specialize (IH (p + 1) args v h1). rewrite Hx in IH.
    destruct (construct_each k (p + 1) args v h1) as [[] v' h'|e v' h'].
    + destruct IH as (-> & _ & Hb & Hn & Ho & (l & Hl & Hq)).
      split_and!; try done; [eauto| |].
      * intros q. rewrite Ho. subst h1. simpl. rewrite lookup_insert.
        repeat case_decide; try lia; done.
      * exists (l ++ [EvConstruct p]). split.
        -- rewrite Hl. subst h1. simpl. by rewrite <- app_assoc.
        -- apply Forall_app. split; [done|]. by repeat constructor.
    + destruct IH as (_ & _ & _ & ? & _). discriminate.
Qed.

Lemma construct_each_ub k b n : forall p (args : ctor_args V) v (h : @heap V),
  h_blocks h !! b = Some n -> b <= p -> p + Z.of_nat k <= b + n ->
  match construct_each k p args v h with
  | Ok _ _ h' => h_ub h' = h_ub h
  | Throw _ _ h' => h_ub h' = h_ub h
  end.
Proof.
  induction k as [|k IH]; intros p args v h Hb Hlo Hhi; simpl; [done|].
  unfold mbind, M_bind, construct at 1.
  destruct (run_ctor args) as [x|] eqn:Hx; cbn [traits_construct]; [|done].
  set (h1 := Heap _ _ _ _ _).
  assert (Hub1 : h_ub h1 = h_ub h).
  { subst h1. simpl. rewrite (in_live_block_true h b n p Hb) by lia.
    apply orb_false_r. }
  specialize (IH (p + 1) args v h1 Hb ltac:(lia) ltac:(lia)).
  destruct (construct_each k (p + 1) args v h1) as [[] v' h'|e v' h'];
    by rewrite IH.
Qed.

(** The shared shape of the sized and the fill constructor. *)
Lemma sized_shape (args : ctor_args V) (count : Z) v (h : @heap V) :
  (a ← this m_alloc;
   allocate count a ;;
   b ← this m_begin; r ← this m_realend;
   construct_each (Z.to_nat (r - b)) b args ;;
   update (set_end r)) v h =
  match traits_allocate (m_alloc v) count h with
  | (Some p, h1) =>
      match construct_each (Z.to_nat (p + count - p)) p args
              (set_realend (p + count) (set_begin p v)) h1 with
      | Ok _ v2 h2 => Ok tt (set_end (p + count) v2) h2
      | Throw e v2 h2 => Throw e v2 h2
      end
  | (None, h1) =>
      if count >? max_size v then Throw LengthError v h1 else Throw BadAlloc v h1
  end.
Proof.
  unfold allocate. munfold.
  destruct (traits_allocate (m_alloc v) count h) as [[p|] h1]; simpl.
  - destruct (construct_each _ _ _ _ _); reflexivity.
  - destruct (_ >? _); reflexivity.
Qed.

Lemma sized_shape_returns (args : ctor_args V) (count : Z) v v' (h h' : @heap V) :
  heap_ok h -> 0 <= count ->
  (a ← this m_alloc;
   allocate count a ;;
   b ← this m_begin; r ← this m_realend;
   construct_each (Z.to_nat (r - b)) b args ;;
   update (set_end r)) v h = Ok tt v' h' ->
  (size v' = count /\ capacity v' = count /\ m_alloc v' = m_alloc v) /\
  elems h' v' = replicate (Z.to_nat count) (run_ctor args) /\
  (heap_ok h' /\ vec_ok h' v' /\ owns_block h' v') /\
  h_ub h' = h_ub h /\ alloc_calls h' = S (alloc_calls h) /\
  (forall q, ~ (h_next h <= q < h_next h + count) ->
             h_objs h' !! q = h_objs h !! q) /\
  h_blocks h' = <[m_begin v' := count]> (h_blocks h) /\ m_begin v' = h_next h /\
  (0 < count -> exists x, run_ctor args = Some x).
Proof.
  intros ((Hn0 & Hn1) & Hblk & Hobj) Hc. pose proof addr_max_lt as Hmax.
  rewrite sized_shape.
  destruct (traits_allocate (m_alloc v) count h) as [[p|] h1] eqn:Ha.
  2:{ destruct (_ >? _); discriminate. }
  apply traits_allocate_Some in Ha as (-> & Ho1 & Hn1' & Hb1 & Hl1 & Hub1 & Hlim & Hroom).
  replace (h_next h + count - h_next h) with count by lia.
  pose proof (construct_each_spec (Z.to_nat count) (h_next h) args
                (set_realend (h_next h + count) (set_begin (h_next h) v)) h1) as Hs.
  pose proof (construct_each_ub (Z.to_nat count) (h_next h) count (h_next h) args
                (set_realend (h_next h + count) (set_begin (h_next h) v)) h1) as Hu.
  rewrite Hb1, lookup_insert_eq in Hu.
  specialize (Hu eq_refl ltac:(lia) ltac:(lia)).
  destruct (construct_each _ _ _ _ _) as [[] v2 h2|e v2 h2]; [|discriminate].
  destruct Hs as (-> & Hx & Hb2 & Hn2 & Ho2 & (l & Hl & Hq)).
  rewrite Z2Nat.id in Ho2, Hx by lia.
  intros [= <- <-].
  assert (Hs' : size (set_end (h_next h + count)
                  (set_realend (h_next h + count) (set_begin (h_next h) v))) = count).
  { unfold size. simpl. rewrite to_size_t_small; lia. }
  split_and!; try done.
  - apply list_eq. intros i. rewrite elems_lookup, Hs'. simpl. rewrite Ho2.
    repeat case_decide; try lia.
    + by rewrite lookup_replicate_2 by lia.
    + symmetry. apply lookup_replicate_None. lia.
  - unfold heap_ok. rewrite Hn2, Hn1', Hb2, Hb1. split_and!; try lia.
    + intros b n. rewrite lookup_insert.
      case_decide; [intros _; lia|]. intros Hold%Hblk. lia.
    + intros q [x Hq']. rewrite Ho2, Ho1 in Hq'.
      case_decide; [lia|]. assert (q < h_next h) by (apply Hobj; eauto). lia.
  - unfold vec_ok. simpl. rewrite Hn2, Hn1'. split_and!; try lia.
    intros q Hq'. rewrite Ho2. case_decide; [|lia].
    destruct Hx as [x ->]; [lia | eauto].
  - right. simpl. split.
    + rewrite Hb2, Hb1, lookup_insert_eq. f_equal. lia.
    + intros q Hq'. lia.
  - by rewrite Hu.
  - rewrite <- (alloc_calls_log (a_id (m_alloc v)) count h).
    apply (alloc_calls_app _ _ l); [|done]. by rewrite Hl, Hl1.
  - intros q Hq'. rewrite Ho2, Ho1. case_decide; [lia | done].
  - simpl. by rewrite Hb2, Hb1.
Qed.

(** X5: the counted constructor [vector(count)].  When it returns, size
    and capacity are [count], every element is the default value, the new
    container is well formed and owns its block, and nothing undefined
    happened; it does return when the allocator can serve the request and
    the element's default constructor does not throw. *)
Theorem sized_constructor_builds (count : Z) (v : vector) (h : @heap V) :
  heap_ok h -> 0 <= count ->
  (forall v' h', vector_sized count v h = Ok tt v' h' ->
     size v' = count /\ capacity v' = count /\
     elems h' v' = replicate (Z.to_nat count) default_init /\
     heap_ok h' /\ vec_ok h' v' /\ owns_block h' v' /\ h_ub h' = h_ub h) /\
  (count <= a_limit (m_alloc v) -> h_next h + Z.max count 1 <= addr_max ->
   default_init <> None -> exists v' h', vector_sized count v h = Ok tt v' h').
Proof.
  intros Hh Hc. split.
  - intros v' h' Hrun.
    apply (sized_shape_returns NoArgs) in Hrun
      as ((? & ? & _) & ? & (? & ? & ?) & ? & _); done.
  - intros Hlim Hroom Hdef.
    assert (Hal : traits_allocate (m_alloc v) count h =
              (Some (h_next h),
               Heap (<[h_next h := count]> (h_blocks h)) (h_objs h)
                 (h_next h + Z.max count 1)
                 (EvAllocate (a_id (m_alloc v)) count :: h_log h) (h_ub h))).
    { unfold traits_allocate.
      destruct (Z.leb_spec count (a_limit (m_alloc v))); [|lia].
      destruct (Z.leb_spec (h_next h + Z.max count 1) addr_max); [|lia]. done. }
    unfold vector_sized. rewrite sized_shape, Hal.
    set (h1 := Heap _ _ _ _ _).
    pose proof (construct_each_spec (Z.to_nat (h_next h + count - h_next h))
                  (h_next h) NoArgs
                  (set_realend (h_next h + count) (set_begin (h_next h) v)) h1) as Hs.
    destruct (construct_each _ _ _ _ _) as [[] v2 h2|e v2 h2]; [eauto|].
    destruct Hs as (_ & _ & _ & Hn & _). done.
Qed.


(** X6: when the element's default constructor throws, [vector(count)] with
    [count > 0] propagates the exception after a single allocator call,
    with no object constructed and with the block it had allocated still
    live: the constructor has no handler that would release it. *)
Theorem sized_constructor_throw_keeps_block (count : Z) (v : vector) (h : @heap V) :
  0 < count -> default_init = None ->
  count <= a_limit (m_alloc v) -> h_next h + Z.max count 1 <= addr_max ->
  exists v' h',
    vector_sized count v h = Throw ElemExn v' h' /\
    h_blocks h' = <[h_next h := count]> (h_blocks h) /\
    h_objs h' = h_objs h /\
    new_events h h' = [EvAllocate (a_id (m_alloc v)) count].
Proof.
  intros Hc Hdef Hlim Hroom. unfold vector_sized. rewrite sized_shape.
  unfold traits_allocate.
  destruct (Z.leb_spec count (a_limit (m_alloc v))); [|lia].
  destruct (Z.leb_spec (h_next h + Z.max count 1) addr_max); [|lia].
  cbn [andb]. set (h1 := Heap _ _ _ _ _).
  pose proof (construct_each_spec (Z.to_nat (h_next h + count - h_next h))
                (h_next h) NoArgs
                (set_realend (h_next h + count) (set_begin (h_next h) v)) h1) as Hs.
  destruct (construct_each _ _ _ _ _) as [[] v2 h2|e v2 h2].
  - destruct Hs as (_ & Hx & _). destruct Hx as [x Hx]; [lia|].
    simpl in Hx. congruence.
  - destruct Hs as (-> & -> & -> & _). eexists _, _. split; [done|].
    subst h1. split_and!; try done.
    unfold new_events. simpl.
    replace (S (length (h_log h)) - length (h_log h))%nat with 1%nat by lia.
    done.
Qed.

(** ** destructor *)

Lemma release_blocks v (h : @heap V) :
  m_begin v = nullptr \/ h_blocks h !! m_begin v = Some (capacity v) ->
  (forall b n, h_blocks h !! b = Some n -> 0 < b) ->
  h_blocks (release v h) = delete (m_begin v) (h_blocks h).
Proof.
  intros Hown Hpos. unfold release.
  destruct (destroy_down_frame (Z.to_nat (m_end v - m_begin v)) (m_end v) h)
    as [Hdb _].
  destruct (Z.eqb_spec (m_begin v) nullptr) as [Hnull|Hnn]; simpl.
  - rewrite Hdb, Hnull. symmetry. apply delete_id.
    destruct (h_blocks h !! nullptr) as [n|] eqn:E; [|done].
    apply Hpos in E. unfold nullptr in E. lia.
  - destruct Hown as [?|Hown]; [done|].
    unfold traits_deallocate. rewrite Hdb, Hown. simpl. by rewrite Hdb.
Qed.

Lemma release_events v (h : @heap V) :
  h_log (release v h) =
  (if negb (m_begin v =? nullptr)
   then [EvDeallocate (a_id (m_alloc v)) (m_begin v) (capacity v)] else []) ++
  down_events (Z.to_nat (m_end v - m_begin v)) (m_end v) ++ h_log h.
Proof.
  unfold release. destruct (negb (m_begin v =? nullptr)); simpl.
  - by rewrite traits_deallocate_log, destroy_down_events.
  - by rewrite destroy_down_events.
Qed.

Lemma owns_block_capacity (h : @heap V) v :
  heap_ok h -> vec_ok h v -> owns_block h v ->
  m_begin v = nullptr \/ h_blocks h !! m_begin v = Some (capacity v).
Proof.
  intros Hh Hv [(? & _)|(Hown & _)]; [by left|]. right.
  by rewrite (capacity_ok _ _ Hh Hv).
Qed.

(** X7: the destructor of a well-formed container that owns its block
    always returns: the block is no longer live, the container's elements
    are destroyed from the last to the first and nothing else is touched,
    and the block is released after them (no release for a null
    [m_begin]). *)
Theorem destructor_releases (v : vector) (h : @heap V) :
  heap_ok h -> vec_ok h v -> owns_block h v ->
  exists v' h',
    destructor v h = Ok tt v' h' /\
    h_blocks h' = delete (m_begin v) (h_blocks h) /\
    (forall p, h_objs h' !! p =
       if decide (m_begin v <= p < m_end v) then None else h_objs h !! p) /\
    h_ub h' = h_ub h /\
    new_events h h' =
      (if negb (m_begin v =? nullptr)
       then [EvDeallocate (a_id (m_alloc v)) (m_begin v) (capacity v)] else []) ++
      down_events (Z.to_nat (size v)) (m_end v).
Proof.
  intros Hh Hv Hown. pose proof (size_ok _ _ Hh Hv) as Hsz.
  pose proof (owns_block_capacity _ _ Hh Hv Hown) as Hcap.
  destruct Hh as ((Hn0 & Hn1) & Hblk & Hobj).
  destruct Hv as ((Hb0 & Hbe) & (Her & Hrn) & Hlive).
  pose proof addr_max_lt as Hmax.
  eexists _, _. split; [apply deallocate_spec; lia|].
  split_and!.
  - apply release_blocks; [done|]. intros b n Hb%Hblk. lia.
  - apply release_objs.
  - apply release_ub; [lia | done | done].
  - apply new_events_app. rewrite release_events, Hsz. by rewrite <- app_assoc.
Qed.

(** X8: constructing a container with [vector(count)] and destroying it
    leaves the live blocks and the live objects of the free store exactly
    as they were, within defined behaviour. *)
Theorem construct_then_destroy_leaves_nothing
    (count : Z) (v v' : vector) (h h' : @heap V) :
  heap_ok h -> 0 <= count ->
  (vector_sized count ;; destructor) v h = Ok tt v' h' ->
  h_blocks h' = h_blocks h /\ h_objs h' = h_objs h /\ h_ub h' = h_ub h.
Proof.
  intros Hh Hc Hrun.
  assert (exists v1 h1,
    vector_sized count v h = Ok tt v1 h1 /\
    destructor v1 h1 = Ok tt v' h') as (v1 & h1 & Hctor & Hdtor).
  { unfold mbind at 1, M_bind at 1 in Hrun.
    destruct (vector_sized count v h) as [[] v1 h1|]; [eauto | discriminate]. }
  clear Hrun. unfold vector_sized in Hctor.
  apply sized_shape_returns in Hctor
    as ((Hsize & _ & _) & _ & (Hh1 & Hv1 & Hown1) & Hub1 & _ & Ho1 & Hb1 & Hbeg & _);
    try done.
  pose proof (size_ok _ _ Hh1 Hv1) as Hsz1.
  pose proof (owns_block_capacity _ _ Hh1 Hv1 Hown1) as Hcap1.
  destruct Hh as ((Hn0 & Hn1) & Hblk & Hobj).
  assert (Hv1' := Hv1). destruct Hv1' as ((Hb0 & Hbe) & (Her & Hrn) & Hlive).
  pose proof addr_max_lt as Hmax.
  unfold destructor in Hdtor. rewrite deallocate_spec in Hdtor.
  2:{ destruct Hh1 as ((? & ?) & _). lia. }
  injection Hdtor as <- <-.
  split_and!.
  - rewrite release_blocks; [|done|].
    + rewrite Hb1. apply delete_insert_id.
      destruct (h_blocks h !! m_begin v1) as [n|] eqn:E; [|done].
      apply Hblk in E. lia.
    + destruct Hh1 as (_ & Hblk1 & _). intros b n Hb%Hblk1. lia.
  - apply map_eq. intros p. rewrite release_objs.
    case_decide as Hp.
    + symmetry. destruct (h_objs h !! p) as [x|] eqn:E; [|done].
      assert (p < h_next h) by (apply Hobj; eauto). lia.
    + destruct (decide (h_next h <= p < h_next h + count)) as [Hin|Hout].
      * exfalso. apply Hp. lia.
      * by apply Ho1.
  - rewrite release_ub; [done | lia | done | done].
Qed.


(** ** Copy construction *)

Lemma range_shape (mode : reloc_mode) (n sb se : Z) v (h : @heap V) :
  (a ← this m_alloc;
   allocate n a ;;
   b ← this m_begin;
   uninitialized_relocate mode sb se b ;;
   r ← this m_realend;
   update (set_end r)) v h =
  match traits_allocate (m_alloc v) n h with
  | (Some p, h1) =>
      match uninit_loop mode (Z.to_nat (se - sb)) sb p h1 with
      | inl (h2, _) =>
          Ok tt (set_end (p + n) (set_realend (p + n) (set_begin p v))) h2
      | inr (h2, cur) =>
          Throw ElemExn (set_realend (p + n) (set_begin p v))
            (destroy_range (Z.to_nat (cur - p)) p h2)
      end
  | (None, h1) =>
      if n >? max_size v then Throw LengthError v h1 else Throw BadAlloc v h1
  end.
Proof.
  unfold allocate, uninitialized_relocate. munfold.
  destruct (traits_allocate (m_alloc v) n h) as [[p|] h1]; simpl.
  - destruct (uninit_loop _ _ _ _ _) as [[h2 e]|[h2 cur]]; reflexivity.
  - destruct (_ >? _); reflexivity.
Qed.

Lemma range_shape_spec (mode : reloc_mode) (other v : vector) (h : @heap V) :
  heap_ok h -> vec_ok h other ->
  match (a ← this m_alloc;
         allocate (size other) a ;;
         b ← this m_begin;
         uninitialized_relocate mode (m_begin other) (m_end other) b ;;
         r ← this m_realend;
         update (set_end r)) v h with
  | Ok _ v' h' =>
      (size v' = size other /\ capacity v' = size other /\
       m_begin v' = h_next h /\ m_alloc v' = m_alloc v) /\
      (forall q, h_objs h' !! q =
         if decide (h_next h <= q < h_next h + size other)
         then h_objs h !! (m_begin other + (q - h_next h)) else h_objs h !! q) /\
      (heap_ok h' /\ vec_ok h' v' /\ owns_block h' v') /\
      (h_ub h' = h_ub h /\ h_next h <= h_next h') /\
      h_blocks h' = <[h_next h := size other]> (h_blocks h)
  | Throw e v' h' =>
      h_objs h' = h_objs h /\
      (e = ElemExn ->
       h_blocks h' = <[h_next h := size other]> (h_blocks h) /\
       exists x, Some x ∈ elems h other /\ relocate_value mode x = None) /\
      (e <> ElemExn ->
       h_blocks h' = h_blocks h /\
       fst (traits_allocate (m_alloc v) (size other) h) = None)
  end.
Proof.
  intros Hh Hv. pose proof (size_ok _ _ Hh Hv) as Hsz.
  destruct Hh as ((Hn0 & Hn1) & Hblk & Hobj).
  destruct Hv as ((Hb0 & Hbe) & (Her & Hrn) & Hlive).
  pose proof addr_max_lt as Hmax.
  rewrite range_shape.
  destruct (traits_allocate (m_alloc v) (size other) h) as [[p|] h1] eqn:Ha.
  2:{ apply traits_allocate_None in Ha as ->.
      destruct (_ >? _); (split_and!; [done | discriminate | done]). }
  apply traits_allocate_Some in Ha as (-> & Ho1 & Hn1' & Hb1 & Hl1 & Hub1 & Hlim & Hroom).
  assert (Hsrc : forall i, 0 <= i < Z.of_nat (Z.to_nat (m_end other - m_begin other)) ->
                           is_Some (h_objs h1 !! (m_begin other + i))).
  { intros i Hi. rewrite Ho1. apply Hlive. lia. }
  pose proof (uninit_loop_spec mode (Z.to_nat (m_end other - m_begin other))
                (m_begin other) (h_next h) h1 Hsrc ltac:(lia)) as Hloop.
  pose proof (uninit_loop_ub mode (Z.to_nat (m_end other - m_begin other))
                (h_next h) (size other) (m_begin other) (h_next h) h1) as Hub2.
  rewrite Hb1, lookup_insert_eq in Hub2.
  specialize (Hub2 eq_refl ltac:(lia) ltac:(lia) Hsrc ltac:(lia)).
  rewrite Z2Nat.id in Hloop by lia.
  destruct (uninit_loop _ _ _ _ _) as [[h2 e]|[h2 cur]].
  - destruct Hloop as (-> & Hb2 & Hn2 & Ho2).
    assert (Hs' : size (set_end (h_next h + size other)
                    (set_realend (h_next h + size other) (set_begin (h_next h) v)))
                  = size other).
    { unfold size at 1. simpl. rewrite to_size_t_small; lia. }
    split_and!; try done.
    + intros q. rewrite Ho2, Ho1, Hsz. done.
    + unfold heap_ok. rewrite Hn2, Hn1', Hb2, Hb1. split_and!; try lia.
      * intros b n. rewrite lookup_insert.
        case_decide; [intros _; lia|]. intros Hold%Hblk. lia.
      * intros q [x Hq']. rewrite Ho2, Ho1 in Hq'.
        case_decide; [lia|]. assert (q < h_next h) by (apply Hobj; eauto). lia.
    + unfold vec_ok. simpl. rewrite Hn2, Hn1'. split_and!; try lia.
      intros q Hq'. rewrite Ho2, Ho1. case_decide; [|lia].
      apply Hlive. lia.
    + right. simpl. split.
      * rewrite Hb2, Hb1, lookup_insert_eq. f_equal. lia.
      * intros q Hq'. lia.
    + by rewrite Hub2.
    + lia.
    + by rewrite Hb2, Hb1.
  - destruct Hloop as (Hc & Hb2 & Hn2 & (x & Hx & Hr) & Ho2).
    split_and!.
    + apply map_eq. intros q. rewrite destroy_range_objs, Ho2, Ho1.
      rewrite Z2Nat.id by lia.
      repeat case_decide; try lia; try done.
      symmetry. destruct (h_objs h !! q) eqn:E; [|done].
      assert (q < h_next h) by (apply Hobj; eauto). lia.
    + intros _. split.
      * destruct (destroy_range_frame (Z.to_nat (cur - h_next h)) (h_next h) h2)
          as [-> _]. by rewrite Hb2, Hb1.
      * exists x. split; [|done]. rewrite Ho1 in Hx.
        eapply elem_of_elems; [lia | | exact Hx]. lia.
    + done.
Qed.

(** X9: the copy constructors.  When they return, the new container has
    size and capacity [other.size()], holds the same element values in
    order in storage disjoint from the source's, is well formed and owns
    its block, and the source still holds its elements.  When they throw,
    no object is left over, but on an element copy that throws the new
    block stays allocated.  They do return when the allocator can serve
    the request and no copy throws. *)
Theorem copy_constructor_copies (other v : vector) (h : @heap V) :
  heap_ok h -> vec_ok h other ->
  (forall v' h', vector_copy other v h = Ok tt v' h' ->
     (size v' = size other /\ capacity v' = size other) /\
     (elems h' v' = elems h other /\ elems h' other = elems h other) /\
     m_end other <= m_begin v' /\
     (heap_ok h' /\ vec_ok h' v' /\ vec_ok h' other /\ owns_block h' v') /\
     h_ub h' = h_ub h) /\
  (forall e v' h', vector_copy other v h = Throw e v' h' ->
     h_objs h' = h_objs h /\
     (e = ElemExn -> h_blocks h' = <[h_next h := size other]> (h_blocks h))) /\
  (size other <= a_limit (m_alloc v) ->
   h_next h + Z.max (size other) 1 <= addr_max ->
   (forall x, Some x ∈ elems h other -> copy_throws x = false) ->
   exists v' h', vector_copy other v h = Ok tt v' h').
Proof.
  intros Hh Hv. pose proof (range_shape_spec ByCopy other v h Hh Hv) as Hspec.
  pose proof (size_ok _ _ Hh Hv) as Hsz.
  fold (vector_copy other) in Hspec. unfold vector_copy in *.
  change (uninitialized_copy (V := V)) with (uninitialized_relocate (V := V) ByCopy).
  assert (Hh0 := Hh). assert (Hv0 := Hv).
  destruct Hh as ((Hn0 & Hn1) & Hblk & Hobj).
  destruct Hv as ((Hb0 & Hbe) & (Her & Hrn) & Hlive).
  split_and!.
  - intros v' h' Hrun. rewrite Hrun in Hspec.
    destruct Hspec as ((Hs & Hc & Hbeg & _) & Ho & (Hh' & Hv' & Hown') & (Hub & Hnx) & _).
    split_and!; try done.
    + apply elems_eq; [done|]. intros i Hi. rewrite Ho, Hbeg.
      case_decide; [|lia]. f_equal. lia.
    + apply elems_eq; [done|]. intros i Hi. rewrite Ho.
      case_decide; [lia | done].
    + lia.
    + unfold vec_ok. destruct Hh' as ((? & ?) & _).
      destruct Hv' as (_ & (_ & ?) & _). split_and!; try lia.
      intros q Hq. rewrite Ho. case_decide; [lia|]. by apply Hlive.
  - intros e v' h' Hrun. rewrite Hrun in Hspec.
    destruct Hspec as (Ho & Hel & _). split; [done|].
    intros He. by apply Hel.
  - intros Hlim Hroom Hcopy.
    destruct ((a ← this m_alloc;
               allocate (size other) a ;;
               b ← this m_begin;
               uninitialized_relocate ByCopy (m_begin other) (m_end other) b ;;
               r ← this m_realend;
               update (set_end r)) v h) as [[] v' h'|e v' h'] eqn:Hrun; [eauto|].
    exfalso. destruct Hspec as (_ & Hel & Hne).
    destruct (decide (e = ElemExn)) as [->|Hne'].
    + destruct Hel as (_ & x & Hx & Hr); [done|].
      apply Hcopy in Hx. simpl in Hr. by rewrite Hx in Hr.
    + destruct (Hne Hne') as (_ & Hfail). unfold traits_allocate in Hfail.
      destruct (Z.leb_spec (size other) (a_limit (m_alloc v))); [|lia].
      destruct (Z.leb_spec (h_next h + Z.max (size other) 1) addr_max); [|lia].
      discriminate.
Qed.

(** X10: a copy and its original do not share elements: clearing the copy
    leaves the original's elements as they were, and clearing the
    original leaves the copy's. *)
Theorem copy_and_original_are_independent
    (other v c : vector) (h h1 : @heap V) :
  heap_ok h -> vec_ok h other ->
  vector_copy other v h = Ok tt c h1 ->
  (forall c' h2, clear c h1 = Ok tt c' h2 ->
     size c' = 0 /\ elems h2 other = elems h other) /\
  (forall o' h2, clear other h1 = Ok tt o' h2 ->
     size o' = 0 /\ elems h2 c = elems h other).
Proof.
  intros Hh Hv Hrun.
  pose proof (range_shape_spec ByCopy other v h Hh Hv) as Hspec.
  pose proof (size_ok _ _ Hh Hv) as Hsz.
  unfold vector_copy in Hrun.
  change (uninitialized_copy (V := V)) with (uninitialized_relocate (V := V) ByCopy)
    in Hrun.
  rewrite Hrun in Hspec.
  destruct Hspec as ((Hs & Hc & Hbeg & _) & Ho & (Hh' & Hv' & Hown') & (Hub & Hnx) & _).
  pose proof (size_ok _ _ Hh' Hv') as Hsz'.
  destruct Hh as ((Hn0 & Hn1) & Hblk & Hobj).
  destruct Hv as ((Hb0 & Hbe) & (Her & Hrn) & Hlive).
  destruct Hh' as ((Hn0' & Hn1') & _ & _).
  destruct Hv' as ((Hb0' & Hbe') & (Her' & Hrn') & Hlive').
  pose proof addr_max_lt as Hmax.
  split.
  - intros c' h2. rewrite clear_spec by lia. intros [= <- <-]. split.
    + unfold size. simpl. by rewrite Z.sub_diag.
    + apply elems_eq; [done|]. intros i Hi.
      rewrite destroy_down_objs, Ho. repeat case_decide; try lia; done.
  - intros o' h2. rewrite clear_spec by lia. intros [= <- <-]. split.
    + unfold size. simpl. by rewrite Z.sub_diag.
    + apply elems_eq; [done|]. intros i Hi.
      rewrite destroy_down_objs, Ho, Hbeg.
      repeat case_decide; try lia. f_equal. lia.
Qed.


(** ** swap *)

Lemma swap_spec (self other : nat) (s : store) (h : @heap V) :
  exists s', swap self other s h = Ok2 tt s' h /\
    forall k, s' k =
      if Nat.eqb k other then
        Vector (m_begin (s self)) (m_end (s self)) (m_realend (s self))
          (m_alloc (s (if propagate_on_container_swap then self else other)))
      else if Nat.eqb k self then
        Vector (m_begin (s other)) (m_end (s other)) (m_realend (s other))
          (m_alloc (s (if propagate_on_container_swap then other else self)))
      else s k.
Proof.
  unfold swap, swap_member. munfold2.
  destruct propagate_on_container_swap;
    (eexists; split; [reflexivity|]); intros k;
    (destruct (Nat.eqb_spec k other) as [->|Hko];
     [destruct (Nat.eqb_spec self other) as [->|Hso]; store_simpl; simpl;
      store_simpl; simpl; store_simpl; try done
     |destruct (Nat.eqb_spec k self) as [->|Hks]; store_simpl; simpl;
      store_simpl; simpl; store_simpl; try done]).
Qed.

(** X11: [swap(other)] always returns and touches nothing on the free
    store; the two objects exchange their elements, sizes and capacities,
    and their allocators exactly when the swap-propagation trait is set
    (otherwise each keeps its own allocator, whatever block it now holds);
    no third object changes. *)
Theorem swap_exchanges (self other : nat) (s : store) (h : @heap V) :
  exists s', swap self other s h = Ok2 tt s' h /\
    elems h (s' self) = elems h (s other) /\
    elems h (s' other) = elems h (s self) /\
    (size (s' self) = size (s other) /\ capacity (s' self) = capacity (s other)) /\
    (size (s' other) = size (s self) /\ capacity (s' other) = capacity (s self)) /\
    (m_alloc (s' self) =
       m_alloc (s (if propagate_on_container_swap then other else self)) /\
     m_alloc (s' other) =
       m_alloc (s (if propagate_on_container_swap then self else other))) /\
    (forall k, k <> self -> k <> other -> s' k = s k).
Proof.
  destruct (swap_spec self other s h) as (s' & Hrun & Hs').
  exists s'. split; [done|].
  pose proof (Hs' self) as Hself. pose proof (Hs' other) as Hother.
  rewrite Nat.eqb_refl in Hother.
  destruct (Nat.eqb_spec self other) as [->|Hne].
  - rewrite Hother. split_and!; try done.
    intros k Hk _. rewrite Hs'. by destruct (Nat.eqb_spec k other).
  - rewrite Nat.eqb_refl in Hself. rewrite Hself, Hother. split_and!; try done.
    intros k Hk1 Hk2. rewrite Hs'.
    destruct (Nat.eqb_spec k other); [done|]. by destruct (Nat.eqb_spec k self).
Qed.

(** X12: swapping twice gives back every object of the store as it was. *)
Theorem swap_twice_restores (self other : nat) (s : store) (h : @heap V) :
  exists s', (swap self other ;; swap self other) s h = Ok2 tt s' h /\
             forall k, s' k = s k.
Proof.
  destruct (swap_spec self other s h) as (s1 & Hrun1 & Hs1).
  destruct (swap_spec self other s1 h) as (s2 & Hrun2 & Hs2).
  exists s2. split.
  - unfold mbind, M2_bind. by rewrite Hrun1.
  - intros k. rewrite Hs2, !Hs1. rewrite !Nat.eqb_refl.
    destruct (Nat.eqb_spec k other) as [->|Hko];
      [|destruct (Nat.eqb_spec k self) as [->|Hks]; [|done]];
      destruct propagate_on_container_swap; rewrite ?Hs1, ?Nat.eqb_refl;
      repeat match goal with
             | |- context [Nat.eqb ?a ?b] =>
                 destruct (Nat.eqb_spec a b); try congruence
             end;
      subst; simpl;
      first [by destruct (s other) | by destruct (s self)].
Qed.


(** ** Move construction *)

(** X13: the move constructor hands the source's storage, elements, size,
    capacity and allocator to the new object and leaves the source null
    with size 0 and capacity 0; destroying the moved-from source then does
    nothing at all. *)
Theorem move_constructor_transfers (other : vector) (h : @heap V) :
  exists v o,
    vector_move other = (v, o) /\
    (elems h v = elems h other /\ size v = size other /\
     capacity v = capacity other /\ m_alloc v = m_alloc other) /\
    (owns_block h other -> owns_block h v) /\
    (size o = 0 /\ capacity o = 0 /\ owns_block h o) /\
    destructor o h = Ok tt o h.
Proof.
  eexists _, _. split; [reflexivity|]. split_and!; try done. by left.
Qed.


(** ** Copy assignment *)


Lemma destroy_excess_spec (self other : nat) (count : Z) fuel :
  forall (s : store) (h : @heap V),
  self <> other -> size (s other) = count -> 0 <= count ->
  m_begin (s self) + count <= m_end (s self) ->
  m_end (s self) - m_begin (s self) < size_t_modulus ->
  Z.to_nat (m_end (s self) - (m_begin (s self) + count)) = fuel ->
  exists s',
    destroy_excess fuel self other s h =
      Ok2 tt s' (destroy_down fuel (m_end (s self)) h) /\
    s' self = set_end (m_begin (s self) + count) (s self) /\
    s' other = s other.
Proof.
  induction fuel as [|fuel IH]; intros s h Hne Hc Hc0 Hle Hr Hk.
  - exists s. simpl. split_and!; try done.
    destruct (s self) as [b e r a]; unfold set_end; simpl in *.
    replace (b + count) with e by lia. done.
  - cbn [destroy_excess]. munfold2. store_simpl. rewrite Hc.
    assert (Hsz : size (s self) = m_end (s self) - m_begin (s self)).
    { unfold size. apply to_size_t_small. lia. }
    rewrite Hsz. destruct (Z.ltb_spec count (m_end (s self) - m_begin (s self))); [|lia].
    unfold pop_back at 1. store_simpl.
    set (s1 := store_set self _ _).
    assert (Hs1 : s1 self = set_end (m_end (s self) - 1) (s self))
      by (subst s1; by store_simpl).
    assert (Hs1o : s1 other = s other) by (subst s1; by store_simpl).
    destruct (IH s1 (traits_destroy (m_end (s self) - 1) h)) as (s' & Hrun & Hself & Hother).
    + done.
    + by rewrite Hs1o.
    + done.
    + rewrite Hs1. simpl. lia.
    + rewrite Hs1. simpl. lia.
    + rewrite Hs1. simpl. lia.
    + exists s'. rewrite Hs1 in Hrun. simpl in Hrun. rewrite Hrun.
      split_and!; try done.
      * rewrite Hself, Hs1. by destruct (s self).
      * by rewrite Hother.
Qed.


Lemma uninit_loop_constructs mode k : forall src dst (h : @heap V),
  exists l, Forall (fun ev => is_construct ev = true) l /\
    match uninit_loop mode k src dst h with
    | inl (h', _) => h_log h' = l ++ h_log h
    | inr (h', _) => h_log h' = l ++ h_log h
    end.
Proof.
  induction k as [|k IH]; intros src dst h; cbn [uninit_loop].
  - exists []. split; [constructor | done].
  - destruct (h_objs h !! src) as [x|].
    + destruct (relocate_value mode x) as [y|]; cbn [traits_construct].
      * set (h1 := Heap _ _ _ _ _).
        destruct (IH (src + 1) (dst + 1) h1) as (l & Hq & Hl).
        exists (l ++ [EvConstruct dst]). split.
        { apply Forall_app. split; [done|]. by repeat constructor. }
        destruct (uninit_loop _ _ _ _ _) as [[h' e]|[h' c]];
          rewrite Hl; subst h1; simpl; by rewrite <- app_assoc.
      * exists []. split; [constructor | done].
    + destruct (IH (src + 1) (dst + 1) (flag_ub h)) as (l & Hq & Hl).
      exists l. split; [done|].
      by destruct (uninit_loop _ _ _ _ _) as [[h' e]|[h' c]].
Qed.


Section CopyAssignmentProofs.
Context `{HA : Assignable V}.

Lemma copy_assign_each_spec k : forall p tmp v (h : @heap V),
  (forall i, 0 <= i < Z.of_nat k -> is_Some (h_objs h !! (tmp + i))) ->
  (forall i, 0 <= i < Z.of_nat k -> is_Some (h_objs h !! (p + i))) ->
  (tmp + Z.of_nat k <= p \/ p + Z.of_nat k <= tmp) ->
  match copy_assign_each k p tmp v h with
  | Ok r v' h' =>
      r = tmp + Z.of_nat k /\ v' = v /\
      (h_blocks h' = h_blocks h /\ h_next h' = h_next h /\ h_ub h' = h_ub h) /\
      (forall q, h_objs h' !! q =
         if decide (p <= q < p + Z.of_nat k)
         then h_objs h !! (tmp + (q - p)) else h_objs h !! q) /\
      exists l, h_log h' = l ++ h_log h /\
        Forall (fun ev => exists q, ev = EvAssign q /\ p <= q < p + Z.of_nat k) l
  | Throw e v' h' =>
      e = ElemExn /\ v' = v /\ h_blocks h' = h_blocks h /\
      (exists i x, 0 <= i < Z.of_nat k /\ h_objs h !! (tmp + i) = Some x /\
                   copy_assign_throws x = true) /\
      (forall q, ~ (p <= q < p + Z.of_nat k) -> h_objs h' !! q = h_objs h !! q)
  end.
Proof.
  induction k as [|k IH]; intros p tmp v h Hsrc Hdst Hdis.
  - simpl. rewrite Z.add_0_r. split_and!; try done.
    + intros q. case_decide; [lia | done].
    + exists []. split; [done | constructor].
  - cbn [copy_assign_each].
    destruct (Hsrc 0 ltac:(lia)) as [x Hx]. rewrite Z.add_0_r in Hx. rewrite Hx.
    destruct (copy_assign_throws x) eqn:Hthrows.
    { split_and!; try done. exists 0, x. rewrite Z.add_0_r. split_and!; [lia | lia | done | done]. }
    set (h1 := assign_at p x h).
    specialize (IH (p + 1) (tmp + 1) v h1).
    destruct (copy_assign_each k (p + 1) (tmp + 1) v h1) as [r v' h'|e v' h'].
    + destruct IH as (-> & -> & (Hb & Hn & Hub) & Ho & (l & Hl & Hf)).
      { intros i Hi. subst h1. simpl. rewrite lookup_insert_ne by lia.
        replace (tmp + 1 + i) with (tmp + (i + 1)) by lia. apply Hsrc. lia. }
      { intros i Hi. subst h1. simpl. rewrite lookup_insert_ne by lia.
        replace (p + 1 + i) with (p + (i + 1)) by lia. apply Hdst. lia. }
      { lia. }
      split_and!.
      * lia.
      * done.
      * by rewrite Hb.
      * by rewrite Hn.
      * rewrite Hub. subst h1. simpl.
        specialize (Hdst 0 ltac:(lia)). rewrite Z.add_0_r in Hdst.
        rewrite bool_decide_eq_true_2 by done. apply orb_false_r.
      * intros q. rewrite Ho. subst h1. simpl.
        destruct (decide (q = p)) as [->|Hqp].
        -- rewrite decide_False by lia. rewrite lookup_insert_eq.
           rewrite decide_True by lia. by rewrite Z.sub_diag, Z.add_0_r.
        -- repeat case_decide; try lia.
           ++ rewrite lookup_insert_ne by lia. f_equal. lia.
           ++ by rewrite lookup_insert_ne by lia.
      * exists (l ++ [EvAssign p]). split.
        -- rewrite Hl. subst h1. simpl. by rewrite <- app_assoc.
        -- apply Forall_app. split.
           ++ eapply Forall_impl; [exact Hf|]. intros ev (q & -> & Hq).
              exists q. split; [done | lia].
           ++ repeat constructor. exists p. split; [done | lia].
    + destruct IH as (-> & -> & Hb & (i & y & Hi & Hy & Hty) & Ho).
      { intros i Hi. subst h1. simpl. rewrite lookup_insert_ne by lia.
        replace (tmp + 1 + i) with (tmp + (i + 1)) by lia. apply Hsrc. lia. }
      { intros i Hi. subst h1. simpl. rewrite lookup_insert_ne by lia.
        replace (p + 1 + i) with (p + (i + 1)) by lia. apply Hdst. lia. }
      { lia. }
      split_and!; try done.
      * exists (i + 1), y. split_and!; [lia | lia | | done].
        subst h1. simpl in Hy. rewrite lookup_insert_ne in Hy by lia.
        rewrite <- Hy. f_equal. lia.
      * intros q Hq. rewrite Ho by lia. subst h1. simpl.
        by rewrite lookup_insert_ne by lia.
Qed.

(** X15: copy assignment between two distinct well-formed containers with
    disjoint storage, without allocator propagation, when the source is
    not longer than the target.  When it returns, the target has the
    source's size and element values on its old block and capacity, the
    source is unchanged, no block was allocated or released, and the only
    calls made are assignments onto the target's first [other.size()]
    slots and destructions of its excess elements.  When an element's
    copy assignment throws, the exception leaves the function: the excess
    elements are already destroyed, so the target has the source's size
    on its old block, the source and the live blocks are as before (and
    nothing is stated of the target's element values).  It returns
    normally when no copy assignment from a source element throws. *)
Theorem copy_assign_within_size (allocate_empty : Z -> @M V unit)
    (self other : nat) (s : store) (h : @heap V) :
  propagate_on_container_copy_assignment = false ->
  self <> other ->
  heap_ok h -> vec_ok h (s self) -> vec_ok h (s other) ->
  (m_end (s self) <= m_begin (s other) \/ m_end (s other) <= m_begin (s self)) ->
  size (s other) <= size (s self) ->
  (forall s' h', copy_assign allocate_empty self other s h = Ok2 tt s' h' ->
     (size (s' self) = size (s other) /\ capacity (s' self) = capacity (s self) /\
      m_begin (s' self) = m_begin (s self)) /\
     (elems h' (s' self) = elems h (s other) /\
      elems h' (s' other) = elems h (s other) /\ s' other = s other) /\
     (h_blocks h' = h_blocks h /\ h_next h' = h_next h /\ h_ub h' = h_ub h) /\
     Forall (fun ev =>
               exists p, m_begin (s self) <= p < m_end (s self) /\
                 (ev = EvAssign p /\ p < m_begin (s self) + size (s other) \/
                  ev = EvDestroy p /\ m_begin (s self) + size (s other) <= p))
            (new_events h h')) /\
  (forall e s' h', copy_assign allocate_empty self other s h = Throw2 e s' h' ->
     e = ElemExn /\
     (exists x, Some x ∈ elems h (s other) /\ copy_assign_throws x = true) /\
     (size (s' self) = size (s other) /\ capacity (s' self) = capacity (s self) /\
      m_begin (s' self) = m_begin (s self)) /\
     (s' other = s other /\ elems h' (s other) = elems h (s other)) /\
     h_blocks h' = h_blocks h) /\
  ((forall x, Some x ∈ elems h (s other) -> copy_assign_throws x = false) ->
   exists s' h', copy_assign allocate_empty self other s h = Ok2 tt s' h').
Proof.
  intros Hp Hne Hh Hself Hother Hdis Hle.
  pose proof addr_max_lt as Hmax.
  pose proof (size_ok _ _ Hh Hself) as Hsz.
  pose proof (size_ok _ _ Hh Hother) as Hosz.
  pose proof (capacity_ok _ _ Hh Hself) as Hcap.
  destruct Hh as ((Hn0 & Hn1) & Hblk & Hobj).
  destruct Hself as ((Hb0 & Hbe) & (Her & Hrn) & Hlive).
  destruct Hother as ((Hob0 & Hobe) & (Hoer & Horn) & Holive).
  unfold copy_assign. rewrite Hp.
  destruct (Nat.eqb_spec self other) as [?|_]; [done|].
  munfold2. store_simpl.
  destruct (Z.gtb_spec (size (s other)) (capacity (s self))); [lia|].
  match goal with
  | |- context [destroy_excess ?f self other ?st h] =>
      destruct (destroy_excess_spec self other (size (s other)) f st h)
        as (s2 & Hrun & Hs2 & Hs2o)
  end; try done; store_simpl; try lia.
  repeat first [rewrite store_set_same in Hrun, Hs2, Hs2o
               |rewrite store_set_other in Hrun, Hs2, Hs2o by congruence].
  rewrite Hrun. clear Hrun. store_simpl. rewrite Hs2, Hs2o. store_simpl. simpl.
  set (k := Z.to_nat (size (s self) - size (s other))).
  set (h1 := destroy_down k (m_end (s self)) h).
  assert (Hk : Z.of_nat k = m_end (s self) - (m_begin (s self) + size (s other)))
    by (subst k; lia).
  destruct (destroy_down_frame k (m_end (s self)) h) as [Hb1 Hn1'].
  fold h1 in Hb1, Hn1'.
  assert (Ho1 : forall q, h_objs h1 !! q =
            if decide (m_begin (s self) + size (s other) <= q < m_end (s self))
            then None else h_objs h !! q).
  { intros q. subst h1. rewrite destroy_down_objs.
    repeat case_decide; try lia; done. }
  assert (Hub1 : h_ub h1 = h_ub h).
  { subst h1. apply destroy_down_ub. intros q Hq. apply Hlive. lia. }
  assert (Hl1 : h_log h1 = down_events k (m_end (s self)) ++ h_log h)
    by (subst h1; apply destroy_down_events).
  replace (m_begin (s self) + size (s other) - m_begin (s self))
    with (size (s other)) by lia.
  pose proof (copy_assign_each_spec (Z.to_nat (size (s other)))
                (m_begin (s self)) (m_begin (s other))
                (set_end (m_begin (s self) + size (s other)) (s self)) h1)
    as Hspec.
  rewrite Z2Nat.id in Hspec by lia.
  assert (Hsz' : size (set_end (m_begin (s self) + size (s other)) (s self))
                 = size (s other)).
  { unfold size at 1. simpl. rewrite to_size_t_small; lia. }
  destruct (copy_assign_each _ _ _ _ _) as [r v2 h2|e v2 h2].
  - destruct Hspec as (-> & -> & (Hb2 & Hn2 & Hub2) & Ho2 & (l & Hl2 & Hf2)).
    { intros i Hi. rewrite Ho1. case_decide; [lia|]. apply Holive. lia. }
    { intros i Hi. rewrite Ho1. case_decide; [lia|]. apply Hlive. lia. }
    { lia. }
    store_simpl. simpl.
    replace (m_end (s other) - (m_begin (s other) + size (s other))) with 0 by lia.
    simpl. split_and!; [|discriminate|eauto].
    intros s' h' [= <- <-]. store_simpl.
    split_and!; try done.
    + apply elems_eq; [done|]. intros i Hi. simpl. rewrite Ho2.
      case_decide; [|lia]. rewrite Ho1. case_decide; [lia|]. f_equal. lia.
    + apply elems_eq; [done|]. intros i Hi. rewrite Ho2.
      case_decide; [lia|]. rewrite Ho1. case_decide; [lia | done].
    + by rewrite Hb2.
    + by rewrite Hn2.
    + by rewrite Hub2.
    + rewrite (new_events_app h h2 (l ++ down_events k (m_end (s self)))).
      2:{ rewrite Hl2, Hl1. by rewrite <- app_assoc. }
      apply Forall_app. split.
      * eapply Forall_impl; [exact Hf2|]. intros ev (q & -> & Hq).
        exists q. split; [lia|]. left. split; [done | lia].
      * eapply Forall_impl; [apply down_events_destroy|]. intros ev (q & -> & Hq).
        exists q. split; [lia|]. right. split; [done | lia].
  - destruct Hspec as (-> & -> & Hb2 & (i & x & Hi & Hx & Hthrows) & Ho2).
    { intros i Hi. rewrite Ho1. case_decide; [lia|]. apply Holive. lia. }
    { intros i Hi. rewrite Ho1. case_decide; [lia|]. apply Hlive. lia. }
    { lia. }
    assert (Hin : Some x ∈ elems h (s other)).
    { rewrite Ho1 in Hx. case_decide; [lia|].
      eapply elem_of_elems; [lia | | exact Hx]. lia. }
    split_and!; [discriminate| |].
    + intros e' s' h' [= <- <- <-]. store_simpl.
      split_and!; try done.
      * eauto.
      * apply elems_eq; [done|]. intros j Hj. rewrite Ho2 by lia.
        rewrite Ho1. case_decide; [lia | done].
      * by rewrite Hb2.
    + intros Hnone. apply Hnone in Hin. congruence.
Qed.

(** X16: copy assignment without allocator propagation when the source is
    longer than the target's capacity.  On a normal return the target
    holds copies of the source's elements in a new block of exactly
    [other.size()] slots, its old block is released, and the source is
    unchanged; no destructor is called, so the target's former elements
    are still recorded as live objects.  On a throw both objects, the
    live objects and the live blocks are as before.  It returns normally
    when the allocator can serve the request and no copy throws. *)
Theorem copy_assign_reallocates (allocate_empty : Z -> @M V unit)
    (self other : nat) (s : store) (h : @heap V) :
  propagate_on_container_copy_assignment = false ->
  self <> other ->
  heap_ok h -> vec_ok h (s self) -> vec_ok h (s other) -> owns_block h (s self) ->
  capacity (s self) < size (s other) ->
  (forall s' h', copy_assign allocate_empty self other s h = Ok2 tt s' h' ->
     (size (s' self) = size (s other) /\ capacity (s' self) = size (s other)) /\
     (elems h' (s' self) = elems h (s other) /\
      elems h' (s' other) = elems h (s other) /\ s' other = s other) /\
     h_blocks h' =
       <[m_begin (s' self) := size (s other)]>
         (delete (m_begin (s self)) (h_blocks h)) /\
     (forall p, m_begin (s self) <= p < m_end (s self) ->
                h_objs h' !! p = h_objs h !! p) /\
     Forall (fun ev => is_destroy ev = false /\ is_assign ev = false)
            (new_events h h') /\
     h_ub h' = h_ub h) /\
  (forall e s' h', copy_assign allocate_empty self other s h = Throw2 e s' h' ->
     s' self = s self /\ s' other = s other /\
     h_objs h' = h_objs h /\ h_blocks h' = h_blocks h) /\
  (size (s other) <= a_limit (m_alloc (s self)) ->
   h_next h + Z.max (size (s other)) 1 <= addr_max ->
   (forall x, Some x ∈ elems h (s other) -> copy_throws x = false) ->
   exists s' h', copy_assign allocate_empty self other s h = Ok2 tt s' h').
Proof.
  intros Hp Hne Hh Hself Hother Hown Hgt.
  pose proof addr_max_lt as Hmax.
  pose proof (size_ok _ _ Hh Hself) as Hsz.
  pose proof (size_ok _ _ Hh Hother) as Hosz.
  pose proof (capacity_ok _ _ Hh Hself) as Hcap.
  pose proof (owns_block_capacity _ _ Hh Hself Hown) as Hblock.
  destruct Hh as ((Hn0 & Hn1) & Hblk & Hobj).
  destruct Hself as ((Hb0 & Hbe) & (Her & Hrn) & Hlive).
  destruct Hother as ((Hob0 & Hobe) & (Hoer & Horn) & Holive).
  unfold copy_assign. rewrite Hp.
  destruct (Nat.eqb_spec self other) as [?|_]; [done|].
  unfold uninitialized_copy, uninitialized_relocate, allocate_tmp.
  munfold2. store_simpl.
  destruct (Z.gtb_spec (size (s other)) (capacity (s self))); [|lia].
  store_simpl.
  destruct (traits_allocate (m_alloc (s self)) (size (s other)) h)
    as [[tmp|] h1] eqn:Ha.
  2:{ pose proof Ha as Ha'. apply traits_allocate_None in Ha' as ->.
      split_and!.
      - intros s' h'. destruct (_ >? _); discriminate.
      - intros e s' h' Hrun.
        assert (s' = store_set self (s self)
                       (store_set self (s self)
                          (store_set self (s self) (store_set other (s other) s)))
                /\ h' = log_event (EvAllocate (a_id (m_alloc (s self)))
                                     (size (s other))) h) as [-> ->].
        { destruct (_ >? _); by injection Hrun as <- <- <-. }
        by store_simpl.
      - intros Hlim Hroom _. exfalso.
        unfold traits_allocate in Ha.
        destruct (Z.leb_spec (size (s other)) (a_limit (m_alloc (s self)))); [|lia].
        destruct (Z.leb_spec (h_next h + Z.max (size (s other)) 1) addr_max); [|lia].
        discriminate. }
  apply traits_allocate_Some in Ha as (-> & Ho1 & Hn1' & Hb1 & Hl1 & Hub1 & Hlim & Hroom).
  store_simpl.
  assert (Hsrc : forall i,
            0 <= i < Z.of_nat (Z.to_nat (m_end (s other) - m_begin (s other))) ->
            is_Some (h_objs h1 !! (m_begin (s other) + i))).
  { intros i Hi. rewrite Ho1. apply Holive. lia. }
  pose proof (uninit_loop_spec ByCopy (Z.to_nat (m_end (s other) - m_begin (s other)))
                (m_begin (s other)) (h_next h) h1 Hsrc ltac:(lia)) as Hloop.
  pose proof (uninit_loop_ub ByCopy (Z.to_nat (m_end (s other) - m_begin (s other)))
                (h_next h) (size (s other)) (m_begin (s other)) (h_next h) h1) as Hub2.
  rewrite Hb1, lookup_insert_eq in Hub2.
  specialize (Hub2 eq_refl ltac:(lia) ltac:(lia) Hsrc ltac:(lia)).
  destruct (uninit_loop_constructs ByCopy
              (Z.to_nat (m_end (s other) - m_begin (s other)))
              (m_begin (s other)) (h_next h) h1) as (l & Hlc & Hl2).
  rewrite Z2Nat.id in Hloop by lia.
  destruct (uninit_loop _ _ _ _ _) as [[h2 e]|[h2 cur]].
  - destruct Hloop as (-> & Hb2 & Hn2 & Ho2). store_simpl. simpl.
    split_and!; [|discriminate|eauto].
    intros s' h' [= <- <-]. store_simpl. simpl.
    destruct (traits_deallocate_frame (m_alloc (s self)) (m_begin (s self))
                (capacity (s self)) h2) as [Hod Hnd].
    assert (Hs' : forall r a,
              size (Vector (h_next h) (h_next h + size (s other)) r a)
              = size (s other)).
    { intros r a. unfold size at 1. simpl. rewrite to_size_t_small; lia. }
    split_and!.
    + apply Hs'.
    + unfold capacity. simpl. rewrite to_size_t_small; lia.
    + apply elems_eq; [apply Hs'|]. intros i Hi. simpl.
      rewrite Hod, Ho2, Ho1. case_decide; [|lia]. f_equal. lia.
    + apply elems_eq; [done|]. intros i Hi.
      rewrite Hod, Ho2, Ho1. case_decide; [lia | done].
    + done.
    + simpl. unfold traits_deallocate. rewrite Hb2, Hb1.
      destruct Hblock as [Hnull|Hblock].
      * rewrite Hnull. rewrite lookup_insert_ne by (unfold nullptr; lia).
        assert (Hnone : h_blocks h !! nullptr = None).
        { destruct (h_blocks h !! nullptr) as [n|] eqn:E; [|done].
          apply Hblk in E. unfold nullptr in E. lia. }
        rewrite Hnone. simpl. rewrite Hb2, Hb1. by rewrite delete_id.
      * assert (m_begin (s self) <> h_next h).
        { apply Hblk in Hblock. lia. }
        rewrite lookup_insert_ne by done. rewrite Hblock. simpl.
        rewrite Hb2, Hb1. by rewrite delete_insert_ne.
    + intros p Hp'. rewrite Hod, Ho2, Ho1. case_decide; [lia | done].
    + rewrite (new_events_app h _
                 (EvDeallocate (a_id (m_alloc (s self))) (m_begin (s self))
                    (capacity (s self)) :: l ++ [EvAllocate (a_id (m_alloc (s self)))
                                                  (size (s other))])).
      2:{ rewrite traits_deallocate_log, Hl2, Hl1. simpl. by rewrite <- app_assoc. }
      constructor; [done|]. apply Forall_app. split.
      * eapply Forall_impl; [exact Hlc|]. intros ev Hev. by destruct ev.
      * by repeat constructor.
    + unfold traits_deallocate. rewrite Hb2, Hb1.
      destruct Hblock as [Hnull|Hblock].
      * rewrite Hnull. rewrite lookup_insert_ne by (unfold nullptr; lia).
        assert (Hnone : h_blocks h !! nullptr = None).
        { destruct (h_blocks h !! nullptr) as [n|] eqn:E; [|done].
          apply Hblk in E. unfold nullptr in E. lia. }
        rewrite Hnone. simpl. by rewrite Hub2.
      * assert (m_begin (s self) <> h_next h).
        { apply Hblk in Hblock. lia. }
        rewrite lookup_insert_ne by done. rewrite Hblock. simpl.
        rewrite Hub2, Hub1, Z.eqb_refl. apply orb_false_r.
  - destruct Hloop as (Hc & Hb2 & Hn2 & (x & Hx & Hr) & Ho2). store_simpl.
    split_and!; [discriminate| |].
    + intros e' s' h' [= <- <- <-]. store_simpl. split_and!; try done.
      * destruct (traits_deallocate_frame (m_alloc (s self)) (h_next h)
                    (size (s other))
                    (destroy_range (Z.to_nat (cur - h_next h)) (h_next h) h2))
          as [-> _].
        apply map_eq. intros q. rewrite destroy_range_objs, Ho2, Ho1.
        rewrite Z2Nat.id by lia.
        repeat case_decide; try lia; try done.
        symmetry. destruct (h_objs h !! q) eqn:E; [|done].
        assert (q < h_next h) by (apply Hobj; eauto). lia.
      * apply traits_deallocate_fresh; [|done].
        destruct (destroy_range_frame (Z.to_nat (cur - h_next h)) (h_next h) h2)
          as [-> _]. by rewrite Hb2, Hb1.
    + intros _ _ Hcopy. exfalso.
      assert (Hin : Some x ∈ elems h (s other)).
      { rewrite Ho1 in Hx. eapply elem_of_elems; [lia | | exact Hx]. lia. }
      apply Hcopy in Hin. simpl in Hr. by rewrite Hin in Hr.
Qed.

End CopyAssignmentProofs.

(** ** resize with a fill value *)

Lemma construct_until_args fuel args : forall cur limit v (h : @heap V),
  Z.to_nat (limit - cur) = fuel ->
  match construct_until fuel cur limit args v h with
  | Ok e v' h' =>
      e = Z.max cur limit /\ v' = v /\
      (cur < limit -> exists d, run_ctor args = Some d) /\
      (forall p, h_objs h' !! p =
         if decide (cur <= p < limit) then run_ctor args else h_objs h !! p)
  | Throw _ _ _ => cur < limit /\ run_ctor args = None
  end.
Proof.
  induction fuel as [|fuel IH]; intros cur limit v h Hf; simpl.
  - unfold mret, M_ret. split_and!; [lia | done | lia |].
    intros p. case_decide; [lia | done].
  - destruct (Z.ltb_spec cur limit); [|lia].
    unfold mbind, M_bind, construct at 1.
    destruct (run_ctor args) as [d|] eqn:Hd; cbn [traits_construct]; [|done].
    set (h1 := Heap _ _ _ _ _).
    specialize (IH (cur + 1) limit v h1 ltac:(lia)).
    destruct (construct_until fuel (cur + 1) limit args v h1) as [e v' h'|? ? ?].
    + destruct IH as (-> & -> & _ & Ho).
      split_and!; [lia | done | eauto |].
      intros p. rewrite Ho. subst h1. simpl. rewrite lookup_insert.
      repeat case_decide; try lia; done.
    + destruct IH as (_ & IH). congruence.
Qed.

Lemma resize_fill_eq count value v (h : @heap V) :
  count > capacity v ->
  resize_fill count value v h =
  match traits_allocate (m_alloc v) count h with
  | (Some tmp, h1) =>
      match construct_until (Z.to_nat (tmp + count - (tmp + size v)))
              (tmp + size v) (tmp + count) (FromValue value) v h1 with
      | Ok _ v2 h2 =>
          match uninit_loop ByMoveIfNoexcept (Z.to_nat (m_end v2 - m_begin v2))
                  (m_begin v2) tmp h2 with
          | inl (h3, e) =>
              match deallocate v2 h3 with
              | Ok _ v3 h4 =>
                  Ok tt (set_realend (tmp + count) (set_end e (set_begin tmp v3))) h4
              | Throw ex v3 h4 =>
                  Throw ex v3 (traits_deallocate (m_alloc v) tmp count h4)
              end
          | inr (h3, cur) =>
              Throw ElemExn v2
                (traits_deallocate (m_alloc v) tmp count
                   (destroy_range (Z.to_nat (cur - tmp)) tmp h3))
          end
      | Throw ex v2 h2 =>
          Throw ex v2 (traits_deallocate (m_alloc v) tmp count h2)
      end
  | (None, h1) =>
      if count >? max_size v then Throw LengthError v h1 else Throw BadAlloc v h1
  end.
Proof.
  intros Hgt. unfold resize_fill, allocate_tmp,
    uninitialized_move_if_noexcept_launder, uninitialized_relocate. munfold.
  destruct (Z.gtb_spec count (capacity v)); [|lia].
  destruct (traits_allocate (m_alloc v) count h) as [[tmp|] h1];
    [|by destruct (_ >? _)].
  destruct (construct_until _ _ _ _ _ _) as [e' v2 h2|ex v2 h2]; [|done].
  destruct (uninit_loop _ _ _ _ _) as [[h3 e]|[h3 cur]]; [|done].
  destruct (deallocate v2 h3); done.
Qed.

(** X17: [resize(count, value)] on a well-formed container never adds an
    element: whenever it returns, the size is [min(size(), count)], the
    capacity is [max(capacity(), count)] and the elements are the first
    [count] of the former ones.  In the reallocating branch the copies of
    [value] are built, but past [m_end], which is set from what the
    relocation returns. *)
Theorem resize_fill_never_grows
    (count : Z) (value : V) (v v' : vector) (h h' : @heap V) :
  heap_ok h -> vec_ok h v -> 0 <= count ->
  resize_fill count value v h = Ok tt v' h' ->
  size v' = Z.min (size v) count /\
  capacity v' = Z.max (capacity v) count /\
  elems h' v' = take (Z.to_nat count) (elems h v) /\
  (capacity v < count ->
   forall p, m_end v' <= p < m_realend v' -> h_objs h' !! p = Some value).
Proof.
  intros Hh Hv Hc. pose proof (size_ok _ _ Hh Hv) as Hsz.
  pose proof (capacity_ok _ _ Hh Hv) as Hcap.
  destruct Hh as ((Hn0 & Hn1) & Hblk & Hobj).
  destruct Hv as ((Hb0 & Hbe) & (Her & Hrn) & Hlive).
  pose proof addr_max_lt as Hmax.
  destruct (Z.lt_ge_cases (capacity v) count) as [Hgt|Hle].
  - rewrite resize_fill_eq by lia.
    destruct (traits_allocate (m_alloc v) count h) as [[tmp|] h1] eqn:Ha.
    2:{ destruct (_ >? _); discriminate. }
    apply traits_allocate_Some in Ha
      as (-> & Ho1 & Hn1' & Hb1 & Hl1 & _ & Hlim & Hroom).
    pose proof (construct_until_args
                  (Z.to_nat (h_next h + count - (h_next h + size v)))
                  (FromValue value) (h_next h + size v) (h_next h + count) v h1
                  eq_refl) as Hfill.
    destruct (construct_until _ _ _ _ _ _) as [e' v2 h2|ex v2 h2]; [|discriminate].
    destruct Hfill as (_ & -> & Hdef & Ho2).
    destruct Hdef as [d Hd]; [lia|].
    assert (d = value) as -> by (cbn [run_ctor] in Hd; by apply relocate_value_Some in Hd).
    rewrite Hd in Ho2.
    pose proof (uninit_loop_spec ByMoveIfNoexcept (Z.to_nat (m_end v - m_begin v))
                  (m_begin v) (h_next h) h2) as Hloop.
    rewrite Z2Nat.id in Hloop by lia.
    destruct (uninit_loop _ _ _ _ _) as [[h3 e]|[h3 cur]]; [|discriminate].
    destruct Hloop as (-> & Hb3 & Hn3 & Ho3).
    { intros i Hi. rewrite Ho2, Ho1. case_decide; [|apply Hlive; lia].
      assert (m_begin v + i < h_next h) by lia. lia. }
    { lia. }
    rewrite deallocate_spec by lia.
    intros [= <- <-].
    assert (Hs' : size (set_realend (h_next h + count)
                    (set_end (h_next h + (m_end v - m_begin v))
                       (set_begin (h_next h) (set_end (m_begin v) v)))) = size v).
    { unfold size at 1. simpl. rewrite to_size_t_small; lia. }
    split_and!.
    + rewrite Hs'. lia.
    + unfold capacity at 1. simpl. rewrite to_size_t_small; lia.
    + rewrite take_ge by (rewrite elems_length; lia).
      apply elems_eq; [done|]. intros i Hi. simpl.
      rewrite release_objs, Ho3, !Ho2, !Ho1.
      repeat case_decide; try lia. f_equal. lia.
    + intros _ p Hp. simpl in Hp. rewrite release_objs, Ho3, !Ho2.
      simpl. repeat case_decide; try lia. done.
  - unfold resize_fill. munfold.
    destruct (Z.gtb_spec count (capacity v)); [lia|].
    destruct (Z.gtb_spec count (size v)) as [Hgrow|Hshrink].
    + destruct (Z.to_nat (count - size v)); simpl.
      * intros [= <- <-]. split_and!; try lia.
        rewrite take_ge by (rewrite elems_length; lia). done.
      * destruct (Z.gtb_spec (size v) count); [lia|].
        intros [= <- <-]. split_and!; try lia.
        rewrite take_ge by (rewrite elems_length; lia). done.
    + rewrite (pop_until count) by lia.
      intros [= <- <-].
      assert (Hs' : size (set_end (m_begin v + count) v) = count).
      { unfold size. simpl. rewrite to_size_t_small by lia. lia. }
      split_and!; try lia.
      * unfold capacity. simpl. fold (capacity v). lia.
      * apply list_eq. intros i.
        rewrite lookup_take, !elems_lookup, Hs'. simpl.
        rewrite destroy_down_objs.
        repeat case_decide; try lia; done.
Qed.


(** ** emplace *)

Lemma emplace_eq pos args v (h : @heap V) :
  pos <> m_end v -> m_end v = m_realend v ->
  emplace pos args v h =
  let newcap := to_size_t (size v * 2) in
  match traits_allocate (m_alloc v) newcap h with
  | (Some tmp, h1) =>
      match traits_construct (tmp + (pos - m_begin v)) (run_ctor args) h1 with
      | Some h2 =>
          match uninit_loop ByMoveIfNoexcept (Z.to_nat (pos - m_begin v))
                  (m_begin v) tmp h2 with
          | inl (h3, _) =>
              match uninit_loop ByMoveIfNoexcept (Z.to_nat (m_end v - pos))
                      pos (tmp + (pos - m_begin v) + 1) h3 with
              | inl (h4, _) =>
                  Ok (tmp + (pos - m_begin v))
                     (set_realend (tmp + newcap)
                        (set_end (tmp + size v + 1) (set_begin tmp v)))
                     (traits_deallocate (m_alloc v) (m_begin v) (capacity v) h4)
              | inr (h4, cur) =>
                  Throw ElemExn v
                    (traits_deallocate (m_alloc v) tmp newcap
                       (destroy_range
                          (Z.to_nat (cur - (tmp + (pos - m_begin v) + 1)))
                          (tmp + (pos - m_begin v) + 1) h4))
              end
          | inr (h3, cur) =>
              Throw ElemExn v
                (traits_deallocate (m_alloc v) tmp newcap
                   (destroy_range (Z.to_nat (cur - tmp)) tmp h3))
          end
      | None => Throw ElemExn v (traits_deallocate (m_alloc v) tmp newcap h1)
      end
  | (None, h1) =>
      if newcap >? max_size v then Throw LengthError v h1 else Throw BadAlloc v h1
  end.
Proof.
  intros Hpos Hfull. unfold emplace, allocate_tmp, construct,
    uninitialized_move_if_noexcept_launder, uninitialized_relocate. munfold.
  destruct (Z.eqb_spec pos (m_end v)); [done|].
  destruct (Z.eqb_spec (m_end v) (m_realend v)); [|done].
  cbv zeta.
  destruct (traits_allocate (m_alloc v) (to_size_t (size v * 2)) h) as [[tmp|] h1];
    [|by destruct (_ >? _)].
  destruct (traits_construct _ _ _) as [h2|]; [|done].
  destruct (uninit_loop _ _ _ _ _) as [[h3 e3]|[h3 cur]]; [|done].
  destruct (uninit_loop _ _ _ _ _) as [[h4 e4]|[h4 cur]]; done.
Qed.

(** X18: [emplace(pos, args...)] before an existing element of a full
    well-formed container (no spare capacity).  When it returns, the
    element was constructible, the result points at the new element in
    the new storage, the size has grown by one on twice the old size as
    capacity, and the elements are the former ones with the new element
    inserted at [pos]'s index. *)
Theorem emplace_reallocating_inserts
    (pos : Z) (args : ctor_args V) (v v' : vector) (h h' : @heap V) (r : Z) :
  heap_ok h -> vec_ok h v ->
  m_end v = m_realend v -> m_begin v <= pos < m_end v ->
  emplace pos args v h = Ok r v' h' ->
  exists x,
    run_ctor args = Some x /\
    r = m_begin v' + (pos - m_begin v) /\
    size v' = size v + 1 /\ capacity v' = 2 * size v /\
    elems h' v' =
      take (Z.to_nat (pos - m_begin v)) (elems h v) ++
      Some x :: drop (Z.to_nat (pos - m_begin v)) (elems h v).
Proof.
  intros Hh Hv Hfull Hpos. pose proof (size_ok _ _ Hh Hv) as Hsz.
  destruct Hh as ((Hn0 & Hn1) & Hblk & Hobj).
  destruct Hv as ((Hb0 & Hbe) & (Her & Hrn) & Hlive).
  pose proof addr_max_lt as Hmax.
  assert (Hmod : size_t_modulus = 2 * (addr_max + 1)) by reflexivity.
  rewrite emplace_eq by (done || lia). cbv zeta.
  assert (Hcap2 : to_size_t (size v * 2) = 2 * size v).
  { rewrite to_size_t_small; lia. }
  rewrite Hcap2.
  destruct (traits_allocate (m_alloc v) (2 * size v) h) as [[tmp|] h1] eqn:Ha.
  2:{ destruct (_ >? _); discriminate. }
  apply traits_allocate_Some in Ha
    as (-> & Ho1 & Hn1' & Hb1 & Hl1 & _ & Hlim & Hroom).
  destruct (run_ctor args) as [x|] eqn:Hx; cbn [traits_construct]; [|discriminate].
  set (h2 := Heap _ _ _ _ _).
  assert (Ho2 : forall q, h_objs h2 !! q =
            if decide (q = h_next h + (pos - m_begin v)) then Some x
            else h_objs h !! q).
  { intros q. subst h2. simpl. rewrite lookup_insert, Ho1.
    repeat case_decide; try done; lia. }
  pose proof (uninit_loop_spec ByMoveIfNoexcept (Z.to_nat (pos - m_begin v))
                (m_begin v) (h_next h) h2) as Hloop.
  rewrite Z2Nat.id in Hloop by lia.
  destruct (uninit_loop _ _ _ _ _) as [[h3 e3]|[h3 cur]]; [|discriminate].
  destruct Hloop as (_ & Hb3 & Hn3 & Ho3).
  { intros i Hi. rewrite Ho2. case_decide; [lia|]. apply Hlive. lia. }
  { lia. }
  pose proof (uninit_loop_spec ByMoveIfNoexcept (Z.to_nat (m_end v - pos))
                pos (h_next h + (pos - m_begin v) + 1) h3) as Hloop.
  rewrite Z2Nat.id in Hloop by lia.
  destruct (uninit_loop _ _ _ _ _) as [[h4 e4]|[h4 cur]]; [|discriminate].
  destruct Hloop as (_ & Hb4 & Hn4 & Ho4).
  { intros i Hi. rewrite Ho3. case_decide; [lia|].
    rewrite Ho2. case_decide; [lia|]. apply Hlive. lia. }
  { lia. }
  intros [= <- <- <-]. exists x.
  destruct (traits_deallocate_frame (m_alloc v) (m_begin v) (capacity v) h4)
    as [Hod _].
  assert (Hs' : size (set_realend (h_next h + 2 * size v)
                  (set_end (h_next h + size v + 1) (set_begin (h_next h) v)))
                = size v + 1).
  { unfold size at 1. simpl. rewrite to_size_t_small; lia. }
  split_and!; try done.
  - unfold capacity. simpl. rewrite to_size_t_small; lia.
  - assert (Hfin : forall j, 0 <= j < size v + 1 ->
              h_objs h4 !! (h_next h + j) =
              if decide (j < pos - m_begin v) then h_objs h !! (m_begin v + j)
              else if decide (j = pos - m_begin v) then Some x
              else h_objs h !! (m_begin v + (j - 1))).
    { intros j Hj. rewrite Ho4.
      case_decide; rewrite Ho3; case_decide; try lia; rewrite Ho2;
        repeat case_decide; try lia; try done; f_equal; lia. }
    apply list_eq. intros i.
    rewrite elems_lookup, Hs'. simpl. rewrite Hod.
    rewrite lookup_app, lookup_take, length_take, elems_length, elems_lookup.
    destruct (decide (i < Z.to_nat (pos - m_begin v))%nat) as [Hlt|Hge].
    + rewrite decide_True by lia. rewrite decide_True by lia.
      rewrite Hfin by lia. by rewrite decide_True by lia.
    + replace (i - Z.to_nat (pos - m_begin v) `min` Z.to_nat (size v))%nat
        with (i - Z.to_nat (pos - m_begin v))%nat by lia.
      destruct (decide (i = Z.to_nat (pos - m_begin v))) as [->|Hne].
      * rewrite Nat.sub_diag. simpl. rewrite decide_True by lia.
        rewrite Hfin by lia. rewrite decide_False by lia.
        by rewrite decide_True by lia.
      * destruct (i - Z.to_nat (pos - m_begin v))%nat as [|j] eqn:Hj; [lia|].
        simpl. rewrite lookup_drop, elems_lookup.
        case_decide.
        -- rewrite Hfin by lia. rewrite decide_False by lia.
           rewrite decide_False by lia. rewrite decide_True by lia.
           do 2 f_equal. lia.
        -- by rewrite decide_False by lia.
Qed.


(** ** Move assignment *)

(** X30: move assignment between two distinct well-formed containers with
    disjoint elements, when the move-propagation trait is set, or the
    allocators are always equal or compare equal.  It always returns.
    The target first takes the source's allocator if the trait is set and
    the allocators are unequal; then it destroys its own former elements,
    from the last to the first, and releases its block (if it has one)
    through the allocator it now holds; then it adopts the source's
    pointer triple.  These are the only calls made.  Afterwards the
    source is null with size 0 and capacity 0, the target holds exactly
    the source's former elements in order, the target's former elements
    are gone and no other object is touched, and if the target owned its
    block, the block is no longer live. *)
Theorem move_assign_adopts (self other : nat) (s : store) (h : @heap V) :
  self <> other ->
  heap_ok h -> vec_ok h (s self) -> vec_ok h (s other) ->
  (m_end (s self) <= m_begin (s other) \/ m_end (s other) <= m_begin (s self)) ->
  adopts_pointers (m_alloc (s self)) (m_alloc (s other)) = true ->
  exists s' h',
    move_assign self other s h = Ok2 tt s' h' /\
    (size (s' other) = 0 /\ capacity (s' other) = 0 /\
     m_begin (s' other) = nullptr) /\
    (m_begin (s' self) = m_begin (s other) /\ m_end (s' self) = m_end (s other) /\
     m_realend (s' self) = m_realend (s other)) /\
    m_alloc (s' self) =
      (if propagate_on_container_move_assignment &&
          (negb is_always_equal && alloc_neq (m_alloc (s self)) (m_alloc (s other)))
       then m_alloc (s other) else m_alloc (s self)) /\
    (is_always_equal = true \/
     a_id (m_alloc (s' self)) = a_id (m_alloc (s other))) /\
    elems h' (s' self) = elems h (s other) /\
    (forall p, h_objs h' !! p =
       if decide (m_begin (s self) <= p < m_end (s self)) then None
       else h_objs h !! p) /\
    new_events h h' =
      (if negb (m_begin (s self) =? nullptr)
       then [EvDeallocate (a_id (m_alloc (s' self))) (m_begin (s self))
               (capacity (s self))]
       else []) ++
      down_events (Z.to_nat (size (s self))) (m_end (s self)) /\
    (owns_block h (s self) ->
     h_blocks h' = delete (m_begin (s self)) (h_blocks h)).
Proof.
  intros Hne Hh Hself Hother Hdis Hfast.
  pose proof addr_max_lt as Hmax.
  pose proof (size_ok _ _ Hh Hself) as Hsz.
  assert (Hcapown : owns_block h (s self) ->
            m_begin (s self) = nullptr \/
            h_blocks h !! m_begin (s self) = Some (capacity (s self)))
    by (intros Hown; by apply owns_block_capacity).
  destruct Hh as ((Hn0 & Hn1) & Hblk & Hobj).
  destruct Hself as ((Hb0 & Hbe) & (Her & Hrn) & Hlive).
  destruct Hother as ((Hob0 & Hobe) & (Hoer & Horn) & Holive).
  set (a' := if propagate_on_container_move_assignment &&
                (negb is_always_equal &&
                 alloc_neq (m_alloc (s self)) (m_alloc (s other)))
             then m_alloc (s other) else m_alloc (s self)).
  (* every fast branch is: maybe take the allocator, release, adopt *)
  assert (Hshape :
    (is_always_equal = true \/ a_id a' = a_id (m_alloc (s other))) /\
    exists s1, s1 self = set_alloc a' (s self) /\ s1 other = s other /\
    move_assign self other s h =
    (call self deallocate ;; adopt self other) s1 h).
  { unfold move_assign, adopts_pointers in *. subst a'.
    destruct propagate_on_container_move_assignment; cbn [andb].
    - munfold2. store_simpl.
      destruct (negb is_always_equal && alloc_neq (m_alloc (s self))
                  (m_alloc (s other))) eqn:Hc.
      + split; [by right|].
        eexists. split_and!; [| |reflexivity].
        * by store_simpl.
        * by store_simpl.
      + split.
        { apply andb_false_iff in Hc as [Hc|Hc].
          - left. by destruct is_always_equal.
          - right. unfold alloc_neq in Hc. apply negb_false_iff in Hc.
            by apply Nat.eqb_eq in Hc. }
        eexists. split_and!; [| |reflexivity].
        * store_simpl. by destruct (s self).
        * by store_simpl.
    - simpl in Hfast. apply negb_true_iff in Hfast.
      munfold2. store_simpl.
      rewrite Hfast.
      split.
      { apply andb_false_iff in Hfast as [Hc|Hc].
        - left. by destruct is_always_equal.
        - right. unfold alloc_neq in Hc. apply negb_false_iff in Hc.
          by apply Nat.eqb_eq in Hc. }
      eexists. split_and!; [| |reflexivity].
      * store_simpl. by destruct (s self).
      * by store_simpl. }
  destruct Hshape as (Ha' & s1 & Hs1 & Hs1o & ->).
  unfold mbind at 1. unfold M2_bind at 1. unfold call at 1.
  rewrite Hs1, deallocate_spec by (simpl; lia).
  set (v1 := set_end _ _). set (h1 := release _ h).
  destruct (adopt_spec self other (store_set self v1 s1) h1 Hne)
    as (s' & -> & Hs'self & Hs'other).
  rewrite store_set_other in Hs'self, Hs'other by congruence.
  rewrite store_set_same in Hs'self. rewrite Hs1o in Hs'self, Hs'other.
  exists s', h1. split; [done|]. rewrite Hs'self, Hs'other.
  split_and!; try done.
  - apply elems_eq.
    + unfold size. simpl. done.
    + intros i Hi. simpl. subst h1. rewrite release_objs. simpl.
      unfold size in Hi. rewrite to_size_t_small in Hi by lia.
      case_decide; [lia | done].
  - intros p. subst h1. by rewrite release_objs.
  - apply new_events_app. subst h1. rewrite release_events. simpl.
    rewrite Hsz. by rewrite <- app_assoc.
  - intros Hown. subst h1. rewrite release_blocks; [done| |].
    + simpl. by apply Hcapown.
    + intros b n Hb%Hblk. lia.
Qed.

(** ** Comparison operators *)

Section ComparisonProofs.
Context `{Comparable V}.

Lemma equal_loop_spec k : forall p q (h : @heap V),
  equal_loop k p q h = true <->
  forall i, 0 <= i < Z.of_nat k ->
    exists x y, h_objs h !! (p + i) = Some x /\ h_objs h !! (q + i) = Some y /\
                elem_eqb x y = true.
Proof.
  induction k as [|k IH]; intros p q h; cbn [equal_loop].
  - split; [intros _ i Hi; lia | done].
  - split.
    + destruct (h_objs h !! p) as [x|] eqn:Hx; [|discriminate].
      destruct (h_objs h !! q) as [y|] eqn:Hy; [|discriminate].
      destruct (elem_eqb x y) eqn:Hxy; [|discriminate].
      intros Hrest i Hi. destruct (decide (i = 0)) as [->|Hne].
      * exists x, y. by rewrite !Z.add_0_r.
      * destruct (proj1 (IH _ _ _) Hrest (i - 1) ltac:(lia)) as (x' & y' & ? & ? & ?).
        exists x', y'. replace (p + i) with (p + 1 + (i - 1)) by lia.
        replace (q + i) with (q + 1 + (i - 1)) by lia. done.
    + intros Hall. destruct (Hall 0 ltac:(lia)) as (x & y & Hx & Hy & Hxy).
      rewrite Z.add_0_r in Hx, Hy. rewrite Hx, Hy, Hxy.
      apply IH. intros i Hi.
      destruct (Hall (i + 1) ltac:(lia)) as (x' & y' & ? & ? & ?).
      exists x', y'. replace (p + 1 + i) with (p + (i + 1)) by lia.
      replace (q + 1 + i) with (q + (i + 1)) by lia. done.
Qed.

(** X20: [operator==] on two well-formed containers answers true exactly
    when they have the same size and the elements at each index compare
    equal with the element type's [==]. *)
Theorem operator_eq_spec (v other : vector) (h : @heap V) :
  heap_ok h -> vec_ok h v -> vec_ok h other ->
  operator_eq v other h = true <->
  size v = size other /\
  forall i, 0 <= i < size v ->
    exists x y, h_objs h !! (m_begin v + i) = Some x /\
                h_objs h !! (m_begin other + i) = Some y /\
                elem_eqb x y = true.
Proof.
  intros Hh Hv Ho. rewrite (size_ok _ _ Hh Hv), (size_ok _ _ Hh Ho).
  destruct Hv as ((Hb0 & Hbe) & _). destruct Ho as ((Hob0 & Hobe) & _).
  unfold operator_eq, std_equal, begin_, end_.
  destruct (Z.eqb_spec (m_end v - m_begin v) (m_end other - m_begin other)) as [He|Hne].
  - rewrite equal_loop_spec. rewrite Z2Nat.id by lia. split; [by split|by intros [_ ?]].
  - split; [discriminate | by intros [? _]].
Qed.

Lemma lex_skip (comp : V -> V -> ordering) (e1 e2 : Z) (h : @heap V) k :
  forall fuel b1 b2,
  (k <= fuel)%nat -> b1 + Z.of_nat k <= e1 -> b2 + Z.of_nat k <= e2 ->
  (forall i, 0 <= i < Z.of_nat k ->
     exists x y, h_objs h !! (b1 + i) = Some x /\ h_objs h !! (b2 + i) = Some y /\
                 comp x y = equivalent) ->
  lexicographical_compare_three_way fuel comp b1 e1 b2 e2 h =
  lexicographical_compare_three_way (fuel - k) comp
    (b1 + Z.of_nat k) e1 (b2 + Z.of_nat k) e2 h.
Proof.
  induction k as [|k IH]; intros fuel b1 b2 Hf Hk1 Hk2 Hall.
  - by rewrite Nat.sub_0_r, !Z.add_0_r.
  - destruct fuel as [|fuel]; [lia|].
    cbn [lexicographical_compare_three_way].
    destruct (Z.eqb_spec b1 e1); [lia|]. destruct (Z.eqb_spec b2 e2); [lia|].
    cbn [orb].
    destruct (Hall 0 ltac:(lia)) as (x & y & Hx & Hy & Hxy).
    rewrite Z.add_0_r in Hx, Hy. rewrite Hx, Hy, Hxy.
    rewrite IH; [|lia|lia|lia|].
    + replace (S fuel - S k)%nat with (fuel - k)%nat by lia.
      f_equal; lia.
    + intros i Hi. destruct (Hall (i + 1) ltac:(lia)) as (x' & y' & ? & ? & ?).
      exists x', y'. replace (b1 + 1 + i) with (b1 + (i + 1)) by lia.
      replace (b2 + 1 + i) with (b2 + (i + 1)) by lia. done.
Qed.

Lemma lex_equivalent (comp : V -> V -> ordering) (e1 e2 : Z) (h : @heap V) fuel :
  forall b1 b2,
  Z.of_nat fuel = e1 - b1 -> b2 <= e2 ->
  lexicographical_compare_three_way fuel comp b1 e1 b2 e2 h = equivalent ->
  e1 - b1 = e2 - b2 /\
  forall i, 0 <= i < e1 - b1 ->
    exists x y, h_objs h !! (b1 + i) = Some x /\ h_objs h !! (b2 + i) = Some y /\
                comp x y = equivalent.
Proof.
  induction fuel as [|fuel IH]; intros b1 b2 Hf Hk2;
    cbn [lexicographical_compare_three_way].
  - destruct (Z.eqb_spec b1 e1); [|lia]. cbn [orb negb].
    destruct (Z.eqb_spec b2 e2); [|discriminate]. intros _. split; [lia|].
    intros i Hi. lia.
  - destruct (Z.eqb_spec b1 e1); [lia|]. cbn [orb negb].
    destruct (Z.eqb_spec b2 e2); [discriminate|]. cbn [orb negb].
    destruct (h_objs h !! b1) as [x|] eqn:Hx; [|discriminate].
    destruct (h_objs h !! b2) as [y|] eqn:Hy; [|discriminate].
    destruct (comp x y) eqn:Hxy; try discriminate.
    intros Hrest. apply IH in Hrest as [Hlen Hall]; [|lia|lia].
    split; [lia|]. intros i Hi. destruct (decide (i = 0)) as [->|Hne].
    + exists x, y. by rewrite !Z.add_0_r.
    + destruct (Hall (i - 1) ltac:(lia)) as (x' & y' & ? & ? & ?).
      exists x', y'. replace (b1 + i) with (b1 + 1 + (i - 1)) by lia.
      replace (b2 + i) with (b2 + 1 + (i - 1)) by lia. done.
Qed.


(** X21: [operator<=>] on two well-formed containers is the lexicographic
    comparison: if the first [k] element pairs compare equivalent, then
    the result is [equivalent] when both containers end there, [less]
    when only this one ends, [greater] when only the other ends, and
    otherwise whatever the comparison of the two elements at index [k]
    says, if they are not equivalent.  The element comparison is [<=>]
    for a three-way comparable type and the one synthesised from [<]
    otherwise. *)
Theorem operator_cmp_first_difference (v other : vector) (h : @heap V) (k : Z) :
  let comp := if three_way_comparable then elem_cmp else synth_three_way in
  heap_ok h -> vec_ok h v -> vec_ok h other ->
  0 <= k <= size v -> k <= size other ->
  (forall i, 0 <= i < k ->
     exists x y, h_objs h !! (m_begin v + i) = Some x /\
                 h_objs h !! (m_begin other + i) = Some y /\
                 comp x y = equivalent) ->
  (k = size v -> k = size other -> operator_cmp v other h = equivalent) /\
  (k = size v -> k < size other -> operator_cmp v other h = less) /\
  (k < size v -> k = size other -> operator_cmp v other h = greater) /\
  (k < size v -> k < size other ->
   forall x y, h_objs h !! (m_begin v + k) = Some x ->
               h_objs h !! (m_begin other + k) = Some y ->
               comp x y <> equivalent ->
               operator_cmp v other h = comp x y).
Proof.
  intros comp Hh Hv Ho. rewrite (size_ok _ _ Hh Hv), (size_ok _ _ Hh Ho).
  destruct Hv as ((Hb0 & Hbe) & _). destruct Ho as ((Hob0 & Hobe) & _).
  intros Hk Hko Hall. unfold operator_cmp. fold comp.
  rewrite (lex_skip comp (m_end v) (m_end other) h (Z.to_nat k)); try lia.
  2:{ intros i Hi. apply Hall. lia. }
  rewrite Z2Nat.id by lia.
  split_and!.
  - intros -> Heq.
    destruct (_ - _)%nat; cbn [lexicographical_compare_three_way];
      (destruct (Z.eqb_spec (m_begin v + (m_end v - m_begin v)) (m_end v)); [|lia]);
      (destruct (Z.eqb_spec (m_begin other + (m_end v - m_begin v)) (m_end other));
       [done | lia]).
  - intros -> Hlt.
    destruct (_ - _)%nat; cbn [lexicographical_compare_three_way];
      (destruct (Z.eqb_spec (m_begin v + (m_end v - m_begin v)) (m_end v)); [|lia]);
      (destruct (Z.eqb_spec (m_begin other + (m_end v - m_begin v)) (m_end other));
       [lia | done]).
  - intros Hlt ->.
    destruct (_ - _)%nat; cbn [lexicographical_compare_three_way];
      (destruct (Z.eqb_spec (m_begin v + (m_end other - m_begin other)) (m_end v));
       [lia|]);
      (destruct (Z.eqb_spec (m_begin other + (m_end other - m_begin other))
                  (m_end other)); [done | lia]).
  - intros Hlt Hlto x y Hx Hy Hxy.
    destruct (Z.to_nat (m_end v - m_begin v) - Z.to_nat k)%nat as [|fuel] eqn:Hf;
      [lia|].
    cbn [lexicographical_compare_three_way].
    destruct (Z.eqb_spec (m_begin v + k) (m_end v)); [lia|].
    destruct (Z.eqb_spec (m_begin other + k) (m_end other)); [lia|].
    cbn [orb]. rewrite Hx, Hy. by destruct (comp x y).
Qed.

(** X22: when the element comparison used by [operator<=>] finds two
    values equivalent exactly when [==] finds them equal, then on
    well-formed containers [operator<=>] answers [equivalent] exactly when
    [operator==] answers true. *)
Theorem operator_cmp_agrees_with_eq (v other : vector) (h : @heap V) :
  let comp := if three_way_comparable then elem_cmp else synth_three_way in
  (forall x y, comp x y = equivalent <-> elem_eqb x y = true) ->
  heap_ok h -> vec_ok h v -> vec_ok h other ->
  operator_cmp v other h = equivalent <-> operator_eq v other h = true.
Proof.
  intros comp Hcomp Hh Hv Ho.
  pose proof (size_ok _ _ Hh Hv) as Hsz. pose proof (size_ok _ _ Hh Ho) as Hosz.
  destruct Hv as ((Hb0 & Hbe) & _). destruct Ho as ((Hob0 & Hobe) & _).
  unfold operator_cmp, operator_eq, std_equal, begin_, end_. fold comp.
  split.
  - intros Hc. apply lex_equivalent in Hc as [Hlen Hall]; [|lia|lia].
    rewrite Hlen, Z.eqb_refl. rewrite <- Hlen.
    apply equal_loop_spec. intros i Hi.
    destruct (Hall i ltac:(lia)) as (x & y & Hx & Hy & Hxy).
    exists x, y. split_and!; try done. by apply Hcomp.
  - destruct (Z.eqb_spec (m_end v - m_begin v) (m_end other - m_begin other))
      as [Hlen|]; [|discriminate].
    intros Hall.
    rewrite (lex_skip comp (m_end v) (m_end other) h
               (Z.to_nat (m_end v - m_begin v))); try lia.
    + rewrite Nat.sub_diag. cbn [lexicographical_compare_three_way].
      destruct (Z.eqb_spec (m_begin v + Z.of_nat (Z.to_nat (m_end v - m_begin v)))
                  (m_end v)); [|lia].
      destruct (Z.eqb_spec (m_begin other + Z.of_nat (Z.to_nat (m_end v - m_begin v)))
                  (m_end other)); [done | lia].
    + intros i Hi.
      destruct (proj1 (equal_loop_spec _ _ _ _) Hall i Hi) as (x & y & Hx & Hy & Hxy).
      exists x, y. split_and!; try done. by apply Hcomp.
Qed.

End ComparisonProofs.

End Proofs.

(** * Worked cases *)

Ltac lookup_cases H :=
  repeat (rewrite lookup_insert in H; case_decide;
          [first [injection H as <- | idtac]; try lia |]);
  try (rewrite lookup_empty in H; discriminate).

Lemma three_ints_heap_ok : heap_ok three_ints_heap.
Proof.
  unfold heap_ok, three_ints_heap. cbn [h_blocks h_objs h_next].
  split_and!; try done.
  - intros b n Hb. lookup_cases Hb.
  - intros p [x Hx]. lookup_cases Hx.
Qed.

Lemma three_ints_ok : vec_ok three_ints_heap three_ints.
Proof.
  unfold vec_ok, three_ints_heap, three_ints.
  cbn [h_blocks h_objs h_next m_begin m_end m_realend].
  split_and!; try done.
  intros p Hp. assert (p = 1 \/ p = 2 \/ p = 3) as [->|[->| ->]] by lia; by eexists.
Qed.

Lemma pair_heap_ok : heap_ok pair_heap.
Proof.
  unfold heap_ok, pair_heap. cbn [h_blocks h_objs h_next].
  split_and!; try done.
  - intros b n Hb. lookup_cases Hb.
  - intros p [x Hx]. lookup_cases Hx.
Qed.

Lemma pair_store_ok : vec_ok pair_heap (pair_store 0%nat) /\ vec_ok pair_heap (pair_store 1%nat).
Proof.
  unfold vec_ok, pair_heap, pair_store, store2.
  cbn [h_blocks h_objs h_next m_begin m_end m_realend].
  split_and!; try done.
  - intros p Hp. assert (p = 1 \/ p = 2) as [->| ->] by lia; by eexists.
  - intros p Hp. assert (p = 3) as -> by lia. by eexists.
Qed.

(** C1: [push_back] on a container with spare capacity (two elements, room
    for four).  The claim asks for size 3, capacity 4, the elements where
    they were and no reallocation; the code builds the element in place and
    then runs on into the reallocation: size 4 with the new element twice,
    capacity 6, a new block, one more [allocate] call. *)
Theorem emplace_back_with_spare_capacity_reallocates :
  let v := out_vec spare_capacity in
  let h := out_heap spare_capacity in
  let o := push_back (H := int_elem) (FromValue 7) v h in
  (size v = 2 /\ capacity v = 4 /\ elems h v = [Some 0; Some 0]) /\
  out_exn o = None /\
  size (out_vec o) = 4 /\ capacity (out_vec o) = 6 /\
  elems (out_heap o) (out_vec o) = [Some 0; Some 0; Some 7; Some 7] /\
  m_begin (out_vec o) <> m_begin v /\
  alloc_calls (out_heap o) = S (alloc_calls h).
Proof. vm_compute. repeat split; discriminate. Qed.

(** C3: [push_back] on a default-constructed container (capacity 0).  The
    claim asks for capacity [max(1, 2 * 0) = 1]; the code requests
    [size() * 2 = 0] slots, builds the element past the end of that empty
    block, and ends with capacity 0 and size 1; so does [emplace] at
    [end()], which hands over to [emplace_back]. *)
Theorem append_to_zero_capacity_stays_at_zero :
  let v := vector_default alloc0 in
  let o := push_back (H := int_elem) (FromValue 7) v empty_heap in
  capacity v = 0 /\ Z.max 1 (2 * capacity v) = 1 /\
  out_exn o = None /\
  capacity (out_vec o) = 0 /\ size (out_vec o) = 1 /\
  h_log (out_heap o) = [EvDeallocate 0 0 0; EvConstruct 1; EvAllocate 0 0] /\
  h_ub (out_heap o) = true /\
  capacity (out_vec (emplace (H := int_elem) (end_ v) (FromValue 7) v empty_heap)) = 0.
Proof. vm_compute. repeat split. Qed.

(** C4: [resize(3)] on a container of size 1 and capacity 4.  The claim
    asks for two value-initialised elements more and size 3; the loop of
    that branch tests [size() > count], which is false at once, so the call
    returns with the container and the free store untouched: size 1. *)
Theorem resize_within_capacity_does_nothing :
  let v := out_vec shrunk in
  let h := out_heap shrunk in
  (size v = 1 /\ capacity v = 4) /\
  resize (H := int_elem) 3 v h = Ok tt v h /\
  size (out_vec (resize (H := int_elem) 3 v h)) = 1.
Proof. vm_compute. repeat split. Qed.

(** C5: the invariant holds of a default-constructed container and fails
    after one [push_back] on it: [m_end] lies beyond [m_realend], and
    [m_begin] is not null although the capacity is zero. *)
Theorem invariant_broken_by_first_push_back :
  let v := vector_default alloc0 in
  let o := push_back (H := int_elem) (FromValue 7) v empty_heap in
  invariant v /\ out_exn o = None /\
  ~ (m_end (out_vec o) <= m_realend (out_vec o)) /\
  ~ (m_begin (out_vec o) = nullptr <-> capacity (out_vec o) = 0) /\
  ~ invariant (out_vec o).
Proof.
  split; [|split; [|split; [|split]]].
  - vm_compute. repeat split; intros; try discriminate; reflexivity.
  - reflexivity.
  - vm_compute. intros HH. apply HH. reflexivity.
  - vm_compute. intros [_ HH]. specialize (HH eq_refl). discriminate.
  - intros (HH & _). vm_compute in HH. destruct HH as [_ HH]. apply HH. reflexivity.
Qed.

(** C10: on the container 10, 20, 30, [rbegin()] wraps [m_begin] and
    [rend()] wraps [m_end].  Dereferencing [rbegin()] reads the slot before
    the first element, where no element lives, not [back()]; it is [rend()]
    that designates [back()]; [size() - 1] steps after [rbegin()] the
    iterator designates a slot before the block, not [front()]; and
    advancing [rbegin()] by [size()] does not reach [rend()].  On every
    container [rbegin()] designates the slot before [front()] and [rend()]
    designates [back()]. *)
Theorem rbegin_wraps_begin :
  let v := three_ints in
  let h := three_ints_heap in
  (size v = 3 /\ elems h v = [Some 10; Some 20; Some 30]) /\
  h_objs h !! back v = Some 30 /\ h_objs h !! front v = Some 10 /\
  rev_deref (rbegin v) <> back v /\
  h_objs h !! rev_deref (rbegin v) = None /\
  rev_deref (rend v) = back v /\
  rev_deref (rev_advance (rbegin v) (size v - 1)) <> front v /\
  rev_advance (rbegin v) (size v) <> rend v /\
  (forall w, rev_deref (rbegin w) = front w - 1 /\ rev_deref (rend w) = back w).
Proof.
  split_and!; try (vm_compute; first [reflexivity | discriminate]).
  intros w. split; reflexivity.
Qed.

(** C2: [push_back(9)] on the full probe container [0; -5] (size 2,
    capacity 2).  The claim asks that every element already constructed in
    the new block be destroyed before the block is released.  The code
    builds 9 in the new block at address 6, copies 0 to address 4, the copy
    of [-5] throws, the relocation destroys its copy at address 4, and the
    handler releases the block: the exception propagates and the container
    is as before, but 9 is never destroyed. *)
Theorem growth_rollback_leaves_new_element :
  let v := out_vec probe_full in
  let h := out_heap probe_full in
  let o := push_back (H := probe_elem) (FromValue 9) v h in
  (size v = 2 /\ capacity v = 2 /\ elems h v = [Some 0; Some (-5)]) /\
  out_exn o = Some ElemExn /\ out_vec o = v /\
  elems (out_heap o) (out_vec o) = elems h v /\
  h_blocks (out_heap o) = h_blocks h /\
  new_events h (out_heap o) =
    [EvDeallocate 0 4 4; EvDestroy 4; EvConstruct 4; EvConstruct 6;
     EvAllocate 0 4] /\
  h_objs h !! 6 = None /\ h_objs (out_heap o) !! 6 = Some 9.
Proof. vm_compute. repeat split. Qed.

(** The same case against the statement as the specification words it. *)
Lemma rollback_leaks_new_element :
  ~ rollback_leaves_nothing (H := probe_elem) (FromValue 9)
      (out_vec probe_full) (out_heap probe_full).
Proof.
  intros Hc.
  pose (o := emplace_back (H := probe_elem) (FromValue 9)
               (out_vec probe_full) (out_heap probe_full)).
  destruct (Hc ElemExn (out_vec o) (out_heap o)) as (_ & _ & _ & Hobjs).
  { vm_compute. reflexivity. }
  apply (f_equal (fun m => m !! 6)) in Hobjs. vm_compute in Hobjs. discriminate.
Qed.

(** C8 as stated fails: [reserve(2^62)] on an empty [int] container asks
    for more than [max_size()]; it does fail with [LengthError], but only
    after [allocate] has been called. *)
Lemma length_error_comes_after_allocate :
  2 ^ 62 > max_size (H := int_elem) (vector_default alloc0) /\
  ~ length_error_before_allocate (reserve (H := int_elem) (2 ^ 62))
      (vector_default alloc0) empty_heap.
Proof.
  split; [reflexivity|].
  intros (h' & Hthrow & Hcalls).
  vm_compute in Hthrow. injection Hthrow as <-.
  vm_compute in Hcalls. discriminate.
Qed.


(** C7: [at(1)] on the container 10, 20, 30.  The claim asks for a
    reference to the element at index 1, which is 20, and for
    [OutOfRange] when the index is not below the size.  The return
    statement of [at] is [return *this[i];]: the subscript binds first and
    applies to the pointer [this], so [this[i]] is a container object, and
    the unary [*] is applied to a container, which declares no such
    operator.  The expression has no type, whatever [i] is, so [at] has
    no instantiation and a call of it yields neither an element nor an
    [OutOfRange].  With parentheses around [*this] the expression would
    have the type of an element reference. *)
Theorem at_has_no_instantiation :
  (size three_ints = 3 /\
   elems three_ints_heap three_ints !! 1%nat = Some (Some 20)) /\
  type_of (ESubscript EThis 1) = Some TyVector /\
  type_of (at_return 1) = None /\
  at_ (V := Z) 1 = None /\
  (forall i, type_of (at_return i) = None /\ at_ (V := Z) i = None) /\
  type_of (ESubscript (EDeref EThis) 1) = Some TyElemRef.
Proof. repeat split. Qed.

(** C9: move assignment of 10, 20, 30 onto a container holding 5 with
    room for three, on unequal allocators without propagation.  The claim
    asks that the source end with size 0 and capacity 0 and the target
    hold exactly 10, 20, 30.  The code takes the element-wise branch: it
    assigns 10 onto the 5 and calls [push_back] for 20 and for 30; each
    [push_back] builds its element in the spare slot and runs on into the
    reallocation, which builds it again.  The target ends with five
    elements, 10, 20, 20, 30, 30, and the source is never reset: it keeps
    size 3 and capacity 3.  (For [int] a move is a copy, so the values
    moved from are the values read.) *)
Theorem move_assign_elementwise_duplicates :
  let s := uneven_store in
  let h := uneven_heap in
  let o := move_assign (H := int_elem) (H0 := stateful_traits) 0 1 s h in
  (elems h (s 0%nat) = [Some 5] /\ capacity (s 0%nat) = 3 /\
   elems h (s 1%nat) = [Some 10; Some 20; Some 30] /\
   alloc_neq (m_alloc (s 0%nat)) (m_alloc (s 1%nat)) = true) /\
  out_exn2 o = None /\
  size (out_store o 1%nat) = 3 /\ capacity (out_store o 1%nat) = 3 /\
  size (out_store o 0%nat) = 5 /\
  elems (out_heap2 o) (out_store o 0%nat)
    = [Some 10; Some 20; Some 20; Some 30; Some 30].
Proof. vm_compute. repeat split. Qed.

(** The statement as the specification words it fails on that case. *)
Lemma move_assign_duplicates_against_the_statement :
  ~ move_assign_as_specified (H := int_elem) (H0 := stateful_traits) 0 1
      uneven_store uneven_heap.
Proof.
  intros Hc.
  pose (r := move_assign (H := int_elem) (H0 := stateful_traits) 0 1
       uneven_store uneven_heap).
  destruct (Hc (out_store r) (out_heap2 r)) as (Hsz & _).
  { vm_compute. reflexivity. }
  vm_compute in Hsz. discriminate.
Qed.

(** ** The general theorems at concrete inputs *)



Lemma growth_rollback_witness :
  heap_ok three_ints_heap /\ vec_ok three_ints_heap three_ints /\
  size three_ints = capacity three_ints /\
  exists e h',
    emplace_back (H := probe_elem) (FromValue (-1)) three_ints three_ints_heap
      = Throw e three_ints h' /\
    h_objs h' = h_objs three_ints_heap /\ h_blocks h' = h_blocks three_ints_heap.
Proof.
  split; [apply three_ints_heap_ok|]. split; [apply three_ints_ok|].
  split; [reflexivity|].
  apply (growth_rollback (H := probe_elem) (FromValue (-1)) three_ints
           three_ints_heap three_ints_heap_ok three_ints_ok eq_refl).
  reflexivity.
Defined.

Lemma length_error_follows_allocator_throw_witness :
  2 ^ 62 > max_size (H := int_elem) three_ints /\
  fst (traits_allocate (m_alloc three_ints) (2 ^ 62) three_ints_heap) = None /\
  reserve (H := int_elem) (2 ^ 62) three_ints three_ints_heap
    = Throw LengthError three_ints
        (log_event (EvAllocate 0 (2 ^ 62)) three_ints_heap) /\
  resize (H := int_elem) (2 ^ 62) three_ints three_ints_heap
    = Throw LengthError three_ints
        (log_event (EvAllocate 0 (2 ^ 62)) three_ints_heap).
Proof.
  split; [reflexivity|]. split; [reflexivity|].
  destruct (length_error_follows_allocator_throw (H := int_elem) NoArgs
              three_ints three_ints_heap (2 ^ 62)) as [Hmain _].
  destruct (Hmain eq_refl eq_refl) as (_ & Hreserve & Hresize & _).
  split; [apply Hreserve | apply Hresize]; reflexivity.
Defined.


(** ** Further operations at concrete inputs *)

Lemma roomy_heap_ok : heap_ok roomy_heap.
Proof.
  unfold heap_ok, roomy_heap. cbn [h_blocks h_objs h_next].
  split_and!; try done.
  - intros b n Hb. lookup_cases Hb.
  - intros p [x Hx]. lookup_cases Hx.
Qed.

Lemma roomy_ok : vec_ok roomy_heap roomy.
Proof.
  unfold vec_ok, roomy_heap, roomy.
  cbn [h_blocks h_objs h_next m_begin m_end m_realend].
  split_and!; try done.
  intros p Hp. assert (p = 1 \/ p = 2) as [->| ->] by lia; by eexists.
Qed.

Lemma three_ints_owns : owns_block three_ints_heap three_ints.
Proof. right. split; [done|]. intros p Hp. simpl in Hp. lia. Qed.

Lemma pair_second_owns : owns_block pair_heap (pair_store 1%nat).
Proof. right. split; [done|]. intros p Hp. simpl in Hp. lia. Qed.

Lemma empty_heap_ok : heap_ok empty_heap.
Proof.
  unfold heap_ok, empty_heap. cbn [h_blocks h_objs h_next].
  split_and!; try done. intros p [x Hx]. by rewrite lookup_empty in Hx.
Qed.

Lemma clear_empties_witness :
  heap_ok three_ints_heap /\ vec_ok three_ints_heap three_ints /\
  exists v' h',
    clear three_ints three_ints_heap = Ok tt v' h' /\
    size v' = 0 /\ capacity v' = 3 /\
    length (new_events three_ints_heap h') = 3%nat.
Proof.
  split; [apply three_ints_heap_ok|]. split; [apply three_ints_ok|].
  destruct (clear_empties three_ints three_ints_heap three_ints_heap_ok three_ints_ok)
    as (v' & h' & Hrun & (Hs & Hc & _) & _ & _ & Hlen & _).
  exists v', h'. split; [exact Hrun|]. split; [exact Hs|].
  split; [exact Hc | exact Hlen].
Defined.

Lemma pop_back_removes_last_witness :
  heap_ok three_ints_heap /\ vec_ok three_ints_heap three_ints /\
  0 < size three_ints /\
  exists v' h',
    pop_back three_ints three_ints_heap = Ok tt v' h' /\
    size v' = 2 /\ elems h' v' = [Some 10; Some 20] /\
    new_events three_ints_heap h' = [EvDestroy 3].
Proof.
  split; [apply three_ints_heap_ok|]. split; [apply three_ints_ok|].
  split; [reflexivity|].
  destruct (pop_back_removes_last three_ints three_ints_heap
              three_ints_heap_ok three_ints_ok eq_refl) as (v' & h' & Hrun & Hrest).
  exists v', h'. split; [exact Hrun|].
  injection Hrun as <- <-. vm_compute. repeat split.
Defined.

Lemma push_then_pop_restores_witness :
  heap_ok three_ints_heap /\ vec_ok three_ints_heap three_ints /\
  size three_ints = capacity three_ints /\
  exists v' h',
    (emplace_back (H := int_elem) (FromValue 7) ;; pop_back)
      three_ints three_ints_heap = Ok tt v' h' /\
    size v' = 3 /\ capacity v' = 6 /\
    elems h' v' = [Some 10; Some 20; Some 30].
Proof.
  split; [apply three_ints_heap_ok|]. split; [apply three_ints_ok|].
  split; [reflexivity|].
  pose (o := (emplace_back (H := int_elem) (FromValue 7) ;; pop_back)
               three_ints three_ints_heap).
  exists (out_vec o), (out_heap o).
  assert (Hrun : o = Ok tt (out_vec o) (out_heap o)) by (vm_compute; reflexivity).
  split; [exact Hrun|].
  exact (push_then_pop_restores (H := int_elem) (FromValue 7) three_ints (out_vec o)
           three_ints_heap (out_heap o) three_ints_heap_ok three_ints_ok eq_refl Hrun).
Defined.


Lemma sized_constructor_throw_keeps_block_witness :
  exists v' h',
    vector_sized (H := no_default_elem) 2 (vector_default alloc0) three_ints_heap
      = Throw ElemExn v' h' /\
    h_blocks h' = <[4 := 2]> (h_blocks three_ints_heap) /\
    h_objs h' = h_objs three_ints_heap /\
    new_events three_ints_heap h' = [EvAllocate 0 2].
Proof.
  apply (sized_constructor_throw_keeps_block (H := no_default_elem) 2
           (vector_default alloc0) three_ints_heap).
  - lia.
  - reflexivity.
  - vm_compute. discriminate.
  - vm_compute. discriminate.
Defined.

Lemma destructor_releases_witness :
  heap_ok three_ints_heap /\ vec_ok three_ints_heap three_ints /\
  owns_block three_ints_heap three_ints /\
  exists v' h',
    destructor three_ints three_ints_heap = Ok tt v' h' /\
    h_blocks h' = delete 1 (h_blocks three_ints_heap) /\
    new_events three_ints_heap h' =
      [EvDeallocate 0 1 3; EvDestroy 1; EvDestroy 2; EvDestroy 3].
Proof.
  split; [apply three_ints_heap_ok|]. split; [apply three_ints_ok|].
  split; [apply three_ints_owns|].
  destruct (destructor_releases three_ints three_ints_heap three_ints_heap_ok
              three_ints_ok three_ints_owns) as (v' & h' & Hrun & Hb & _ & _ & Hev).
  exists v', h'. split; [exact Hrun|]. split; [exact Hb | exact Hev].
Defined.


Lemma copy_constructor_copies_witness :
  heap_ok three_ints_heap /\ vec_ok three_ints_heap three_ints /\
  exists v' h',
    vector_copy (H := int_elem) three_ints (vector_default alloc1) three_ints_heap
      = Ok tt v' h' /\
    size v' = 3 /\ capacity v' = 3 /\
    elems h' v' = [Some 10; Some 20; Some 30] /\
    elems h' three_ints = [Some 10; Some 20; Some 30] /\
    m_end three_ints <= m_begin v'.
Proof.
  split; [apply three_ints_heap_ok|]. split; [apply three_ints_ok|].
  destruct (copy_constructor_copies (H := int_elem) three_ints (vector_default alloc1)
              three_ints_heap three_ints_heap_ok three_ints_ok)
    as (Hpost & _ & Hruns).
  destruct Hruns as (v' & h' & Hrun).
  - vm_compute. discriminate.
  - vm_compute. discriminate.
  - intros x _. reflexivity.
  - exists v', h'. split; [exact Hrun|].
    destruct (Hpost v' h' Hrun) as ((Hs & Hc) & (He & Heo) & Hdis & _).
    split; [exact Hs|]. split; [exact Hc|]. split; [exact He|].
    split; [exact Heo | exact Hdis].
Defined.

Lemma copy_and_original_are_independent_witness :
  heap_ok three_ints_heap /\ vec_ok three_ints_heap three_ints /\
  exists c h1,
    vector_copy (H := int_elem) three_ints (vector_default alloc1) three_ints_heap
      = Ok tt c h1 /\
    (exists c' h2, clear c h1 = Ok tt c' h2 /\
                   elems h2 three_ints = [Some 10; Some 20; Some 30]) /\
    (exists o' h2, clear three_ints h1 = Ok tt o' h2 /\
                   elems h2 c = [Some 10; Some 20; Some 30]).
Proof.
  split; [apply three_ints_heap_ok|]. split; [apply three_ints_ok|].
  pose (o := vector_copy (H := int_elem) three_ints (vector_default alloc1)
               three_ints_heap).
  assert (Hrun : o = Ok tt (out_vec o) (out_heap o)) by (vm_compute; reflexivity).
  exists (out_vec o), (out_heap o). split; [exact Hrun|].
  destruct (copy_and_original_are_independent (H := int_elem) three_ints
              (vector_default alloc1) (out_vec o) three_ints_heap (out_heap o)
              three_ints_heap_ok three_ints_ok Hrun) as [Hcopy Horig].
  split.
  - pose (o1 := clear (out_vec o) (out_heap o)).
    assert (Hrun1 : o1 = Ok tt (out_vec o1) (out_heap o1)) by (vm_compute; reflexivity).
    exists (out_vec o1), (out_heap o1). split; [exact Hrun1|].
    exact (proj2 (Hcopy _ _ Hrun1)).
  - pose (o1 := clear three_ints (out_heap o)).
    assert (Hrun1 : o1 = Ok tt (out_vec o1) (out_heap o1)) by (vm_compute; reflexivity).
    exists (out_vec o1), (out_heap o1). split; [exact Hrun1|].
    exact (proj2 (Horig _ _ Hrun1)).
Defined.


Lemma resize_fill_never_grows_witness :
  heap_ok three_ints_heap /\ vec_ok three_ints_heap three_ints /\ 0 <= 5 /\
  exists v' h',
    resize_fill (H := int_elem) 5 7 three_ints three_ints_heap = Ok tt v' h' /\
    size v' = 3 /\ capacity v' = 5 /\
    elems h' v' = [Some 10; Some 20; Some 30] /\
    h_objs h' !! m_end v' = Some 7.
Proof.
  assert (H5 : 0 <= 5) by lia.
  split; [apply three_ints_heap_ok|]. split; [apply three_ints_ok|].
  split; [exact H5|].
  pose (o := resize_fill (H := int_elem) 5 7 three_ints three_ints_heap).
  assert (Hrun : o = Ok tt (out_vec o) (out_heap o)) by (vm_compute; reflexivity).
  exists (out_vec o), (out_heap o). split; [exact Hrun|].
  destruct (resize_fill_never_grows (H := int_elem) 5 7 three_ints (out_vec o)
              three_ints_heap (out_heap o) three_ints_heap_ok three_ints_ok H5 Hrun)
    as (Hs & Hc & He & Hfill).
  split; [exact Hs|]. split; [exact Hc|]. split; [exact He|].
  apply Hfill; [reflexivity|]. vm_compute. split; [discriminate | reflexivity].
Defined.

Lemma emplace_reallocating_inserts_witness :
  heap_ok three_ints_heap /\ vec_ok three_ints_heap three_ints /\
  m_end three_ints = m_realend three_ints /\
  m_begin three_ints <= 2 < m_end three_ints /\
  exists r v' h',
    emplace (H := int_elem) 2 (FromValue 7) three_ints three_ints_heap
      = Ok r v' h' /\
    r = m_begin v' + 1 /\ size v' = 4 /\ capacity v' = 6 /\
    elems h' v' = [Some 10; Some 7; Some 20; Some 30].
Proof.
  assert (Hpos : m_begin three_ints <= 2 < m_end three_ints) by (simpl; lia).
  split; [apply three_ints_heap_ok|]. split; [apply three_ints_ok|].
  split; [reflexivity|]. split; [exact Hpos|].
  pose (o := emplace (H := int_elem) 2 (FromValue 7) three_ints three_ints_heap).
  assert (Hrun : o = Ok 5 (out_vec o) (out_heap o)) by (vm_compute; reflexivity).
  exists 5, (out_vec o), (out_heap o). split; [exact Hrun|].
  destruct (emplace_reallocating_inserts (H := int_elem) 2 (FromValue 7) three_ints
              (out_vec o) three_ints_heap (out_heap o) 5 three_ints_heap_ok
              three_ints_ok eq_refl Hpos Hrun) as (x & Hx & Hr & Hs & Hc & He).
  injection Hx as <-.
  split; [exact Hr|]. split; [exact Hs|]. split; [exact Hc | exact He].
Defined.


Lemma operator_eq_spec_witness :
  heap_ok pair_heap /\
  operator_eq (H1 := int_cmp) (pair_store 0%nat) (pair_store 0%nat) pair_heap = true /\
  operator_eq (H1 := int_cmp) (pair_store 0%nat) (pair_store 1%nat) pair_heap = false.
Proof.
  split; [apply pair_heap_ok|]. split.
  - apply (operator_eq_spec (H1 := int_cmp) (pair_store 0%nat) (pair_store 0%nat)
             pair_heap pair_heap_ok (proj1 pair_store_ok) (proj1 pair_store_ok)).
    split; [reflexivity|]. intros i Hi.
    assert (Hsz : size (pair_store 0%nat) = 2) by reflexivity.
    rewrite Hsz in Hi.
    assert (i = 0 \/ i = 1) as [->| ->] by lia;
      eexists _, _; repeat split; reflexivity.
  - apply not_true_is_false. intros Heq.
    apply (operator_eq_spec (H1 := int_cmp) (pair_store 0%nat) (pair_store 1%nat)
             pair_heap pair_heap_ok (proj1 pair_store_ok) (proj2 pair_store_ok))
      in Heq as [Hs _].
    vm_compute in Hs. discriminate.
Defined.

Lemma operator_cmp_first_difference_witness :
  heap_ok pair_heap /\
  operator_cmp (H1 := int_cmp) (pair_store 0%nat) (pair_store 1%nat) pair_heap = less /\
  operator_cmp (H1 := int_cmp) (pair_store 1%nat) (pair_store 0%nat) pair_heap
    = greater.
Proof.
  split; [apply pair_heap_ok|].
  assert (H0 : forall v o : vector, forall i : Z, 0 <= i < 0 ->
            exists x y : Z, h_objs pair_heap !! (m_begin v + i) = Some x /\
              h_objs pair_heap !! (m_begin o + i) = Some y /\
              elem_cmp (Comparable := int_cmp) x y = equivalent)
    by (intros; lia).
  split.
  - destruct (operator_cmp_first_difference (H1 := int_cmp) (pair_store 0%nat)
                (pair_store 1%nat) pair_heap 0 pair_heap_ok (proj1 pair_store_ok)
                (proj2 pair_store_ok)) as (_ & _ & _ & Hdiff).
    + vm_compute. split; discriminate.
    + vm_compute. discriminate.
    + apply H0.
    + apply (Hdiff eq_refl eq_refl 10 30); [reflexivity | reflexivity | discriminate].
  - destruct (operator_cmp_first_difference (H1 := int_cmp) (pair_store 1%nat)
                (pair_store 0%nat) pair_heap 0 pair_heap_ok (proj2 pair_store_ok)
                (proj1 pair_store_ok)) as (_ & _ & _ & Hdiff).
    + vm_compute. split; discriminate.
    + vm_compute. discriminate.
    + apply H0.
    + apply (Hdiff eq_refl eq_refl 30 10); [reflexivity | reflexivity | discriminate].
Defined.

Lemma int_cmp_agrees (x y : Z) :
  (if three_way_comparable (Comparable := int_cmp)
   then elem_cmp (Comparable := int_cmp) else synth_three_way (H1 := int_cmp))
    x y = equivalent <-> elem_eqb (Comparable := int_cmp) x y = true.
Proof.
  simpl. destruct (Z.compare_spec x y) as [->|?|?].
  - by rewrite Z.eqb_refl.
  - split; [discriminate|]. intros ?%Z.eqb_eq. lia.
  - split; [discriminate|]. intros ?%Z.eqb_eq. lia.
Qed.

Lemma operator_cmp_agrees_with_eq_witness :
  heap_ok pair_heap /\
  operator_cmp (H1 := int_cmp) (pair_store 0%nat) (pair_store 0%nat) pair_heap
    = equivalent.
Proof.
  split; [apply pair_heap_ok|].
  apply (operator_cmp_agrees_with_eq (H1 := int_cmp) (pair_store 0%nat)
           (pair_store 0%nat) pair_heap int_cmp_agrees pair_heap_ok
           (proj1 pair_store_ok) (proj1 pair_store_ok)).
  reflexivity.
Defined.

Lemma growth_doubles_witness :
  heap_ok three_ints_heap /\ vec_ok three_ints_heap three_ints /\
  size three_ints = capacity three_ints /\
  exists v' h',
    emplace_back (H := int_elem) (FromValue 7) three_ints three_ints_heap
      = Ok tt v' h' /\
    capacity v' = 6 /\ size v' = 4 /\
    elems h' v' = [Some 10; Some 20; Some 30; Some 7].
Proof.
  split; [apply three_ints_heap_ok|]. split; [apply three_ints_ok|].
  split; [reflexivity|].
  pose (o := emplace_back (H := int_elem) (FromValue 7) three_ints three_ints_heap).
  assert (Hrun : o = Ok tt (out_vec o) (out_heap o)) by (vm_compute; reflexivity).
  exists (out_vec o), (out_heap o). split; [exact Hrun|].
  exact (growth_doubles (H := int_elem) (FromValue 7) three_ints (out_vec o)
           three_ints_heap (out_heap o) three_ints_heap_ok three_ints_ok eq_refl Hrun).
Defined.


Lemma resize_shrinks_witness :
  heap_ok three_ints_heap /\ vec_ok three_ints_heap three_ints /\
  0 <= 1 <= size three_ints /\
  exists v' h',
    resize (H := int_elem) 1 three_ints three_ints_heap = Ok tt v' h' /\
    size v' = 1 /\ capacity v' = 3 /\ elems h' v' = [Some 10] /\
    length (new_events three_ints_heap h') = 2%nat.
Proof.
  assert (Hc : 0 <= 1 <= size three_ints) by (split; discriminate).
  split; [apply three_ints_heap_ok|]. split; [apply three_ints_ok|].
  split; [exact Hc|].
  destruct (resize_shrinks (H := int_elem) three_ints three_ints_heap 1
              three_ints_heap_ok three_ints_ok Hc)
    as (v' & h' & Hrun & Hs & Hcap & _ & He & Hlen & _).
  exists v', h'. split; [exact Hrun|]. split; [exact Hs|]. split; [exact Hcap|].
  split; [exact He | exact Hlen].
Defined.

Lemma resize_reallocates_witness :
  heap_ok three_ints_heap /\ vec_ok three_ints_heap three_ints /\
  5 > capacity three_ints /\
  exists v' h',
    resize (H := int_elem) 5 three_ints three_ints_heap = Ok tt v' h' /\
    capacity v' = 5 /\ size v' = 5 /\
    elems h' v' = [Some 10; Some 20; Some 30; Some 0; Some 0] /\
    alloc_calls h' = 1%nat.
Proof.
  assert (Hgt : 5 > capacity three_ints) by reflexivity.
  split; [apply three_ints_heap_ok|]. split; [apply three_ints_ok|].
  split; [exact Hgt|].
  pose (o := resize (H := int_elem) 5 three_ints three_ints_heap).
  assert (Hrun : o = Ok tt (out_vec o) (out_heap o)) by (vm_compute; reflexivity).
  exists (out_vec o), (out_heap o). split; [exact Hrun|].
  exact (resize_reallocates (H := int_elem) three_ints (out_vec o) three_ints_heap
           (out_heap o) 5 three_ints_heap_ok three_ints_ok Hgt Hrun).
Defined.

Lemma reserve_stays_defined_witness :
  heap_ok three_ints_heap /\ vec_ok three_ints_heap three_ints /\
  owns_block three_ints_heap three_ints /\
  exists v' h',
    reserve (H := int_elem) 6 three_ints three_ints_heap = Ok tt v' h' /\
    h_ub h' = false /\ heap_ok h' /\ vec_ok h' v' /\ owns_block h' v'.
Proof.
  split; [apply three_ints_heap_ok|]. split; [apply three_ints_ok|].
  split; [apply three_ints_owns|].
  pose (o := reserve (H := int_elem) 6 three_ints three_ints_heap).
  assert (Hrun : o = Ok tt (out_vec o) (out_heap o)) by (vm_compute; reflexivity).
  exists (out_vec o), (out_heap o). split; [exact Hrun|].
  exact (reserve_stays_defined (H := int_elem) three_ints (out_vec o) three_ints_heap
           (out_heap o) 6 three_ints_heap_ok three_ints_ok three_ints_owns Hrun).
Defined.

Lemma move_assign_elementwise_keeps_source_witness :
  out_store
    (move_assign (H := int_elem) (H0 := stateful_traits) 0 1
       (two_vectors alloc0 alloc1) (out_heap (second_of_two alloc0 alloc1)))
    1%nat = two_vectors alloc0 alloc1 1%nat /\
  size
    (out_store
       (move_assign (H := int_elem) (H0 := stateful_traits) 0 1
          (two_vectors alloc0 alloc1) (out_heap (second_of_two alloc0 alloc1)))
       1%nat) = 1.
Proof.
  split.
  - apply (move_assign_elementwise_keeps_source (H := int_elem)
             (H0 := stateful_traits) 0 1 (two_vectors alloc0 alloc1)
             (out_heap (second_of_two alloc0 alloc1)));
      reflexivity.
  - rewrite (move_assign_elementwise_keeps_source (H := int_elem)
               (H0 := stateful_traits) 0 1 (two_vectors alloc0 alloc1)
               (out_heap (second_of_two alloc0 alloc1))); reflexivity.
Defined.

Lemma uneven_heap_ok : heap_ok uneven_heap.
Proof.
  unfold heap_ok, uneven_heap. cbn [h_blocks h_objs h_next].
  split_and!; try done.
  - intros b n Hb. lookup_cases Hb.
  - intros p [x Hx]. lookup_cases Hx.
Qed.

Lemma uneven_store_ok :
  vec_ok uneven_heap (uneven_store 0%nat) /\ vec_ok uneven_heap (uneven_store 1%nat).
Proof.
  unfold vec_ok, uneven_heap, uneven_store, store2.
  cbn [h_blocks h_objs h_next m_begin m_end m_realend].
  split_and!; try done.
  - intros p Hp. assert (p = 1) as -> by lia. by eexists.
  - intros p Hp. assert (p = 4 \/ p = 5 \/ p = 6) as [->|[->| ->]] by lia; by eexists.
Qed.

Lemma uneven_first_owns : owns_block uneven_heap (uneven_store 0%nat).
Proof.
  right. split; [done|]. intros p Hp. simpl in Hp.
  assert (p = 2 \/ p = 3) as [->| ->] by lia; reflexivity.
Qed.

Lemma move_assign_adopts_witness :
  heap_ok uneven_heap /\
  adopts_pointers (H0 := propagating_traits)
    (m_alloc (uneven_store 0%nat)) (m_alloc (uneven_store 1%nat)) = true /\
  exists s' h',
    move_assign (H := int_elem) (H0 := propagating_traits) 0 1
      uneven_store uneven_heap = Ok2 tt s' h' /\
    size (s' 1%nat) = 0 /\ capacity (s' 1%nat) = 0 /\
    elems h' (s' 0%nat) = [Some 10; Some 20; Some 30] /\
    a_id (m_alloc (s' 0%nat)) = 1%nat /\
    new_events uneven_heap h' = [EvDeallocate 1 1 3; EvDestroy 1] /\
    h_blocks h' = delete 1 (h_blocks uneven_heap).
Proof.
  split; [apply uneven_heap_ok|]. split; [reflexivity|].
  destruct (move_assign_adopts (H := int_elem) (H0 := propagating_traits) 0 1
              uneven_store uneven_heap)
    as (s' & h' & Hrun & (Hsz & Hcap & _) & _ & Hal & _ & Hel & _ & Hev & Hblocks).
  - discriminate.
  - apply uneven_heap_ok.
  - apply uneven_store_ok.
  - apply uneven_store_ok.
  - left. vm_compute. discriminate.
  - reflexivity.
  - exists s', h'. split; [exact Hrun|]. split; [exact Hsz|]. split; [exact Hcap|].
    split; [rewrite Hel; reflexivity|].
    split; [rewrite Hal; reflexivity|].
    split; [rewrite Hev, Hal; reflexivity|].
    apply Hblocks. apply uneven_first_owns.
Defined.

Lemma negative_heap_ok : heap_ok negative_heap.
Proof.
  unfold heap_ok, negative_heap. cbn [h_blocks h_objs h_next].
  split_and!; try done.
  - intros b n Hb. lookup_cases Hb.
  - intros p [x Hx]. lookup_cases Hx.
Qed.

Lemma negative_store_ok :
  vec_ok negative_heap (pair_store 0%nat) /\ vec_ok negative_heap (pair_store 1%nat).
Proof.
  unfold vec_ok, negative_heap, pair_store, store2.
  cbn [h_blocks h_objs h_next m_begin m_end m_realend].
  split_and!; try done.
  - intros p Hp. assert (p = 1 \/ p = 2) as [->| ->] by lia; by eexists.
  - intros p Hp. assert (p = 3) as -> by lia. by eexists.
Qed.

Lemma shrink_to_fit_spec_witness :
  heap_ok roomy_heap /\ vec_ok roomy_heap roomy /\ size roomy < capacity roomy /\
  exists v' h',
    shrink_to_fit (H := int_elem) roomy roomy_heap = Ok tt v' h' /\
    capacity v' = 2 /\ size v' = 2 /\ elems h' v' = [Some 10; Some 20].
Proof.
  split; [apply roomy_heap_ok|]. split; [apply roomy_ok|].
  split; [reflexivity|].
  destruct (shrink_to_fit_spec (H := int_elem) roomy roomy_heap roomy_heap_ok roomy_ok)
    as [_ Hshrink].
  destruct Hshrink as (Hpost & Hruns); [reflexivity|].
  destruct Hruns as (v' & h' & Hrun).
  - vm_compute. discriminate.
  - vm_compute. discriminate.
  - intros x _. discriminate.
  - exists v', h'. split; [exact Hrun|].
    destruct (Hpost v' h' Hrun) as (Hc & Hs & He & _).
    split; [exact Hc|]. split; [exact Hs | exact He].
Defined.

Lemma sized_constructor_builds_witness :
  heap_ok three_ints_heap /\ 0 <= 2 /\
  exists v' h',
    vector_sized (H := int_elem) 2 (vector_default alloc0) three_ints_heap
      = Ok tt v' h' /\
    size v' = 2 /\ capacity v' = 2 /\ elems h' v' = [Some 0; Some 0] /\
    owns_block h' v'.
Proof.
  assert (H2 : 0 <= 2) by lia.
  split; [apply three_ints_heap_ok|]. split; [exact H2|].
  destruct (sized_constructor_builds (H := int_elem) 2 (vector_default alloc0)
              three_ints_heap three_ints_heap_ok H2) as (Hsized & Hruns).
  destruct Hruns as (v' & h' & Hrun).
  - vm_compute. discriminate.
  - vm_compute. discriminate.
  - discriminate.
  - exists v', h'. split; [exact Hrun|].
    destruct (Hsized v' h' Hrun) as (? & ? & ? & _ & _ & ? & _). by split_and!.
Defined.

Lemma construct_then_destroy_leaves_nothing_witness :
  heap_ok three_ints_heap /\ 0 <= 2 /\
  exists v' h',
    (vector_sized (H := int_elem) 2 ;; destructor)
      (vector_default alloc0) three_ints_heap = Ok tt v' h' /\
    h_blocks h' = h_blocks three_ints_heap /\
    h_objs h' = h_objs three_ints_heap /\ h_ub h' = h_ub three_ints_heap.
Proof.
  assert (H2 : 0 <= 2) by lia.
  split; [apply three_ints_heap_ok|]. split; [exact H2|].
  pose (o := (vector_sized (H := int_elem) 2 ;; destructor)
               (vector_default alloc0) three_ints_heap).
  exists (out_vec o), (out_heap o).
  assert (Hrun : o = Ok tt (out_vec o) (out_heap o)) by (vm_compute; reflexivity).
  split; [exact Hrun|].
  exact (construct_then_destroy_leaves_nothing (H := int_elem) 2
           (vector_default alloc0) (out_vec o) three_ints_heap (out_heap o)
           three_ints_heap_ok H2 Hrun).
Defined.

Lemma spare_capacity_falls_through_witness :
  (forall x : Z, FromValue 7 <> FromRvalue x) /\
  heap_ok roomy_heap /\ vec_ok roomy_heap roomy /\ size roomy < capacity roomy /\
  exists v' h',
    emplace_back (H := int_elem) (FromValue 7) roomy roomy_heap = Ok tt v' h' /\
    size v' = 4 /\ capacity v' = 6 /\ m_begin v' = 4 /\
    elems h' v' = [Some 10; Some 20; Some 7; Some 7] /\
    alloc_calls h' = 1%nat.
Proof.
  assert (Hlv : forall x : Z, FromValue 7 <> FromRvalue x) by (intros x; discriminate).
  split; [exact Hlv|].
  split; [apply roomy_heap_ok|]. split; [apply roomy_ok|].
  split; [reflexivity|].
  pose (o := emplace_back (H := int_elem) (FromValue 7) roomy roomy_heap).
  assert (Hrun : o = Ok tt (out_vec o) (out_heap o)) by (vm_compute; reflexivity).
  exists (out_vec o), (out_heap o). split; [exact Hrun|].
  exact (spare_capacity_falls_through (H := int_elem) (FromValue 7) roomy (out_vec o)
           roomy_heap (out_heap o) Hlv roomy_heap_ok roomy_ok eq_refl Hrun).
Defined.

Lemma copy_assign_within_size_witness :
  propagate_on_container_copy_assignment (AllocTraits := std_traits) = false /\
  heap_ok pair_heap /\ heap_ok negative_heap /\
  (exists s' h',
     copy_assign (H := int_elem) (H0 := std_traits) (HA := int_assign)
       allocate_empty_unused 0 1 pair_store pair_heap = Ok2 tt s' h' /\
     size (s' 0%nat) = 1 /\ capacity (s' 0%nat) = 2 /\
     elems h' (s' 0%nat) = [Some 30] /\ elems h' (s' 1%nat) = [Some 30] /\
     h_blocks h' = h_blocks pair_heap) /\
  (exists s' h',
     copy_assign (H := int_elem) (H0 := std_traits) (HA := picky_assign)
       allocate_empty_unused 0 1 pair_store negative_heap
       = Throw2 ElemExn s' h' /\
     size (s' 0%nat) = 1 /\ capacity (s' 0%nat) = 2 /\
     s' 1%nat = pair_store 1%nat /\ h_blocks h' = h_blocks negative_heap).
Proof.
  assert (Hne : 0%nat <> 1%nat) by discriminate.
  assert (Hdis : m_end (pair_store 0%nat) <= m_begin (pair_store 1%nat) \/
                 m_end (pair_store 1%nat) <= m_begin (pair_store 0%nat))
    by (left; simpl; lia).
  assert (Hle : size (pair_store 1%nat) <= size (pair_store 0%nat))
    by (vm_compute; discriminate).
  split; [reflexivity|]. split; [apply pair_heap_ok|].
  split; [apply negative_heap_ok|]. split.
  - destruct (copy_assign_within_size (H := int_elem) (H0 := std_traits)
                (HA := int_assign) allocate_empty_unused 0 1 pair_store pair_heap
                eq_refl Hne pair_heap_ok (proj1 pair_store_ok) (proj2 pair_store_ok)
                Hdis Hle) as (Hpost & _ & Hruns).
    destruct Hruns as (s' & h' & Hrun); [intros x _; reflexivity|].
    exists s', h'. split; [exact Hrun|].
    destruct (Hpost s' h' Hrun) as ((Hs & Hc & _) & (He & Heo & _) & (Hb & _) & _).
    split; [exact Hs|]. split; [exact Hc|].
    split; [exact He|]. split; [exact Heo | exact Hb].
  - destruct (copy_assign_within_size (H := int_elem) (H0 := std_traits)
                (HA := picky_assign) allocate_empty_unused 0 1 pair_store
                negative_heap eq_refl Hne negative_heap_ok (proj1 negative_store_ok)
                (proj2 negative_store_ok) Hdis Hle) as (_ & Hthrow & _).
    pose (o := copy_assign (H := int_elem) (H0 := std_traits) (HA := picky_assign)
                 allocate_empty_unused 0 1 pair_store negative_heap).
    assert (Hrun : o = Throw2 ElemExn (out_store o) (out_heap2 o))
      by (vm_compute; reflexivity).
    exists (out_store o), (out_heap2 o). split; [exact Hrun|].
    destruct (Hthrow _ _ _ Hrun) as (_ & _ & (Hs & Hc & _) & (Ho & _) & Hb).
    split; [exact Hs|]. split; [exact Hc|]. split; [exact Ho | exact Hb].
Defined.

Lemma copy_assign_reallocates_witness :
  propagate_on_container_copy_assignment (AllocTraits := std_traits) = false /\
  heap_ok pair_heap /\ owns_block pair_heap (pair_store 1%nat) /\
  capacity (pair_store 1%nat) < size (pair_store 0%nat) /\
  exists s' h',
    copy_assign (H := int_elem) (H0 := std_traits) (HA := int_assign)
      allocate_empty_unused 1 0 pair_store pair_heap = Ok2 tt s' h' /\
    size (s' 1%nat) = 2 /\ capacity (s' 1%nat) = 2 /\
    elems h' (s' 1%nat) = [Some 10; Some 20] /\
    h_objs h' !! 3 = Some 30 /\
    Forall (fun ev => is_destroy ev = false /\ is_assign ev = false)
           (new_events pair_heap h').
Proof.
  split; [reflexivity|]. split; [apply pair_heap_ok|].
  split; [apply pair_second_owns|]. split; [reflexivity|].
  assert (Hne : 1%nat <> 0%nat) by discriminate.
  assert (Hgt : capacity (pair_store 1%nat) < size (pair_store 0%nat)) by reflexivity.
  destruct (copy_assign_reallocates (H := int_elem) (H0 := std_traits)
              (HA := int_assign)
              allocate_empty_unused 1 0 pair_store pair_heap eq_refl Hne
              pair_heap_ok (proj2 pair_store_ok) (proj1 pair_store_ok)
              pair_second_owns Hgt) as (Hpost & _ & Hruns).
  destruct Hruns as (s' & h' & Hrun).
  - vm_compute. discriminate.
  - vm_compute. discriminate.
  - intros x _. reflexivity.
  - exists s', h'. split; [exact Hrun|].
    destruct (Hpost s' h' Hrun) as ((Hs & Hc) & (He & _) & _ & Hleak & Hev & _).
    split; [exact Hs|]. split; [exact Hc|]. split; [exact He|].
    split; [|exact Hev].
    rewrite (Hleak 3); [reflexivity|]. simpl. lia.
Defined.
